(** * rash: a Robin Hood hash table with a bounded probe window

    A shallow embedding of [src/rash.c] and the properties of its
    specification.

    Conventions of the embedding.
    - A [size_t] is a [Z] reduced modulo [2 ^ word_bits]; a [uint8_t] is a
      [Z] reduced modulo [256].  Every wrap-around of the source is written
      out with [to_size_t] and [to_uint8].
    - An index into the bucket array is a [nat].  Every read of the array
      is checked: a read outside of the array, the dereference of a NULL
      pointer, and running out of recursion fuel make the operation return
      [None].
    - A C string is the list of the values of its characters; the
      terminating zero is implicit at the end of the list, and a zero inside
      of the list terminates the string as it does in C.
    - A pointer to an entry is modelled by the record it points to together
      with its address [ptr]; pointer equality is equality of addresses.
    - The allocator is an oracle: the list of the outcomes of the successive
      calls of [malloc] and [calloc].  Once the list is used up, every
      further request fails. *)

From Stdlib Require Import ZArith Lia Bool.
From stdpp Require Import base option list.

Local Open Scope Z_scope.

(** ** Entries and tables *)

Record hash_table_entry := Entry {
  ptr : Z;
  key : list Z;
  hash : Z;
  data : Z;
  dist_from_des : Z
}.

Definition set_dist (e : hash_table_entry) (d : Z) : hash_table_entry :=
  Entry (ptr e) (key e) (hash e) (data e) d.

Abbreviation bucket_array := (list (option hash_table_entry)).

Record hash_table := Table {
  max_size_shift : Z;
  max_size : Z;
  curr_size : Z;
  buckets : bucket_array
}.

Definition set_buckets (t : hash_table) (b : bucket_array) : hash_table :=
  Table (max_size_shift t) (max_size t) (curr_size t) b.

(** ** Machine integers *)

Section Rash.

(** [sizeof(size_t) * 8]. *)
Variable word_bits : Z.

Definition SIZE_MAX : Z := 2 ^ word_bits - 1.

Definition to_size_t (x : Z) : Z := x mod 2 ^ word_bits.

Definition to_uint8 (x : Z) : Z := x mod 256.

Definition HASH_TABLE_INITIAL_SHIFT : Z := 4.

Definition HASH_TABLE_RESIZE_INCREMENT : Z := 1.

Definition FIBONACCI_MULTIPLIER : Z :=
  if Z.shiftr SIZE_MAX 63 =? 0 then 2654435769 else 11400714819323198485.

(** ** Strings *)

Fixpoint strlen (s : list Z) : nat :=
  match s with
  | [] => O
  | c :: s' => if c =? 0 then O else S (strlen s')
  end.

(** [strcmp]: zero exactly when the two strings are equal up to their
    terminators.  Only the comparison of the result with zero is used. *)
Fixpoint strcmp (s1 s2 : list Z) : Z :=
  match s1, s2 with
  | [], [] => 0
  | [], c2 :: _ => 0 - c2
  | c1 :: _, [] => c1
  | c1 :: s1', c2 :: s2' =>
      if c1 =? c2 then (if c1 =? 0 then 0 else strcmp s1' s2') else c1 - c2
  end.

(** [strncpy(dest, src, n)]: the [n] bytes written to [dest]. *)
Fixpoint strncpy (src : list Z) (n : nat) : list Z :=
  match n with
  | O => []
  | S n' =>
      match src with
      | [] => 0 :: strncpy [] n'
      | c :: src' => if c =? 0 then 0 :: strncpy [] n' else c :: strncpy src' n'
      end
  end.

(** ** Hashing *)

Definition fibonacci_hash (hash bits : Z) : Z :=
  let shift_amount := word_bits - bits in
  Z.shiftr (to_size_t (hash * FIBONACCI_MULTIPLIER)) shift_amount.

Fixpoint djb2_loop (str : list Z) (hash : Z) : Z :=
  match str with
  | [] => hash
  | c :: str' =>
      if c =? 0 then hash
      else djb2_loop str' (to_size_t (to_size_t (to_size_t (Z.shiftl hash 5) + hash) + c))
  end.

Definition djb2_hash (str : list Z) : Z := djb2_loop str 5381.

(** The number of buckets of the array: [max_size + max_size_shift]. *)
Definition buckets_len (size shift : Z) : nat := Z.to_nat (to_size_t (size + shift)).

(** ** The allocator and the log of freed entries *)

Record env := Env {
  allocs : list bool;
  alloc_failures : nat;
  next_ptr : Z;
  freed : list Z
}.

(** One request to [malloc] or [calloc]. *)
Definition alloc (m : env) : bool * env :=
  match allocs m with
  | [] => (false, Env [] (S (alloc_failures m)) (next_ptr m) (freed m))
  | true :: rest => (true, Env rest (alloc_failures m) (next_ptr m) (freed m))
  | false :: rest => (false, Env rest (S (alloc_failures m)) (next_ptr m) (freed m))
  end.

Definition fresh_ptr (m : env) : Z * env :=
  (next_ptr m, Env (allocs m) (alloc_failures m) (next_ptr m + 1) (freed m)).

Definition hash_table_entry_free (e : hash_table_entry) (m : env) : env :=
  Env (allocs m) (alloc_failures m) (next_ptr m) (ptr e :: freed m).

(** ** The probe walk *)

Definition hash_table_is_next_found (t : hash_table) (probe_count : Z) : bool :=
  probe_count <? max_size_shift t.

Definition hash_table_get_position (t : hash_table) (k : list Z) : Z :=
  fibonacci_hash (djb2_hash k) (max_size_shift t).

Definition hash_table_should_replace_entry (entry1 entry2 : hash_table_entry) : bool :=
  dist_from_des entry1 >? dist_from_des entry2.

(** [HASH_TABLE_ITERATE_TO_NEXT] with an empty body.  [remaining] is
    [max_size_shift - probe_count]: the loop stops when it reaches zero. *)
Fixpoint iterate_to_next (b : bucket_array) (key_value : list Z)
    (remaining : nat) (position : nat) (probe_count : Z) : option (nat * Z) :=
  match remaining with
  | O => Some (position, probe_count)
  | S remaining' =>
      match b !! position with
      | None => None
      | Some None => Some (position, probe_count)
      | Some (Some current) =>
          if strcmp (key current) key_value =? 0 then Some (position, probe_count)
          else iterate_to_next b key_value remaining' (S position) (probe_count + 1)
      end
  end.

(** The body of the loop of [hash_table_insert]: [current] is the entry of
    the bucket at [position]. *)
Definition insert_step (b : bucket_array) (rich current : hash_table_entry)
    (position : nat) : bucket_array * hash_table_entry :=
  let '(b1, rich1) :=
    if hash_table_should_replace_entry rich current
    then (<[position := Some rich]> b, current)
    else (b, rich) in
  (b1, set_dist rich1 (to_uint8 (dist_from_des rich1 + 1))).

(** [HASH_TABLE_ITERATE_TO_NEXT] with the body of [hash_table_insert]. *)
Fixpoint insert_loop (b : bucket_array) (key_value : list Z) (remaining : nat)
    (rich : hash_table_entry) (position : nat) (probe_count : Z)
    : option (bucket_array * hash_table_entry * nat * Z) :=
  match remaining with
  | O => Some (b, rich, position, probe_count)
  | S remaining' =>
      match b !! position with
      | None => None
      | Some None => Some (b, rich, position, probe_count)
      | Some (Some current) =>
          if strcmp (key current) key_value =? 0 then Some (b, rich, position, probe_count)
          else
            let '(b1, rich1) := insert_step b rich current position in
            insert_loop b1 key_value remaining' rich1 (S position) (probe_count + 1)
      end
  end.

(** The body of the loop of [hash_table_unwind_insertion_changes], up to
    its stopping condition: [current] is the entry of the bucket at [i]. *)
Definition unwind_step (b : bucket_array) (poor current : hash_table_entry)
    (i : nat) : bucket_array * hash_table_entry :=
  let poor1 := set_dist poor (to_uint8 (dist_from_des poor - 1)) in
  if hash_table_should_replace_entry current poor1
  then (<[i := Some poor1]> b, current)
  else (b, poor1).

(** The loop of [hash_table_unwind_insertion_changes]; [inserted] is the
    address of the entry that was being inserted. *)
Fixpoint unwind_loop (b : bucket_array) (inserted : Z) (poor : hash_table_entry)
    (i : nat) {struct i} : option (bucket_array * hash_table_entry) :=
  match b !! i with
  | None => None
  | Some None => None
  | Some (Some current) =>
      let '(b1, poor1) := unwind_step b poor current i in
      if ptr poor1 =? inserted then Some (b1, poor1)
      else
        match i with
        | O => Some (b1, poor1)
        | S i' => unwind_loop b1 inserted poor1 i'
        end
  end.

Definition hash_table_unwind_insertion_changes (t : hash_table)
    (inserted original : hash_table_entry) (unwind_start_position : nat)
    : option (hash_table * hash_table_entry) :=
  match unwind_loop (buckets t) (ptr inserted) original unwind_start_position with
  | None => None
  | Some (b, poor) => Some (set_buckets t b, poor)
  end.

(** The loop of [hash_table_remove_from_position], from [position] on;
    [n] bounds the number of iterations by the length of the array. *)
Fixpoint back_shift (b : bucket_array) (n : nat) (position : nat) : option bucket_array :=
  match n with
  | O => Some b
  | S n' =>
      match b !! position with
      | None => None
      | Some None => Some b
      | Some (Some entry) =>
          if dist_from_des entry =? 0 then Some b
          else
            let entry' := set_dist entry (to_uint8 (dist_from_des entry - 1)) in
            back_shift (<[position := None]> (<[(position - 1)%nat := Some entry']> b))
              n' (S position)
      end
  end.

Definition hash_table_remove_from_position (t : hash_table) (position : nat)
    : option (bool * hash_table) :=
  if decide (position < length (buckets t))%nat then
    let b := <[position := None]> (buckets t) in
    let len := buckets_len (max_size t) (max_size_shift t) in
    match back_shift b (len - S position) (S position) with
    | None => None
    | Some b' =>
        Some (true, Table (max_size_shift t) (max_size t)
                      (to_size_t (curr_size t - 1)) b')
    end
  else None.

(** ** Load factors

    [HASH_TABLE_LOAD_FACTOR_INCREASE] is [0.75f] and
    [HASH_TABLE_LOAD_FACTOR_DECREASE] is [0.10f]: IEEE 754 binary32 numbers,
    [3 / 2^2] and [13421773 / 2^27].  A [size_t] compared with a [float] is
    converted to binary32, rounding to the nearest number with 24
    significant bits, ties to even. *)

Definition float_round (n : Z) : Z :=
  let e := Z.log2 n - 23 in
  if e <=? 0 then n
  else
    let q := Z.shiftr n e in
    let r := n - Z.shiftl q e in
    let half := Z.shiftl 1 (e - 1) in
    let q' := if (r >? half) || ((r =? half) && Z.odd q) then q + 1 else q in
    Z.shiftl q' e.

(** [(float) x * c] for [c = num / 2^den], as the pair of the rounded
    numerator and [den]. *)
Definition float_mul (x : Z) (c : Z * Z) : Z * Z :=
  (float_round (float_round x * fst c), snd c).

(** [(float) x > y] and [(float) x < y] for [y = num / 2^den]. *)
Definition float_gt (x : Z) (y : Z * Z) : bool :=
  float_round x * 2 ^ snd y >? fst y.

Definition float_lt (x : Z) (y : Z * Z) : bool :=
  float_round x * 2 ^ snd y <? fst y.

Definition HASH_TABLE_LOAD_FACTOR_INCREASE : Z * Z := (3, 2).

Definition HASH_TABLE_LOAD_FACTOR_DECREASE : Z * Z := (13421773, 27).

Definition hash_table_should_resize_up_factor (t : hash_table) : bool :=
  float_gt (to_size_t (curr_size t + 1))
           (float_mul (max_size t) HASH_TABLE_LOAD_FACTOR_INCREASE).

Definition hash_table_should_resize_down_factor (t : hash_table) : bool :=
  if max_size_shift t <=? HASH_TABLE_INITIAL_SHIFT then false
  else float_lt (to_size_t (curr_size t - 1))
                (float_mul (max_size t) HASH_TABLE_LOAD_FACTOR_DECREASE).

(** ** Allocation of bucket arrays *)

(** [sizeof(struct hash_table_entry * )]. *)
Definition sizeof_ptr : Z := word_bits / 8.

(** [calloc(nmemb, size)]: NULL when the size of the request does not fit
    a [size_t], else as the oracle says. *)
Definition calloc (nmemb size : Z) (m : env) : bool * env :=
  if nmemb * size >? SIZE_MAX
  then (false, Env (allocs m) (S (alloc_failures m)) (next_ptr m) (freed m))
  else alloc m.

(** [calloc(sizeof( *table->buckets), max_size + max_size_shift)]; the new
    array is zeroed. *)
Definition hash_table_buckets_alloc (t : hash_table) (m : env)
    : option bucket_array * env :=
  let n := to_size_t (max_size t + max_size_shift t) in
  match calloc sizeof_ptr n m with
  | (true, m') => (Some (replicate (Z.to_nat n) None), m')
  | (false, m') => (None, m')
  end.

(** ** Insertion, rehash and resize *)

Definition inserter : Type :=
  env -> hash_table -> hash_table_entry -> option (bool * hash_table * env).

(** The loop of [hash_table_rehash]: [n] buckets of the old array are left,
    from index [i] on.  The result of [hash_table_insert] is dropped, as in
    the source. *)
Fixpoint rehash_loop (insert : inserter) (old_buckets : bucket_array)
    (n : nat) (i : nat) (m : env) (t : hash_table) : option (hash_table * env) :=
  match n with
  | O => Some (t, m)
  | S n' =>
      match old_buckets !! i with
      | None => None
      | Some None => rehash_loop insert old_buckets n' (S i) m t
      | Some (Some entry) =>
          match insert m t (set_dist entry 0) with
          | None => None
          | Some (_, t', m') => rehash_loop insert old_buckets n' (S i) m' t'
          end
      end
  end.

Definition hash_table_rehash (insert : inserter) (m : env) (t : hash_table)
    (old_buckets : bucket_array) (old_max_size old_max_size_shift : Z)
    : option (hash_table * env) :=
  rehash_loop insert old_buckets (buckets_len old_max_size old_max_size_shift) O m t.

Definition hash_table_resize (insert : inserter) (m : env) (t : hash_table)
    (shift_amount : Z) : option (bool * hash_table * env) :=
  let old_max_size := max_size t in
  let old_max_size_shift := max_size_shift t in
  let new_shift := to_uint8 (max_size_shift t + shift_amount) in
  let new_size :=
    if shift_amount >=? 0 then to_size_t (Z.shiftl (max_size t) shift_amount)
    else Z.shiftr (max_size t) (-1 * shift_amount) in
  let t1 := Table new_shift new_size (curr_size t) (buckets t) in
  match hash_table_buckets_alloc t1 m with
  | (None, m') => Some (false, t, m')
  | (Some new_buckets, m') =>
      let old_buckets := buckets t in
      let t2 := Table new_shift new_size 0 new_buckets in
      match hash_table_rehash insert m' t2 old_buckets old_max_size old_max_size_shift with
      | None => None
      | Some (t3, m'') => Some (true, t3, m'')
      end
  end.

(** [hash_table_insert]; [fuel] bounds the depth of the recursion through
    [hash_table_resize] and [hash_table_rehash]. *)
Fixpoint hash_table_insert (fuel : nat) (m : env) (t : hash_table)
    (entry : hash_table_entry) {struct fuel} : option (bool * hash_table * env) :=
  match fuel with
  | O => None
  | S fuel' =>
      let position := Z.to_nat (fibonacci_hash (hash entry) (max_size_shift t)) in
      match insert_loop (buckets t) (key entry) (Z.to_nat (max_size_shift t))
              entry position 0 with
      | None => None
      | Some (b, rich, position, probe_count) =>
          let t1 := set_buckets t b in
          if hash_table_is_next_found t1 probe_count then
            match b !! position with
            | None => None
            | Some (Some current) =>
                Some (true, set_buckets t1 (<[position := Some rich]> b),
                      hash_table_entry_free current m)
            | Some None =>
                Some (true, Table (max_size_shift t1) (max_size t1)
                              (to_size_t (curr_size t1 + 1))
                              (<[position := Some rich]> b), m)
            end
          else
            match position with
            | O => None
            | S start =>
                match hash_table_unwind_insertion_changes t1 entry rich start with
                | None => None
                | Some (t2, poor) =>
                    (* The source assumes that the unwind ends with [entry]
                       in hand; otherwise [entry] is still referenced by
                       the array and is about to be inserted again. *)
                    if ptr poor =? ptr entry then
                      match hash_table_resize (hash_table_insert fuel') m t2
                              HASH_TABLE_RESIZE_INCREMENT with
                      | None => None
                      | Some (false, t3, m') => Some (false, t3, m')
                      | Some (true, t3, m') =>
                          hash_table_insert fuel' m' t3 (set_dist poor 0)
                      end
                    else None
                end
            end
      end
  end.

(** ** Public operations *)

Definition hash_table_entry_create (k : list Z) (d : Z) (m : env)
    : option hash_table_entry * env :=
  match alloc m with
  | (false, m1) => (None, m1)
  | (true, m1) =>
      let '(p, m2) := fresh_ptr m1 in
      let key_length := S (strlen k) in
      match alloc m2 with
      | (false, m3) => (None, m3)
      | (true, m3) => (Some (Entry p (strncpy k key_length) (djb2_hash k) d 0), m3)
      end
  end.

Definition hash_table_create (m : env) : option hash_table * env :=
  match alloc m with
  | (false, m1) => (None, m1)
  | (true, m1) =>
      let t := Table HASH_TABLE_INITIAL_SHIFT (Z.shiftl 1 HASH_TABLE_INITIAL_SHIFT) 0 [] in
      match hash_table_buckets_alloc t m1 with
      | (None, m2) => (None, m2)
      | (Some b, m2) => (Some (set_buckets t b), m2)
      end
  end.

(** The recursion of an operation is at most as deep as the number of
    arrays that the allocator can still hand out. *)
Definition fuel_of (m : env) : nat := S (S (length (allocs m))).

(** The check of the load factor that precedes the insertion in
    [hash_table_add]. *)
Definition add_precheck (m : env) (t : hash_table)
    : option (bool * hash_table * env) :=
  if hash_table_should_resize_up_factor t then
    hash_table_resize (hash_table_insert (fuel_of m)) m t HASH_TABLE_RESIZE_INCREMENT
  else Some (true, t, m).

Definition hash_table_add (m : env) (t : hash_table) (k : list Z) (d : Z)
    : option (bool * hash_table * env) :=
  match hash_table_entry_create k d m with
  | (None, m1) => Some (false, t, m1)
  | (Some new_entry, m1) =>
      match add_precheck m1 t with
      | None => None
      | Some (false, t1, m2) => Some (false, t1, hash_table_entry_free new_entry m2)
      | Some (true, t1, m2) =>
          match hash_table_insert (fuel_of m2) m2 t1 new_entry with
          | None => None
          | Some (false, t2, m3) => Some (false, t2, hash_table_entry_free new_entry m3)
          | Some (true, t2, m3) => Some (true, t2, m3)
          end
      end
  end.

(** The check of the load factor that precedes the lookup in
    [hash_table_remove]. *)
Definition remove_precheck (m : env) (t : hash_table)
    : option (bool * hash_table * env) :=
  if hash_table_should_resize_down_factor t then
    hash_table_resize (hash_table_insert (fuel_of m)) m t (- HASH_TABLE_RESIZE_INCREMENT)
  else Some (true, t, m).

Definition hash_table_remove (m : env) (t : hash_table) (k : list Z)
    : option (bool * hash_table * env) :=
  match remove_precheck m t with
  | None => None
  | Some (false, t1, m1) => Some (false, t1, m1)
  | Some (true, t1, m1) =>
      let position := Z.to_nat (hash_table_get_position t1 k) in
      match iterate_to_next (buckets t1) k (Z.to_nat (max_size_shift t1)) position 0 with
      | None => None
      | Some (position, probe_count) =>
          if negb (hash_table_is_next_found t1 probe_count) then Some (false, t1, m1)
          else
            match buckets t1 !! position with
            | None => None
            | Some None => Some (false, t1, m1)
            | Some (Some e) =>
                match hash_table_remove_from_position t1 position with
                | None => None
                | Some (r, t2) => Some (r, t2, hash_table_entry_free e m1)
                end
            end
      end
  end.

(** [NULL] is the address [0]. *)
Definition NULL : Z := 0.

Definition hash_table_get (t : hash_table) (k : list Z) : option Z :=
  let position := Z.to_nat (hash_table_get_position t k) in
  match iterate_to_next (buckets t) k (Z.to_nat (max_size_shift t)) position 0 with
  | None => None
  | Some (position, probe_count) =>
      if negb (hash_table_is_next_found t probe_count) then Some NULL
      else
        match buckets t !! position with
        | None => None
        | Some None => Some NULL
        | Some (Some entry) => Some (data entry)
        end
  end.

Definition hash_table_get_size (t : hash_table) : Z := curr_size t.

(** ** Invariants of a table *)

(** The home index of an entry in a table of [2 ^ shift] buckets. *)
Definition home (shift : Z) (e : hash_table_entry) : nat :=
  Z.to_nat (fibonacci_hash (hash e) shift).

(** An entry sits [dist_from_des] buckets after its home, inside of the
    probe window, and carries the digest of its key. *)
Definition slot_ok (shift : Z) (i : nat) (e : hash_table_entry) : Prop :=
  Z.of_nat (home shift e) + dist_from_des e = Z.of_nat i /\
  0 <= dist_from_des e < shift /\
  hash e = djb2_hash (key e).

Definition wf_slots (shift : Z) (b : bucket_array) : Prop :=
  forall i e, b !! i = Some (Some e) -> slot_ok shift i e.

(** Robin Hood order: an entry away from its home follows an entry that is
    at most one step closer to its own home. *)
Definition rh_order (b : bucket_array) : Prop :=
  forall i e, b !! S i = Some (Some e) ->
    dist_from_des e = 0 \/
    exists e', b !! i = Some (Some e') /\ dist_from_des e <= dist_from_des e' + 1.

Definition keys_distinct (b : bucket_array) : Prop :=
  forall i j ei ej, b !! i = Some (Some ei) -> b !! j = Some (Some ej) ->
    strcmp (key ei) (key ej) = 0 -> i = j.

Definition ptrs_distinct (b : bucket_array) : Prop :=
  forall i j ei ej, b !! i = Some (Some ei) -> b !! j = Some (Some ej) ->
    ptr ei = ptr ej -> i = j.

Fixpoint count_occupied (b : bucket_array) : nat :=
  match b with
  | [] => O
  | Some _ :: b' => S (count_occupied b')
  | None :: b' => count_occupied b'
  end.

Record table_inv (t : hash_table) : Prop := TableInv {
  inv_shift : HASH_TABLE_INITIAL_SHIFT <= max_size_shift t;
  inv_size : max_size t = 2 ^ max_size_shift t;
  inv_fits : sizeof_ptr * (max_size t + max_size_shift t) <= SIZE_MAX;
  inv_length : length (buckets t) = Z.to_nat (max_size t + max_size_shift t);
  inv_wf : wf_slots (max_size_shift t) (buckets t);
  inv_order : rh_order (buckets t);
  inv_keys : keys_distinct (buckets t);
  inv_ptrs : ptrs_distinct (buckets t);
  inv_count : curr_size t = Z.of_nat (count_occupied (buckets t))
}.

(** The table maps the string [k] to the payload [d]. *)
Definition maps_to (t : hash_table) (k : list Z) (d : Z) : Prop :=
  exists i e, buckets t !! i = Some (Some e) /\ strcmp (key e) k = 0 /\ data e = d.

Definition absent (t : hash_table) (k : list Z) : Prop :=
  forall i e, buckets t !! i = Some (Some e) -> strcmp (key e) k <> 0.

(** The record of an entry without its displacement. *)
Definition core (e : hash_table_entry) : hash_table_entry := set_dist e 0.

Definition stored (b : bucket_array) (c : hash_table_entry) : Prop :=
  exists i e, b !! i = Some (Some e) /\ core e = c.

(** The state of the loop of [hash_table_insert] before the bucket at
    [position] is read: the array [b], the carried entry [rich], the probe
    count and the number [n] of probes that are left.  [xkey] and [xptr] are
    the key and the address of the entry that is being inserted. *)
Record walk_inv (shift : Z) (xkey : list Z) (xptr : Z) (b : bucket_array)
    (rich : hash_table_entry) (position : nat) (probe_count : Z) (n : nat)
    : Prop := WalkInv {
  w_wf : wf_slots shift b;
  w_ord : rh_order b;
  w_keys : keys_distinct b;
  w_ptrs : ptrs_distinct b;
  w_rkey : forall i e, b !! i = Some (Some e) -> strcmp (key e) (key rich) <> 0;
  w_rptr : forall i e, b !! i = Some (Some e) -> ptr e <> ptr rich;
  w_home : Z.of_nat (home shift rich) + dist_from_des rich = Z.of_nat position;
  w_dist : 0 <= dist_from_des rich <= probe_count;
  w_hash : hash rich = djb2_hash (key rich);
  w_carry : dist_from_des rich = 0 \/
            exists e', b !! (position - 1)%nat = Some (Some e') /\
                       dist_from_des rich <= dist_from_des e' + 1;
  w_suffix : forall j e, (position <= j)%nat -> b !! j = Some (Some e) ->
             strcmp (key e) xkey <> 0 /\ ptr e <> xptr;
  w_phase : (ptr rich = xptr /\ dist_from_des rich = probe_count) \/
            (ptr rich <> xptr /\
             forall c, b !! position = Some (Some c) ->
               dist_from_des c <= dist_from_des rich);
  w_rem : probe_count + Z.of_nat n = shift;
  w_shift : shift < 128;
  w_len : (position + n <= length b)%nat
}.

(** What the caller of [hash_table_insert] provides: an entry at its home
    that carries the digest of its key. *)
Definition entry_ok (e : hash_table_entry) : Prop :=
  dist_from_des e = 0 /\ hash e = djb2_hash (key e).

Definition ptr_fresh (b : bucket_array) (q : Z) : Prop :=
  forall i e, b !! i = Some (Some e) -> ptr e <> q.

Definition key_absent (b : bucket_array) (k : list Z) : Prop :=
  forall i e, b !! i = Some (Some e) -> strcmp (key e) k <> 0.

(** ** Specifications of the operations *)

Definition env_le (m m' : env) : Prop :=
  (length (allocs m') <= length (allocs m))%nat /\
  (alloc_failures m <= alloc_failures m')%nat /\
  next_ptr m' = next_ptr m.

(** [hash_table_insert] on [t] and [X] returned [r], [t'] and [m']. *)
Record insert_post (m : env) (t : hash_table) (X : hash_table_entry)
    (r : bool) (t' : hash_table) (m' : env) : Prop := InsertPost {
  ip_inv : table_inv t';
  ip_shift : max_size_shift t <= max_size_shift t';
  ip_env : env_le m m';
  ip_sub : forall c, stored (buckets t') c ->
    (r = true /\ c = core X) \/
    (stored (buckets t) c /\ (r = true -> strcmp (key c) (key X) <> 0));
  ip_in : r = true -> stored (buckets t') (core X);
  ip_fail : r = false -> (alloc_failures m < alloc_failures m')%nat;
  ip_freed : freed m' = freed m \/
    exists c, stored (buckets t) c /\ strcmp (key c) (key X) = 0 /\
              r = true /\ freed m' = ptr c :: freed m;
  ip_exact : alloc_failures m' = alloc_failures m ->
    r = true /\
    (forall c, stored (buckets t) c -> strcmp (key c) (key X) <> 0 ->
               stored (buckets t') c) /\
    (key_absent (buckets t) (key X) ->
       count_occupied (buckets t') = S (count_occupied (buckets t)) /\
       freed m' = freed m) /\
    (forall c, stored (buckets t) c -> strcmp (key c) (key X) = 0 ->
       count_occupied (buckets t') = count_occupied (buckets t) /\
       freed m' = ptr c :: freed m)
}.

(** [hash_table_resize] on [t] returned [r], [t'] and [m']. *)
Record resize_post (m : env) (t : hash_table) (shift_amount : Z)
    (r : bool) (t' : hash_table) (m' : env) : Prop := ResizePost {
  rp_inv : table_inv t';
  rp_fail : r = false -> t' = t /\ (alloc_failures m < alloc_failures m')%nat;
  rp_shift : r = true -> max_size_shift t + shift_amount <= max_size_shift t';
  rp_used : r = true -> (length (allocs m') < length (allocs m))%nat;
  rp_env : env_le m m';
  rp_freed : freed m' = freed m;
  rp_sub : forall c, stored (buckets t') c -> stored (buckets t) c;
  rp_exact : alloc_failures m' = alloc_failures m ->
    r = true /\
    (forall c, stored (buckets t) c -> stored (buckets t') c) /\
    count_occupied (buckets t') = count_occupied (buckets t)
}.

(** An inserter that meets the specification of [hash_table_insert] while
    less than [f] allocations are left. *)
Definition inserter_ok (f : nat) (ins : inserter) : Prop :=
  forall m t X, (length (allocs m) < f)%nat ->
    table_inv t -> entry_ok X -> ptr_fresh (buckets t) (ptr X) ->
    exists r t' m', ins m t X = Some (r, t', m') /\ insert_post m t X r t' m'.

(** The state of the loop of [hash_table_remove_from_position] before the
    bucket at [q] is read: the bucket before it is the hole, and [prev] is
    the displacement that the entry before the hole had before it moved. *)
Record hole_inv (shift : Z) (b : bucket_array) (q : nat) (prev : Z) : Prop := HoleInv {
  h_hole : exists q', q = S q' /\ b !! q' = Some None;
  h_wf : wf_slots shift b;
  h_keys : keys_distinct b;
  h_ptrs : ptrs_distinct b;
  h_ord : forall i e, S i <> q -> b !! S i = Some (Some e) ->
            dist_from_des e = 0 \/
            exists e', b !! i = Some (Some e') /\
                       dist_from_des e <= dist_from_des e' + 1;
  h_next : forall e, b !! q = Some (Some e) ->
             dist_from_des e = 0 \/ dist_from_des e <= prev + 1;
  h_prev : prev <= 0 \/
           exists i e', q = S (S i) /\ b !! i = Some (Some e') /\
                        prev <= dist_from_des e' + 1
}.

(** A table together with the allocator: the addresses of the entries of
    the table have been handed out. *)
Definition state_inv (m : env) (t : hash_table) : Prop :=
  table_inv t /\ forall c, stored (buckets t) c -> ptr c < next_ptr m.

(** [hash_table_add] of [k] and [d] on [t] returned [r], [t'] and [m']. *)
Record add_post (m : env) (t : hash_table) (k : list Z) (d : Z)
    (r : bool) (t' : hash_table) (m' : env) : Prop := AddPost {
  ap_inv : state_inv m' t';
  ap_shift : max_size_shift t <= max_size_shift t';
  ap_mono : (alloc_failures m <= alloc_failures m')%nat;
  ap_sub : forall c, stored (buckets t') c ->
    (r = true /\ strcmp (key c) k = 0 /\ data c = d) \/
    (stored (buckets t) c /\ (r = true -> strcmp (key c) k <> 0));
  ap_in : r = true -> maps_to t' k d;
  ap_fail : r = false -> (alloc_failures m < alloc_failures m')%nat;
  ap_exact : alloc_failures m' = alloc_failures m ->
    r = true /\
    (forall c, stored (buckets t) c -> strcmp (key c) k <> 0 ->
               stored (buckets t') c) /\
    (absent t k -> curr_size t' = curr_size t + 1 /\ freed m' = freed m) /\
    (forall c, stored (buckets t) c -> strcmp (key c) k = 0 ->
       curr_size t' = curr_size t /\ freed m' = ptr c :: freed m)
}.

(** [hash_table_remove] of [k] on [t] returned [r], [t'] and [m']. *)
Record remove_post (m : env) (t : hash_table) (k : list Z)
    (r : bool) (t' : hash_table) (m' : env) : Prop := RemovePost {
  rm_inv : state_inv m' t';
  rm_mono : (alloc_failures m <= alloc_failures m')%nat;
  rm_sub : forall c, stored (buckets t') c ->
    stored (buckets t) c /\ (r = true -> strcmp (key c) k <> 0);
  rm_true : r = true ->
    exists c, stored (buckets t) c /\ strcmp (key c) k = 0 /\
              freed m' = ptr c :: freed m;
  rm_exact : alloc_failures m' = alloc_failures m ->
    (forall c, stored (buckets t) c -> strcmp (key c) k <> 0 ->
               stored (buckets t') c) /\
    (absent t k -> r = false /\ curr_size t' = curr_size t) /\
    (~ absent t k -> r = true /\ curr_size t' = curr_size t - 1)
}.

(** The table with the tentative sizes of a one-step grow, on which
    [hash_table_resize] calls [hash_table_buckets_alloc]. *)
Definition grown (t : hash_table) : hash_table :=
  Table (to_uint8 (max_size_shift t + HASH_TABLE_RESIZE_INCREMENT))
        (to_size_t (Z.shiftl (max_size t) HASH_TABLE_RESIZE_INCREMENT))
        (curr_size t) (buckets t).

(** ** More on an insertion of a new key *)

(** The table with the tentative sizes of a one-step shrink. *)
Definition shrunk (t : hash_table) : hash_table :=
  Table (to_uint8 (max_size_shift t + - HASH_TABLE_RESIZE_INCREMENT))
        (Z.shiftr (max_size t) (-1 * - HASH_TABLE_RESIZE_INCREMENT))
        (curr_size t) (buckets t).

(** [hash_table_insert] of an entry [X] with a new key on [t] returned [r],
    [t'] and [m'].  Either no resize took place, or the table holds at
    least [max_size_shift] entries.  When the result is false, the last
    insertion of the recursion ran on [t'] in the state [mf] of the
    allocator: its walk ran out of probes, its unwind gave back the array
    of [t'], and the allocation of the grown array failed. *)
Record insert_more (m : env) (t : hash_table) (X : hash_table_entry)
    (r : bool) (t' : hash_table) (m' : env) : Prop := InsertMore {
  im_size :
    (r = true /\ max_size_shift t' = max_size_shift t /\
     count_occupied (buckets t') = S (count_occupied (buckets t))) \/
    max_size_shift t' <= Z.of_nat (count_occupied (buckets t'));
  im_fail : r = false ->
    exists mf b R p pc d,
      insert_loop (buckets t') (key X) (Z.to_nat (max_size_shift t')) X
        (Z.to_nat (fibonacci_hash (hash X) (max_size_shift t'))) 0 = Some (b, R, p, pc) /\
      hash_table_is_next_found t' pc = false /\
      hash_table_unwind_insertion_changes (set_buckets t' b) X R (p - 1)
        = Some (t', set_dist X d) /\
      hash_table_buckets_alloc (grown t') mf = (None, m') /\
      (alloc_failures m <= alloc_failures mf)%nat /\
      alloc_failures m' = S (alloc_failures mf) /\
      (alloc_failures mf = alloc_failures m ->
         (forall c, stored (buckets t) c <-> stored (buckets t') c) /\
         count_occupied (buckets t') = count_occupied (buckets t))
}.

Definition inserter_more (f : nat) (ins : inserter) : Prop :=
  forall m t X r t' m', (length (allocs m) < f)%nat ->
    table_inv t -> entry_ok X -> ptr_fresh (buckets t) (ptr X) ->
    key_absent (buckets t) (key X) ->
    ins m t X = Some (r, t', m') -> insert_more m t X r t' m'.

(** A table above the initial capacity holds at least [max_size_shift - 1]
    entries. *)
Definition filled (t : hash_table) : Prop :=
  max_size_shift t = HASH_TABLE_INITIAL_SHIFT \/ max_size_shift t <= curr_size t + 1.

(** The walk of [hash_table_insert] for [X] on [t] ends without a bucket
    for [X]: the probe count has reached [max_size_shift]. *)
Definition window_exhausted (t : hash_table) (X : hash_table_entry) : bool :=
  match insert_loop (buckets t) (key X) (Z.to_nat (max_size_shift t)) X
          (Z.to_nat (fibonacci_hash (hash X) (max_size_shift t))) 0 with
  | Some (b, _, _, probe_count) =>
      negb (hash_table_is_next_found (set_buckets t b) probe_count)
  | None => false
  end.

(** Between [m] and [m'] the allocator was called: it has handed out an
    allocation or refused one.  After the entry is built, the only call of
    the allocator in [hash_table_add] and [hash_table_remove] is the
    [calloc] of [hash_table_buckets_alloc] in [hash_table_resize]. *)
Definition asked (m m' : env) : Prop :=
  (length (allocs m') < length (allocs m))%nat \/
  (alloc_failures m < alloc_failures m')%nat.

(** ** Reachable states *)

(** The states of a table and of the allocator that the public operations
    reach from [hash_table_create].  [hash_table_get] and
    [hash_table_get_size] do not change the state. *)
Inductive reachable : env -> hash_table -> Prop :=
  | reach_create m t m' :
      hash_table_create m = (Some t, m') -> reachable m' t
  | reach_add m t k d r t' m' :
      reachable m t -> hash_table_add m t k d = Some (r, t', m') ->
      reachable m' t'
  | reach_remove m t k r t' m' :
      reachable m t -> hash_table_remove m t k = Some (r, t', m') ->
      reachable m' t'.

(** A run of additions, and a run of removals with their results. *)
Fixpoint add_all (m : env) (t : hash_table) (l : list (list Z * Z))
    : option (hash_table * env) :=
  match l with
  | [] => Some (t, m)
  | (k, d) :: l' =>
      match hash_table_add m t k d with
      | None => None
      | Some (_, t', m') => add_all m' t' l'
      end
  end.

Fixpoint remove_all (m : env) (t : hash_table) (l : list (list Z))
    : option (list bool * hash_table * env) :=
  match l with
  | [] => Some ([], t, m)
  | k :: l' =>
      match hash_table_remove m t k with
      | None => None
      | Some (r, t', m') =>
          match remove_all m' t' l' with
          | None => None
          | Some (rs, t'', m'') => Some (r :: rs, t'', m'')
          end
      end
  end.

(** ** The map that a table stands for *)

(** An association list from strings to payloads, read up to [strcmp]. *)
Fixpoint map_lookup (s : list (list Z * Z)) (k : list Z) : option Z :=
  match s with
  | [] => None
  | (k', d) :: s' => if strcmp k' k =? 0 then Some d else map_lookup s' k
  end.

Fixpoint map_remove (s : list (list Z * Z)) (k : list Z) : list (list Z * Z) :=
  match s with
  | [] => []
  | (k', d) :: s' =>
      if strcmp k' k =? 0 then map_remove s' k else (k', d) :: map_remove s' k
  end.

Definition map_add (s : list (list Z * Z)) (k : list Z) (d : Z) : list (list Z * Z) :=
  (k, d) :: map_remove s k.

Fixpoint map_wf (s : list (list Z * Z)) : Prop :=
  match s with
  | [] => True
  | (k, _) :: s' => map_lookup s' k = None /\ map_wf s'
  end.

(** The runs of the public operations from [hash_table_create], with the
    map that the calls that returned true build.  [f0] is the number of
    failed allocations before the table was created. *)
Inductive run (f0 : nat) : env -> hash_table -> list (list Z * Z) -> Prop :=
  | run_create m t m' :
      alloc_failures m = f0 -> hash_table_create m = (Some t, m') ->
      run f0 m' t []
  | run_add m t s k d r t' m' :
      run f0 m t s -> hash_table_add m t k d = Some (r, t', m') ->
      run f0 m' t' (if r then map_add s k d else s)
  | run_remove m t s k r t' m' :
      run f0 m t s -> hash_table_remove m t k = Some (r, t', m') ->
      run f0 m' t' (if r then map_remove s k else s).

(** The table holds the map [s]. *)
Definition holds (t : hash_table) (s : list (list Z * Z)) : Prop :=
  (forall k d, maps_to t k d <-> map_lookup s k = Some d) /\
  curr_size t = Z.of_nat (length s) /\ map_wf s.

(** ** Freeing a table *)

(** The loop of [hash_table_free_callback]: [n] buckets are left, from
    index [i] on.  The callback acts on a state of type [A]; a NULL callback
    is [None].  The array and the table themselves have no address in this
    model: only the entries that are freed are logged. *)
Fixpoint free_loop {A : Type} (cb : option (Z -> A -> A)) (b : bucket_array)
    (n : nat) (i : nat) (a : A) (m : env) : option (A * env) :=
  match n with
  | O => Some (a, m)
  | S n' =>
      match b !! i with
      | None => None
      | Some None => free_loop cb b n' (S i) a m
      | Some (Some entry) =>
          let a' := match cb with Some f => f (data entry) a | None => a end in
          free_loop cb b n' (S i) a' (hash_table_entry_free entry m)
      end
  end.

Definition hash_table_free_callback {A : Type} (cb : option (Z -> A -> A))
    (a : A) (m : env) (t : hash_table) : option (A * env) :=
  free_loop cb (buckets t) (buckets_len (max_size t) (max_size_shift t)) O a m.

Definition hash_table_free (m : env) (t : hash_table) : option env :=
  match hash_table_free_callback (A := unit) None tt m t with
  | None => None
  | Some (_, m') => Some m'
  end.

(** The entries of an array, in the order of the buckets. *)
Definition entries (b : bucket_array) : list hash_table_entry := omap id b.

(** ** Ownership of the entries *)

(** No entry has been freed twice, every freed address has been handed
    out, and no entry of the table has been freed. *)
Definition owned (m : env) (t : hash_table) : Prop :=
  NoDup (freed m) /\
  (forall p, p ∈ freed m -> p < next_ptr m) /\
  (forall c, stored (buckets t) c -> ptr c ∉ freed m).

(** The states that the public operations reach from the call of
    [hash_table_create] in the state [m0] of the allocator. *)
Inductive reachable_from (m0 : env) : env -> hash_table -> Prop :=
  | from_create t m' :
      hash_table_create m0 = (Some t, m') -> reachable_from m0 m' t
  | from_add m t k d r t' m' :
      reachable_from m0 m t -> hash_table_add m t k d = Some (r, t', m') ->
      reachable_from m0 m' t'
  | from_remove m t k r t' m' :
      reachable_from m0 m t -> hash_table_remove m t k = Some (r, t', m') ->
      reachable_from m0 m' t'.

(** ** Keys in memory *)

(** A key is passed as a [const char *]: [djb2_hash] reads each byte
    through plain [char] into an [int].  Where plain [char] is signed, a
    byte from 0x80 on is read as the byte minus 256. *)
Definition char_of_byte (char_signed : bool) (b : Z) : Z :=
  if char_signed && (128 <=? b) then b - 256 else b.

(** The values of the characters of the string whose bytes are [bytes]. *)
Definition c_string (char_signed : bool) (bytes : list Z) : list Z :=
  map (char_of_byte char_signed) bytes.

(** ** Runs of additions and removals on the map *)

Definition map_add_all (s : list (list Z * Z)) (l : list (list Z * Z))
    : list (list Z * Z) :=
  fold_left (fun s0 kd => map_add s0 kd.1 kd.2) l s.

Definition map_remove_all (s : list (list Z * Z)) (l : list (list Z))
    : list (list Z * Z) :=
  fold_left map_remove l s.

(** The results of the removals of the keys of [l], one after the other. *)
Fixpoint map_results (s : list (list Z * Z)) (l : list (list Z)) : list bool :=
  match l with
  | [] => []
  | k :: l' =>
      (match map_lookup s k with Some _ => true | None => false end)
        :: map_results (map_remove s k) l'
  end.

(** The strings of a list are pairwise different. *)
Fixpoint keys_differ (l : list (list Z)) : Prop :=
  match l with
  | [] => True
  | k :: l' => Forall (fun k' => strcmp k k' <> 0) l' /\ keys_differ l'
  end.

(** Two lists hold the same strings. *)
Definition same_keys (l1 l2 : list (list Z)) : Prop :=
  (forall k, k ∈ l1 -> exists k', k' ∈ l2 /\ strcmp k k' = 0) /\
  (forall k', k' ∈ l2 -> exists k, k ∈ l1 /\ strcmp k' k = 0).

(** ** The digest in the words of the specification *)

(** The bytes of a key before the zero sentinel. *)
Definition bytes_before_sentinel (s : list Z) : list Z := take (strlen s) s.

(** DJB2: the accumulator starts at 5381 and is updated to [h * 33 + c]
    modulo the word for each byte [c]. *)
Definition djb2_spec (s : list Z) : Z :=
  fold_left (fun h c => (h * 33 + c) mod 2 ^ word_bits) (bytes_before_sentinel s) 5381.

(** The Fibonacci constant of the word width. *)
Definition fibonacci_constant_spec : Z :=
  if word_bits =? 32 then 2654435769 else 11400714819323198485.

(** The home index: the digest times the constant, with unsigned
    wrap-around, shifted right by [word_bits - capacity_log2]. *)
Definition home_index_spec (s : list Z) (capacity_log2 : Z) : Z :=
  Z.shiftr ((djb2_spec s * fibonacci_constant_spec) mod 2 ^ word_bits)
           (word_bits - capacity_log2).

(** * Properties of the embedding *)

(** The code supports words of 32 and of 64 bits; the proofs only need that
    a pointer has at least two bytes and that a probe count fits a
    [uint8_t]. *)
Hypothesis word_bits_range : 16 <= word_bits <= 128.

(** ** Strings *)

Ltac zb :=
  repeat match goal with
  | H : (_ =? _) = true |- _ => apply Z.eqb_eq in H
  | H : (_ =? _) = false |- _ => apply Z.eqb_neq in H
  | H : (_ <? _) = true |- _ => apply Z.ltb_lt in H
  | H : (_ <? _) = false |- _ => apply Z.ltb_ge in H
  | H : (_ >? _) = true |- _ => rewrite Z.gtb_ltb in H; apply Z.ltb_lt in H
  | H : (_ >? _) = false |- _ => rewrite Z.gtb_ltb in H; apply Z.ltb_ge in H
  | H : (_ <=? _) = true |- _ => apply Z.leb_le in H
  | H : (_ <=? _) = false |- _ => apply Z.leb_gt in H
  end.

Lemma strcmp_refl (a : list Z) : strcmp a a = 0.
Proof.
  induction a as [|c a IH]; simpl; [reflexivity|].
  rewrite Z.eqb_refl. destruct (c =? 0); auto.
Qed.

Lemma strcmp_sym (a b : list Z) : strcmp a b = 0 -> strcmp b a = 0.
Proof.
  revert b. induction a as [|c a IH]; intros [|d b]; simpl; try lia.
  destruct (c =? d) eqn:E; zb.
  - subst d. rewrite Z.eqb_refl. destruct (c =? 0); auto.
  - lia.
Qed.

Ltac strcmp_cases :=
  repeat match goal with
  | |- context [?x =? ?y] => destruct (x =? y) eqn:?; zb; subst; try lia
  | H : context [?x =? ?y] |- _ => destruct (x =? y) eqn:?; zb; subst; try lia
  end.

Lemma strcmp_trans (a b c : list Z) :
  strcmp a b = 0 -> strcmp b c = 0 -> strcmp a c = 0.
Proof.
  revert b c. induction a as [|x a IH]; intros [|y b] [|z c]; simpl;
    intros H1 H2; strcmp_cases; eauto.
Qed.

Lemma djb2_loop_strcmp (a b : list Z) (h : Z) :
  strcmp a b = 0 -> djb2_loop a h = djb2_loop b h.
Proof.
  revert b h. induction a as [|x a IH]; intros [|y b] h; simpl;
    intros H; strcmp_cases; eauto.
Qed.

Lemma djb2_hash_strcmp (a b : list Z) :
  strcmp a b = 0 -> djb2_hash a = djb2_hash b.
Proof. apply djb2_loop_strcmp. Qed.

Lemma strcmp_strncpy (k : list Z) : strcmp (strncpy k (S (strlen k))) k = 0.
Proof.
  induction k as [|c k IH]; [reflexivity|].
  cbn [strlen]. destruct (c =? 0) eqn:E.
  - cbn [strncpy strcmp]. rewrite E. zb. subst c. reflexivity.
  - change (strncpy (c :: k) (S (S (strlen k))))
      with (if c =? 0 then 0 :: strncpy [] (S (strlen k))
            else c :: strncpy k (S (strlen k))).
    rewrite E. cbn [strcmp]. rewrite Z.eqb_refl, E. exact IH.
Qed.

(** ** Machine arithmetic *)

Lemma sizeof_ptr_pos : 2 <= sizeof_ptr.
Proof. unfold sizeof_ptr. apply Z.div_le_lower_bound; lia. Qed.

Lemma to_size_t_small (x : Z) : 0 <= x <= SIZE_MAX -> to_size_t x = x.
Proof. unfold to_size_t, SIZE_MAX. intros H. apply Z.mod_small. lia. Qed.

Lemma to_uint8_small (x : Z) : 0 <= x < 256 -> to_uint8 x = x.
Proof. unfold to_uint8. intros H. apply Z.mod_small. lia. Qed.

Lemma fibonacci_hash_range (h bits : Z) :
  0 <= bits <= word_bits -> 0 <= fibonacci_hash h bits < 2 ^ bits.
Proof.
  intros Hb. unfold fibonacci_hash, to_size_t. cbv zeta.
  set (x := (h * FIBONACCI_MULTIPLIER) mod 2 ^ word_bits).
  assert (Hx : 0 <= x < 2 ^ word_bits) by (apply Z.mod_pos_bound; lia).
  rewrite Z.shiftr_div_pow2 by lia.
  assert (Hp : 0 < 2 ^ (word_bits - bits)) by (apply Z.pow_pos_nonneg; lia).
  split; [apply Z.div_pos; lia|].
  apply Z.div_lt_upper_bound; [lia|].
  rewrite <- Z.pow_add_r by lia.
  replace (word_bits - bits + bits) with word_bits by lia. lia.
Qed.

Section Invariant.

Variable t : hash_table.
Hypothesis Hinv : table_inv t.

Lemma inv_shift_lt_word : max_size_shift t < word_bits.
Proof.
  destruct Hinv as [Hs Hsz Hfit _ _ _ _ _ _]. unfold HASH_TABLE_INITIAL_SHIFT in Hs.
  pose proof sizeof_ptr_pos as Hp. unfold SIZE_MAX in Hfit. rewrite Hsz in Hfit.
  assert (2 ^ max_size_shift t < 2 ^ word_bits) by nia.
  apply (Z.pow_lt_mono_r_iff 2); lia.
Qed.

Lemma inv_shift_range : 4 <= max_size_shift t < 128.
Proof.
  pose proof inv_shift_lt_word. pose proof (inv_shift _ Hinv) as Hs.
  unfold HASH_TABLE_INITIAL_SHIFT in Hs. lia.
Qed.

Lemma inv_length_Z :
  Z.of_nat (length (buckets t)) = 2 ^ max_size_shift t + max_size_shift t.
Proof.
  rewrite (inv_length _ Hinv), (inv_size _ Hinv).
  pose proof inv_shift_range.
  assert (0 < 2 ^ max_size_shift t) by (apply Z.pow_pos_nonneg; lia). lia.
Qed.

Lemma inv_home_lt (h : Z) :
  0 <= fibonacci_hash h (max_size_shift t) < 2 ^ max_size_shift t.
Proof.
  apply fibonacci_hash_range. pose proof inv_shift_range.
  pose proof inv_shift_lt_word. lia.
Qed.

End Invariant.

(** ** The probe walk of lookup and removal *)

Lemma rh_chain (shift : Z) (b : bucket_array) :
  wf_slots shift b -> rh_order b ->
  forall (d i : nat) e, b !! i = Some (Some e) ->
    Z.of_nat d <= dist_from_des e ->
    exists e', b !! (i - d)%nat = Some (Some e') /\
               dist_from_des e - Z.of_nat d <= dist_from_des e'.
Proof.
  intros Hwf Hord. induction d as [|d IH]; intros i e He Hd.
  - exists e. rewrite Nat.sub_0_r. split; [assumption|lia].
  - destruct (IH i e He) as (e1 & He1 & Hd1); [lia|].
    destruct (Hwf _ _ He1) as (Hh1 & _ & _).
    assert (Hi : (i - d)%nat = S (i - S d)) by lia.
    rewrite Hi in He1. destruct (Hord _ _ He1) as [H0|(e' & He' & Hd')]; [lia|].
    exists e'. split; [assumption|lia].
Qed.

Lemma iterate_to_next_spec (b : bucket_array) (k : list Z) (n : nat) :
  forall (p : nat) (pc : Z), (p + n <= length b)%nat ->
  exists p' pc', iterate_to_next b k n p pc = Some (p', pc') /\
    (p <= p')%nat /\ (p' - p <= n)%nat /\ pc' = pc + Z.of_nat (p' - p) /\
    (forall j, (p <= j < p')%nat ->
       exists e, b !! j = Some (Some e) /\ strcmp (key e) k <> 0) /\
    ((p' - p < n)%nat ->
       b !! p' = Some None \/
       exists e, b !! p' = Some (Some e) /\ strcmp (key e) k = 0).
Proof.
  induction n as [|n IH]; intros p pc Hlen; cbn [iterate_to_next].
  - exists p, pc. split_and!; try done; try lia; try (intros j Hj; lia).
  - destruct (b !! p) as [[current|]|] eqn:Hp.
    + destruct (strcmp (key current) k =? 0) eqn:Hk; zb.
      * exists p, pc. split_and!; try done; try lia; try (intros j Hj; lia).
        intros _. right. eauto.
      * destruct (IH (S p) (pc + 1)) as (p' & pc' & Hit & Hle & Hn & Hpc & Hocc & Hend); [lia|].
        exists p', pc'. split_and!; try done; try lia.
        -- intros j Hj. destruct (decide (j = p)) as [->|Hne]; [eauto|].
           apply Hocc. lia.
        -- intros Hlt. apply Hend. lia.
    + exists p, pc. split_and!; try done; try lia; try (intros j Hj; lia).
      intros _. left. assumption.
    + apply lookup_ge_None in Hp. lia.
Qed.

Lemma iterate_to_next_found (shift : Z) (b : bucket_array) (k : list Z)
    (n p i : nat) (pc : Z) (e : hash_table_entry) :
  wf_slots shift b -> rh_order b -> keys_distinct b ->
  b !! i = Some (Some e) -> strcmp (key e) k = 0 ->
  (home shift e <= p <= i)%nat -> (i - p < n)%nat -> (p + n <= length b)%nat ->
  iterate_to_next b k n p pc = Some (i, pc + Z.of_nat (i - p)).
Proof.
  intros Hwf Hord Hkeys He Hk Hp Hn Hlen.
  destruct (iterate_to_next_spec b k n p pc Hlen)
    as (p' & pc' & Hit & Hle & Hn' & Hpc & Hocc & Hend).
  destruct (Hwf _ _ He) as (Hh & Hd & _).
  assert (Hle' : (p' <= i)%nat).
  { destruct (decide (p' <= i)%nat) as [|Hgt]; [assumption|].
    destruct (Hocc i) as (e' & He' & Hk'); [lia|]. congruence. }
  destruct (decide (p' = i)) as [->|Hne]; [rewrite Hit, Hpc; reflexivity|].
  exfalso.
  destruct (rh_chain shift b Hwf Hord (i - p')%nat i e He) as (e1 & He1 & _); [lia|].
  replace (i - (i - p'))%nat with p' in He1 by lia.
  destruct Hend as [Hnone|(e2 & He2 & Hk2)]; [lia|congruence|].
  apply Hne. apply (Hkeys _ _ _ _ He2 He).
  apply strcmp_trans with k; [assumption|]. apply strcmp_sym. assumption.
Qed.

Section Lookup.

Variable t : hash_table.
Hypothesis Hinv : table_inv t.

Lemma get_position_bound (k : list Z) :
  (Z.to_nat (hash_table_get_position t k) + Z.to_nat (max_size_shift t)
   <= length (buckets t))%nat.
Proof.
  pose proof (inv_length_Z t Hinv). pose proof (inv_shift_range t Hinv).
  pose proof (inv_home_lt t Hinv (djb2_hash k)). unfold hash_table_get_position. lia.
Qed.

Lemma hash_table_get_present (k : list Z) (i : nat) (e : hash_table_entry) :
  buckets t !! i = Some (Some e) -> strcmp (key e) k = 0 ->
  hash_table_get t k = Some (data e).
Proof.
  intros He Hk. destruct Hinv as [Hs Hsz Hfit Hlen Hwf Hord Hkeys Hptrs Hcnt].
  destruct (Hwf _ _ He) as (Hh & Hd & Hhash).
  pose proof (get_position_bound k) as Hb.
  assert (Hpos : Z.to_nat (hash_table_get_position t k) = home (max_size_shift t) e).
  { unfold hash_table_get_position, home. rewrite Hhash.
    rewrite (djb2_hash_strcmp _ _ Hk). reflexivity. }
  unfold hash_table_get. cbv zeta.
  rewrite (iterate_to_next_found (max_size_shift t) (buckets t) k _ _ i 0 e);
    try assumption; try lia.
  unfold hash_table_is_next_found.
  destruct (_ <? _) eqn:Hlt; zb; [|lia]. cbn [negb]. rewrite He. reflexivity.
Qed.

Lemma hash_table_get_absent (k : list Z) :
  absent t k -> hash_table_get t k = Some NULL.
Proof.
  intros Habs. pose proof (get_position_bound k) as Hb.
  unfold hash_table_get. cbv zeta.
  destruct (iterate_to_next_spec (buckets t) k (Z.to_nat (max_size_shift t))
              (Z.to_nat (hash_table_get_position t k)) 0 Hb)
    as (p' & pc' & Hit & Hle & Hn & Hpc & Hocc & Hend).
  rewrite Hit. unfold hash_table_is_next_found.
  pose proof (inv_shift_range t Hinv).
  destruct (pc' <? max_size_shift t) eqn:Hlt; zb; cbn [negb]; [|reflexivity].
  destruct Hend as [Hnone|(e & He & Hk)]; [lia|rewrite Hnone; reflexivity|].
  exfalso. exact (Habs _ _ He Hk).
Qed.

End Lookup.

(** ** Counting occupied buckets *)

Lemma count_occupied_le (b : bucket_array) : (count_occupied b <= length b)%nat.
Proof. induction b as [|[e|] b IH]; simpl; lia. Qed.

Lemma count_occupied_replicate (n : nat) :
  count_occupied (replicate n None) = O.
Proof. induction n as [|n IH]; simpl; auto. Qed.

Lemma count_occupied_insert_same (b : bucket_array) (i : nat) (e e' : hash_table_entry) :
  b !! i = Some (Some e) -> count_occupied (<[i := Some e']> b) = count_occupied b.
Proof.
  revert i. induction b as [|x b IH]; intros [|i] H; simplify_eq/=; try done.
  destruct x; simpl; erewrite IH by eassumption; reflexivity.
Qed.

Lemma count_occupied_insert_new (b : bucket_array) (i : nat) (e' : hash_table_entry) :
  b !! i = Some None -> count_occupied (<[i := Some e']> b) = S (count_occupied b).
Proof.
  revert i. induction b as [|x b IH]; intros [|i] H; simplify_eq/=; try done.
  destruct x; simpl; erewrite IH by eassumption; reflexivity.
Qed.

Lemma count_occupied_delete (b : bucket_array) (i : nat) (e : hash_table_entry) :
  b !! i = Some (Some e) -> S (count_occupied (<[i := None]> b)) = count_occupied b.
Proof.
  revert i. induction b as [|x b IH]; intros [|i] H; simplify_eq/=; try done.
  destruct x; simpl; erewrite IH by eassumption; reflexivity.
Qed.

Lemma count_occupied_insert_none (b : bucket_array) (i : nat) :
  b !! i = Some None -> count_occupied (<[i := None]> b) = count_occupied b.
Proof.
  revert i. induction b as [|x b IH]; intros [|i] H; simplify_eq/=; try done.
  destruct x; simpl; erewrite IH by eassumption; reflexivity.
Qed.

(** ** Reading an updated array *)

Lemma lookup_insert_Some_inv (b : bucket_array) (i j : nat) (x y : option hash_table_entry) :
  <[i := x]> b !! j = Some y ->
  (j = i /\ y = x /\ (i < length b)%nat) \/ (j <> i /\ b !! j = Some y).
Proof.
  intros H. destruct (decide (j = i)) as [->|Hne].
  - left. assert (Hi : (i < length b)%nat).
    { apply lookup_lt_Some in H. rewrite length_insert in H. exact H. }
    rewrite list_lookup_insert_eq in H by exact Hi. split; [done|]. split; congruence.
  - right. rewrite list_lookup_insert_ne in H by congruence. auto.
Qed.

(** ** The loop of [hash_table_insert] *)

Ltac ins H :=
  let Hne := fresh "Hne" in
  let Hj := fresh "Hj" in
  let Heq := fresh "Heq" in
  let Hlt := fresh "Hlt" in
  apply lookup_insert_Some_inv in H as [(Hj & Heq & Hlt)|(Hne & H)];
  [try (injection Heq as <-); try discriminate Heq;
   match type of Hj with ?a = ?b => first [subst a | subst b | idtac] end|].

Lemma set_dist_fields (e : hash_table_entry) (d : Z) :
  ptr (set_dist e d) = ptr e /\ key (set_dist e d) = key e /\
  hash (set_dist e d) = hash e /\ data (set_dist e d) = data e /\
  dist_from_des (set_dist e d) = d.
Proof. destruct e; repeat split. Qed.

Lemma home_set_dist (shift : Z) (e : hash_table_entry) (d : Z) :
  home shift (set_dist e d) = home shift e.
Proof. reflexivity. Qed.

Lemma set_dist_id (e : hash_table_entry) : set_dist e (dist_from_des e) = e.
Proof. destruct e; reflexivity. Qed.

Section Walk.

Variables (shift : Z) (xkey : list Z) (xptr : Z).

Lemma insert_step_inv (b : bucket_array) (R C : hash_table_entry)
    (p : nat) (pc : Z) (n : nat) :
  walk_inv shift xkey xptr b R p pc (S n) -> b !! p = Some (Some C) ->
  walk_inv shift xkey xptr (insert_step b R C p).1 (insert_step b R C p).2
    (S p) (pc + 1) n.
Proof.
  intros [Hwf Hord Hkeys Hptrs Hrkey Hrptr Hhome Hdist Hhash Hcarry Hsuf Hphase Hrem Hsh Hlen] HC.
  destruct (Hwf _ _ HC) as (HhC & HdC & HhashC).
  destruct (Hsuf p C (le_n _) HC) as (HkC & HpC).
  assert (HordC : forall c', b !! S p = Some (Some c') ->
                   dist_from_des c' <= dist_from_des C + 1).
  { intros c' Hc'. destruct (Hord _ _ Hc') as [H0|(e' & He' & Hd')]; [lia|].
    rewrite HC in He'. injection He' as <-. exact Hd'. }
  unfold insert_step, hash_table_should_replace_entry.
  destruct (dist_from_des R >? dist_from_des C) eqn:Hcmp; zb; cbn [fst snd].
  - (* the carried entry takes the bucket *)
    rewrite (to_uint8_small (dist_from_des C + 1)) by lia.
    destruct (set_dist_fields C (dist_from_des C + 1)) as (Ep & Ek & Eh & Ed & Edist).
    split; rewrite ?home_set_dist, ?Ep, ?Ek, ?Eh, ?Edist.
    + intros i e He. ins He; [|eauto]. split; [assumption|]. split; [lia|assumption].
    + intros i e He. ins He.
      * (* the bucket [p] itself *)
        destruct Hcarry as [H0|(e' & He' & Hd')]; [left; exact H0|right].
        exists e'. split; [|exact Hd'].
        rewrite list_lookup_insert_ne by lia.
        replace (S i - 1)%nat with i in He' by lia. exact He'.
      * destruct (decide (i = p)) as [->|Hip].
        -- right. exists R. split; [apply list_lookup_insert_eq; eapply lookup_lt_Some; eassumption|].
           specialize (HordC _ He). lia.
        -- destruct (Hord _ _ He) as [H0|(e' & He' & Hd')]; [left; exact H0|right].
           exists e'. split; [|exact Hd']. rewrite list_lookup_insert_ne by lia. exact He'.
    + intros i j ei ej Hi Hj Hk. ins Hi; ins Hj; try reflexivity.
      * exfalso. apply (Hrkey _ _ Hj). apply strcmp_sym. exact Hk.
      * exfalso. exact (Hrkey _ _ Hi Hk).
      * eauto.
    + intros i j ei ej Hi Hj Hk. ins Hi; ins Hj; try reflexivity.
      * exfalso. apply (Hrptr _ _ Hj). congruence.
      * exfalso. exact (Hrptr _ _ Hi Hk).
      * eauto.
    + intros i e He Hk. ins He.
      * apply (Hrkey _ _ HC). apply strcmp_sym. exact Hk.
      * apply Hne. exact (Hkeys _ _ _ _ He HC Hk).
    + intros i e He Hk. ins He.
      * apply (Hrptr _ _ HC). congruence.
      * apply Hne. exact (Hptrs _ _ _ _ He HC Hk).
    + lia.
    + lia.
    + exact HhashC.
    + right. exists R. replace (S p - 1)%nat with p by lia.
      split; [apply list_lookup_insert_eq; eapply lookup_lt_Some; eassumption|lia].
    + intros j e Hj He. rewrite list_lookup_insert_ne in He by lia.
      apply (Hsuf j e); [lia|exact He].
    + right. split; [exact HpC|]. intros c Hc.
      rewrite list_lookup_insert_ne in Hc by lia. exact (HordC _ Hc).
    + lia.
    + exact Hsh.
    + rewrite length_insert. lia.
  - (* the carried entry moves on *)
    rewrite (to_uint8_small (dist_from_des R + 1)) by lia.
    destruct (set_dist_fields R (dist_from_des R + 1)) as (Ep & Ek & Eh & Ed & Edist).
    split; rewrite ?home_set_dist, ?Ep, ?Ek, ?Eh, ?Edist; try assumption; try lia.
    + right. exists C. replace (S p - 1)%nat with p by lia. split; [exact HC|lia].
    + intros j e Hj He. apply (Hsuf j e); [lia|exact He].
    + destruct Hphase as [(Hx & Hd)|(Hx & HK)]; [left; split; [exact Hx|lia]|right].
      split; [exact Hx|]. intros c Hc. specialize (HK _ HC). specialize (HordC _ Hc). lia.
Qed.

Lemma insert_step_length (b : bucket_array) (R C : hash_table_entry) (p : nat) :
  length (insert_step b R C p).1 = length b.
Proof.
  unfold insert_step. destruct (hash_table_should_replace_entry R C); cbn [fst];
    [apply length_insert|reflexivity].
Qed.

Lemma insert_step_count (b : bucket_array) (R C : hash_table_entry) (p : nat) :
  b !! p = Some (Some C) ->
  count_occupied (insert_step b R C p).1 = count_occupied b.
Proof.
  intros HC. unfold insert_step. destruct (hash_table_should_replace_entry R C); cbn [fst];
    [eapply count_occupied_insert_same; eassumption|reflexivity].
Qed.

Lemma insert_step_stored (b : bucket_array) (R C : hash_table_entry) (p : nat) :
  b !! p = Some (Some C) ->
  forall c, stored (insert_step b R C p).1 c \/ core (insert_step b R C p).2 = c <->
            stored b c \/ core R = c.
Proof.
  intros HC c. unfold insert_step.
  destruct (hash_table_should_replace_entry R C); cbn [fst snd]; unfold core, stored;
    [|reflexivity].
  change (set_dist (set_dist C (to_uint8 (dist_from_des C + 1))) 0) with (set_dist C 0).
  split.
  - intros [(i & e & He & Hc)|Hc].
    + ins He; [right; exact Hc|left; eauto].
    + left. eauto.
  - intros [(i & e & He & Hc)|Hc].
    + destruct (decide (i = p)) as [->|Hne].
      * right. unfold core in Hc. congruence.
      * left. exists i, e. rewrite list_lookup_insert_ne by congruence. auto.
    + left. exists p, R. split; [|exact Hc].
      apply list_lookup_insert_eq. eapply lookup_lt_Some. eassumption.
Qed.

Lemma insert_loop_fresh (n : nat) :
  forall (b : bucket_array) (R : hash_table_entry) (p : nat) (pc : Z),
  walk_inv shift xkey xptr b R p pc n ->
  exists bf Rf pf pcf nf,
    insert_loop b xkey n R p pc = Some (bf, Rf, pf, pcf) /\
    walk_inv shift xkey xptr bf Rf pf pcf nf /\
    (nf = O \/ bf !! pf = Some None) /\
    length bf = length b /\
    count_occupied bf = count_occupied b /\
    (forall c, stored bf c \/ core Rf = c <-> stored b c \/ core R = c) /\
    (pf + nf = p + n)%nat.
Proof.
  induction n as [|n IH]; intros b R p pc Hw; cbn [insert_loop].
  - exists b, R, p, pc, O. split_and!; auto.
  - destruct (b !! p) as [[C|]|] eqn:HC.
    + destruct (w_suffix _ _ _ _ _ _ _ _ Hw p C (le_n _) HC) as (Hk & _).
      rewrite (proj2 (Z.eqb_neq _ _) Hk).
      pose proof (insert_step_inv b R C p pc n Hw HC) as Hw1.
      pose proof (insert_step_length b R C p) as Hl1.
      pose proof (insert_step_count b R C p HC) as Hc1.
      pose proof (insert_step_stored b R C p HC) as Hs1.
      destruct (insert_step b R C p) as [b1 R1]. cbn [fst snd] in *.
      destruct (IH b1 R1 (S p) (pc + 1) Hw1)
        as (bf & Rf & pf & pcf & nf & Hloop & Hwf & Hend & Hlen & Hcnt & Hst & Hpos).
      exists bf, Rf, pf, pcf, nf. split_and!; auto; try congruence; try lia.
      intros c. rewrite Hst. apply Hs1.
    + exists b, R, p, pc, (S n). split_and!; auto.
    + apply lookup_ge_None in HC. pose proof (w_len _ _ _ _ _ _ _ _ Hw). lia.
Qed.

(** *** Undoing the loop *)

(** One iteration of the unwind undoes one iteration of the insertion.  The
    comparison of the unwind is the one of the insertion only when the
    carried entry was not closer to its home than the occupant: this holds
    once the inserted entry has been placed, and in the last probe. *)
Lemma unwind_step_insert_step (b : bucket_array) (R C : hash_table_entry)
    (p : nat) (pc : Z) (n : nat) :
  walk_inv shift xkey xptr b R p pc (S n) -> b !! p = Some (Some C) ->
  ptr R <> xptr \/ dist_from_des R > dist_from_des C \/ n = O ->
  exists cur, (insert_step b R C p).1 !! p = Some (Some cur) /\
    unwind_step (insert_step b R C p).1 (insert_step b R C p).2 cur p = (b, R).
Proof.
  intros Hw HC Hcase.
  destruct (w_wf _ _ _ _ _ _ _ _ Hw _ _ HC) as (HhC & HdC & HhashC).
  pose proof (w_dist _ _ _ _ _ _ _ _ Hw) as Hdist.
  pose proof (w_rem _ _ _ _ _ _ _ _ Hw) as Hrem.
  pose proof (w_shift _ _ _ _ _ _ _ _ Hw) as Hsh.
  unfold insert_step, unwind_step, hash_table_should_replace_entry.
  destruct (dist_from_des R >? dist_from_des C) eqn:Hcmp; zb; cbn [fst snd].
  - exists R. split; [apply list_lookup_insert_eq; eapply lookup_lt_Some; eassumption|].
    destruct (set_dist_fields C (to_uint8 (dist_from_des C + 1))) as (_ & _ & _ & _ & ->).
    rewrite (to_uint8_small (dist_from_des C + 1)) by lia.
    replace (dist_from_des C + 1 - 1) with (dist_from_des C) by lia.
    rewrite (to_uint8_small (dist_from_des C)) by lia.
    change (set_dist (set_dist C (dist_from_des C + 1)) (dist_from_des C))
      with (set_dist C (dist_from_des C)).
    rewrite set_dist_id.
    rewrite (proj2 (Z.gtb_lt _ _)) by lia.
    rewrite list_insert_insert_eq, list_insert_id by assumption. reflexivity.
  - exists C. split; [assumption|].
    destruct (set_dist_fields R (to_uint8 (dist_from_des R + 1))) as (_ & _ & _ & _ & ->).
    rewrite (to_uint8_small (dist_from_des R + 1)) by lia.
    replace (dist_from_des R + 1 - 1) with (dist_from_des R) by lia.
    rewrite (to_uint8_small (dist_from_des R)) by lia.
    change (set_dist (set_dist R (dist_from_des R + 1)) (dist_from_des R))
      with (set_dist R (dist_from_des R)).
    rewrite set_dist_id.
    assert (Hle : dist_from_des C <= dist_from_des R).
    { destruct (w_phase _ _ _ _ _ _ _ _ Hw) as [(Hx & Hd)|(Hx & HK)]; [|exact (HK _ HC)].
      destruct Hcase as [Hcase|[Hcase|Hcase]]; [congruence|lia|]. subst n. lia. }
    destruct (dist_from_des C >? dist_from_des R) eqn:Hcmp'; zb; [lia|reflexivity].
Qed.

(** Where the unwind resumes below [p] with [R] in hand. *)
Definition unwind_resume (b : bucket_array) (R : hash_table_entry) (p : nat)
    : option (bucket_array * hash_table_entry) :=
  match p with
  | O => Some (b, R)
  | S p' => unwind_loop b xptr R p'
  end.

Lemma unwind_loop_insert_loop (n : nat) :
  forall (b : bucket_array) (R : hash_table_entry) (p : nat) (pc : Z)
         bf Rf pf pcf,
  walk_inv shift xkey xptr b R p pc (S n) ->
  insert_loop b xkey (S n) R p pc = Some (bf, Rf, pf, pcf) ->
  pcf = shift ->
  (ptr R = xptr ->
     exists d, unwind_loop bf xptr Rf (pf - 1) = Some (b, set_dist R d)) /\
  (ptr R <> xptr ->
     unwind_loop bf xptr Rf (pf - 1) = unwind_resume b R p).
Proof.
  induction n as [|n IH]; intros b R p pc bf Rf pf pcf Hw Hloop Hex.
  - (* the last probe *)
    cbn [insert_loop] in Hloop.
    pose proof (w_rem _ _ _ _ _ _ _ _ Hw) as Hrem.
    destruct (b !! p) as [[C|]|] eqn:HC; [|injection Hloop as _ _ _ Hpc; lia|discriminate].
    destruct (strcmp (key C) xkey =? 0); [injection Hloop as _ _ _ Hpc; lia|].
    destruct (unwind_step_insert_step b R C p pc O Hw HC) as (cur & Hcur & Hback); [auto|].
    destruct (insert_step b R C p) as [b1 R1]. cbn [fst snd] in *.
    cbn [insert_loop] in Hloop. injection Hloop as <- <- <- _.
    replace (S p - 1)%nat with p by lia.
    assert (Hun : unwind_loop b1 xptr R1 p =
                  if ptr R =? xptr then Some (b, R) else unwind_resume b R p).
    { destruct p; cbn [unwind_loop]; rewrite Hcur, Hback; reflexivity. }
    rewrite Hun. split; intros Hx.
    + exists (dist_from_des R). rewrite set_dist_id.
      rewrite (proj2 (Z.eqb_eq _ _) Hx). reflexivity.
    + rewrite (proj2 (Z.eqb_neq _ _) Hx). reflexivity.
  - cbn [insert_loop] in Hloop.
    pose proof (w_rem _ _ _ _ _ _ _ _ Hw) as Hrem.
    destruct (b !! p) as [[C|]|] eqn:HC; [|injection Hloop as _ _ _ Hpc; lia|discriminate].
    destruct (strcmp (key C) xkey =? 0); [injection Hloop as _ _ _ Hpc; lia|].
    pose proof (insert_step_inv b R C p pc (S n) Hw HC) as Hw1.
    pose proof (unwind_step_insert_step b R C p pc (S n) Hw HC) as Hback.
    assert (Hptr1 : ptr (insert_step b R C p).2 = xptr ->
                    ptr R = xptr /\ exists d, insert_step b R C p = (b, set_dist R d)).
    { unfold insert_step, hash_table_should_replace_entry.
      destruct (dist_from_des R >? dist_from_des C); cbn [fst snd].
      - intros Hx. destruct (w_suffix _ _ _ _ _ _ _ _ Hw p C (le_n _) HC) as (_ & Hne).
        exfalso. apply Hne. exact Hx.
      - intros Hx. split; [exact Hx|]. eexists. reflexivity. }
    assert (Hswap : ptr (insert_step b R C p).2 <> xptr ->
                    ptr R <> xptr \/ dist_from_des R > dist_from_des C \/ S n = O).
    { unfold insert_step, hash_table_should_replace_entry.
      destruct (dist_from_des R >? dist_from_des C) eqn:Hcmp; zb; cbn [fst snd].
      - intros _. right. left. lia.
      - intros Hx. left. exact Hx. }
    destruct (insert_step b R C p) as [b1 R1]. cbn [fst snd] in *.
    destruct (IH b1 R1 (S p) (pc + 1) bf Rf pf pcf Hw1 Hloop Hex) as (IHa & IHb).
    destruct (decide (ptr R1 = xptr)) as [Hx1|Hx1].
    + destruct (Hptr1 Hx1) as (Hx & d & Heq). injection Heq as -> ->.
      split; [|congruence]. intros _.
      destruct (IHa Hx1) as (d' & Hun). exists d'. exact Hun.
    + destruct (Hback (Hswap Hx1)) as (cur & Hcur & Hb).
      assert (Hun : unwind_loop bf xptr Rf (pf - 1) =
                    if ptr R =? xptr then Some (b, R) else unwind_resume b R p).
      { rewrite (IHb Hx1). cbn [unwind_resume].
        destruct p; cbn [unwind_loop]; rewrite Hcur, Hb; reflexivity. }
      rewrite Hun. split; intros Hx.
      * exists (dist_from_des R). rewrite set_dist_id.
        rewrite (proj2 (Z.eqb_eq _ _) Hx). reflexivity.
      * rewrite (proj2 (Z.eqb_neq _ _) Hx). reflexivity.
Qed.

(** *** Placing the carried entry *)

Lemma place_empty (b : bucket_array) (R : hash_table_entry) (p : nat) (pc : Z) (n : nat) :
  walk_inv shift xkey xptr b R p pc (S n) -> b !! p = Some None ->
  let b' := <[p := Some R]> b in
  wf_slots shift b' /\ rh_order b' /\ keys_distinct b' /\ ptrs_distinct b' /\
  count_occupied b' = S (count_occupied b) /\
  (forall c, stored b' c <-> stored b c \/ core R = c).
Proof.
  intros [Hwf Hord Hkeys Hptrs Hrkey Hrptr Hhome Hdist Hhash Hcarry Hsuf Hphase Hrem Hsh Hlen] Hp b'.
  subst b'. split_and!.
  - intros i e He. ins He; [|eauto]. split; [assumption|]. split; [lia|assumption].
  - intros i e He. ins He.
    + destruct Hcarry as [H0|(e' & He' & Hd')]; [left; exact H0|right].
      exists e'. split; [|exact Hd'].
      rewrite list_lookup_insert_ne by lia.
      replace (S i - 1)%nat with i in He' by lia. exact He'.
    + destruct (Hord _ _ He) as [H0|(e' & He' & Hd')]; [left; exact H0|right].
      exists e'. split; [|exact Hd'].
      destruct (decide (i = p)) as [->|Hip]; [congruence|].
      rewrite list_lookup_insert_ne by lia. exact He'.
  - intros i j ei ej Hi Hj Hk. ins Hi; ins Hj; try reflexivity.
    + exfalso. apply (Hrkey _ _ Hj). apply strcmp_sym. exact Hk.
    + exfalso. exact (Hrkey _ _ Hi Hk).
    + eauto.
  - intros i j ei ej Hi Hj Hk. ins Hi; ins Hj; try reflexivity.
    + exfalso. apply (Hrptr _ _ Hj). congruence.
    + exfalso. exact (Hrptr _ _ Hi Hk).
    + eauto.
  - apply count_occupied_insert_new. exact Hp.
  - intros c. unfold stored. split.
    + intros (i & e & He & Hc). ins He; [right; exact Hc|left; eauto].
    + intros [(i & e & He & Hc)|Hc].
      * exists i, e. split; [|exact Hc].
        destruct (decide (i = p)) as [->|Hip]; [congruence|].
        rewrite list_lookup_insert_ne by lia. exact He.
      * exists p, R. split; [|exact Hc].
        apply list_lookup_insert_eq. eapply lookup_lt_Some. eassumption.
Qed.

End Walk.

(** *** Replacing the entry of a key that is present *)

Lemma insert_loop_present (shift : Z) (b : bucket_array) (k : list Z)
    (K : hash_table_entry) (iK : nat) :
  wf_slots shift b -> rh_order b -> keys_distinct b -> shift < 128 ->
  b !! iK = Some (Some K) -> strcmp (key K) k = 0 ->
  forall (m n p : nat) (pc : Z) (R : hash_table_entry),
    (iK - p)%nat = m -> (home shift K <= p <= iK)%nat ->
    Z.of_nat (home shift K) + dist_from_des R = Z.of_nat p ->
    (iK - p < n)%nat ->
    insert_loop b k n R p pc =
      Some (b, set_dist R (dist_from_des K), iK, pc + Z.of_nat (iK - p)).
Proof.
  intros Hwf Hord Hkeys Hsh HK Hk.
  destruct (Hwf _ _ HK) as (HhK & HdK & _).
  induction m as [|m IH]; intros n p pc R Hm Hp HR Hn.
  - assert (p = iK) by lia. subst p. destruct n as [|n]; [lia|].
    cbn [insert_loop]. rewrite HK, (proj2 (Z.eqb_eq _ _) Hk).
    replace (dist_from_des K) with (dist_from_des R) by lia. rewrite set_dist_id.
    replace (iK - iK)%nat with O by lia. rewrite Z.add_0_r. reflexivity.
  - destruct n as [|n]; [lia|]. cbn [insert_loop].
    destruct (rh_chain shift b Hwf Hord (iK - p)%nat iK K HK) as (C & HC & HdC); [lia|].
    replace (iK - (iK - p))%nat with p in HC by lia. rewrite HC.
    destruct (strcmp (key C) k =? 0) eqn:HkC; zb.
    + exfalso. assert (p = iK); [|lia]. apply (Hkeys _ _ _ _ HC HK).
      apply strcmp_trans with k; [assumption|]. apply strcmp_sym. assumption.
    + destruct (Hwf _ _ HC) as (_ & HdC' & _).
      unfold insert_step, hash_table_should_replace_entry.
      destruct (dist_from_des R >? dist_from_des C) eqn:Hcmp; zb; [lia|].
      rewrite (to_uint8_small (dist_from_des R + 1)) by lia.
      rewrite (IH n (S p) (pc + 1)); [|lia|lia|cbn; lia|lia].
      change (set_dist (set_dist R (dist_from_des R + 1)) (dist_from_des K))
        with (set_dist R (dist_from_des K)).
      do 2 f_equal. lia.
Qed.

Lemma place_replace (shift : Z) (b : bucket_array) (K X : hash_table_entry) (iK : nat) :
  wf_slots shift b -> rh_order b -> keys_distinct b -> ptrs_distinct b ->
  b !! iK = Some (Some K) -> strcmp (key K) (key X) = 0 ->
  hash X = djb2_hash (key X) -> dist_from_des X = dist_from_des K ->
  ptr_fresh b (ptr X) ->
  let b' := <[iK := Some X]> b in
  wf_slots shift b' /\ rh_order b' /\ keys_distinct b' /\ ptrs_distinct b' /\
  count_occupied b' = count_occupied b /\
  (forall c, stored b' c <->
     (stored b c /\ strcmp (key c) (key X) <> 0) \/ core X = c).
Proof.
  intros Hwf Hord Hkeys Hptrs HK Hk Hhash Hdist Hfresh b'. subst b'.
  destruct (Hwf _ _ HK) as (HhK & HdK & HhashK).
  assert (Hhome : home shift X = home shift K).
  { unfold home. rewrite Hhash, HhashK. f_equal. f_equal.
    apply djb2_hash_strcmp. apply strcmp_sym. exact Hk. }
  assert (Hlt : (iK < length b)%nat) by (eapply lookup_lt_Some; eassumption).
  split_and!.
  - intros i e He. ins He; [|eauto]. split; [lia|]. split; [lia|assumption].
  - intros i e He. ins He.
    + destruct (Hord _ _ HK) as [H0|(e' & He' & Hd')]; [left; lia|right].
      exists e'. split; [|lia]. rewrite list_lookup_insert_ne by lia. exact He'.
    + destruct (Hord _ _ He) as [H0|(e' & He' & Hd')]; [left; exact H0|right].
      destruct (decide (i = iK)) as [->|Hi].
      * exists X. split; [apply list_lookup_insert_eq; exact Hlt|].
        rewrite HK in He'. injection He' as <-. lia.
      * exists e'. split; [|exact Hd']. rewrite list_lookup_insert_ne by lia. exact He'.
  - intros i j ei ej Hi Hj Hkk. ins Hi; ins Hj; try reflexivity.
    + symmetry. apply (Hkeys _ _ _ _ Hj HK).
      apply strcmp_trans with (key ei); apply strcmp_sym; assumption.
    + apply (Hkeys _ _ _ _ Hi HK).
      apply strcmp_trans with (key ej); [assumption|]. apply strcmp_sym. assumption.
    + eauto.
  - intros i j ei ej Hi Hj Hkk. ins Hi; ins Hj; try reflexivity.
    + exfalso. apply (Hfresh _ _ Hj). congruence.
    + exfalso. exact (Hfresh _ _ Hi Hkk).
    + eauto.
  - eapply count_occupied_insert_same. eassumption.
  - intros c. unfold stored. split.
    + intros (i & e & He & Hc). ins He; [right; exact Hc|left].
      split; [eauto|]. subst c. change (key (core e)) with (key e). intros Hke.
      apply Hne. apply (Hkeys _ _ _ _ He HK).
      apply strcmp_trans with (key X); [assumption|]. apply strcmp_sym. assumption.
    + intros [((i & e & He & Hc) & Hne)|Hc].
      * exists i, e. split; [|exact Hc].
        destruct (decide (i = iK)) as [->|Hi]; [|rewrite list_lookup_insert_ne by lia; exact He].
        exfalso. apply Hne. subst c. change (key (core e)) with (key e). congruence.
      * exists iK, X. split; [|exact Hc]. apply list_lookup_insert_eq. exact Hlt.
Qed.


(** ** [hash_table_insert] without a resize *)

Lemma key_absent_dec (b : bucket_array) (k : list Z) :
  key_absent b k \/ exists i e, b !! i = Some (Some e) /\ strcmp (key e) k = 0.
Proof.
  induction b as [|x b IH].
  - left. intros i e He. destruct i; discriminate.
  - destruct IH as [Habs|(i & e & He & Hk)]; [|right; exists (S i), e; auto].
    destruct x as [e|].
    + destruct (decide (strcmp (key e) k = 0)) as [Hk|Hk].
      * right. exists O, e. auto.
      * left. intros [|i] e' He'; [injection He' as <-; exact Hk|exact (Habs i e' He')].
    + left. intros [|i] e' He'; [discriminate|exact (Habs i e' He')].
Qed.

Lemma set_buckets_id (t : hash_table) : set_buckets t (buckets t) = t.
Proof. destruct t; reflexivity. Qed.

Lemma walk_inv_start (t : hash_table) (X : hash_table_entry) :
  table_inv t -> entry_ok X -> ptr_fresh (buckets t) (ptr X) ->
  key_absent (buckets t) (key X) ->
  walk_inv (max_size_shift t) (key X) (ptr X) (buckets t) X
    (home (max_size_shift t) X) 0 (Z.to_nat (max_size_shift t)).
Proof.
  intros Hinv (Hd & Hh) Hfresh Habs.
  pose proof (inv_shift_range t Hinv) as Hs.
  pose proof (inv_length_Z t Hinv) as Hlen.
  pose proof (inv_home_lt t Hinv (hash X)) as Hhome.
  destruct Hinv as [_ _ _ _ Hwf Hord Hkeys Hptrs _].
  split; try assumption; try lia;
    first [ left; exact Hd
          | left; split; [reflexivity|lia]
          | unfold home; lia
          | intros j e _ He; split; [exact (Habs _ _ He)|exact (Hfresh _ _ He)] ].
Qed.

(** ** The allocator *)

Lemma alloc_spec (m : env) (r : bool) (m' : env) :
  alloc m = (r, m') ->
  next_ptr m' = next_ptr m /\ freed m' = freed m /\
  (length (allocs m') <= length (allocs m))%nat /\
  (if r then (length (allocs m') < length (allocs m))%nat /\
             alloc_failures m' = alloc_failures m
   else alloc_failures m' = S (alloc_failures m)).
Proof.
  unfold alloc. destruct (allocs m) as [|[|] rest] eqn:Ha; intros H;
    injection H as <- <-; cbn; rewrite ?Ha; cbn; split_and!; auto; lia.
Qed.

Lemma calloc_spec (nmemb size : Z) (m : env) (r : bool) (m' : env) :
  calloc nmemb size m = (r, m') ->
  next_ptr m' = next_ptr m /\ freed m' = freed m /\
  (length (allocs m') <= length (allocs m))%nat /\
  (if r then (length (allocs m') < length (allocs m))%nat /\
             alloc_failures m' = alloc_failures m /\ nmemb * size <= SIZE_MAX
   else alloc_failures m' = S (alloc_failures m)).
Proof.
  unfold calloc. destruct (nmemb * size >? SIZE_MAX) eqn:Hov; zb.
  - intros H. injection H as <- <-. cbn. split_and!; auto.
  - intros H. destruct (alloc_spec _ _ _ H) as (Hn & Hf & Hl & Hr).
    split_and!; auto. destruct r; [|exact Hr]. split_and!; try tauto; try lia.
Qed.

Lemma env_le_refl (m : env) : env_le m m.
Proof. unfold env_le. auto. Qed.

Lemma env_le_trans (m1 m2 m3 : env) : env_le m1 m2 -> env_le m2 m3 -> env_le m1 m3.
Proof. unfold env_le. intros (? & ? & ?) (? & ? & ?). split_and!; try lia; congruence. Qed.

(** ** Rehash *)

Lemma count_occupied_drop (b : bucket_array) (i : nat) (x : option hash_table_entry) :
  b !! i = Some x ->
  count_occupied (drop i b) =
    ((match x with Some _ => 1 | None => 0 end) + count_occupied (drop (S i) b))%nat.
Proof.
  intros H. rewrite (drop_S b x i H). destruct x; reflexivity.
Qed.

Lemma rehash_loop_ok (f : nat) (ins : inserter) (old : bucket_array) :
  inserter_ok f ins -> keys_distinct old -> ptrs_distinct old ->
  (forall j e, old !! j = Some (Some e) -> hash e = djb2_hash (key e)) ->
  forall (n i : nat) (m : env) (t : hash_table),
    length old = (i + n)%nat -> (length (allocs m) < f)%nat -> table_inv t ->
    (forall c, stored (buckets t) c ->
       exists j e, (j < i)%nat /\ old !! j = Some (Some e) /\ core e = c) ->
    exists t' m', rehash_loop ins old n i m t = Some (t', m') /\
      table_inv t' /\ max_size_shift t <= max_size_shift t' /\
      env_le m m' /\ freed m' = freed m /\
      (forall c, stored (buckets t') c ->
         stored (buckets t) c \/
         exists j e, (i <= j)%nat /\ old !! j = Some (Some e) /\ core e = c) /\
      (alloc_failures m' = alloc_failures m ->
         (forall c, stored (buckets t) c -> stored (buckets t') c) /\
         (forall j e, (i <= j)%nat -> old !! j = Some (Some e) ->
            stored (buckets t') (core e)) /\
         count_occupied (buckets t') =
           (count_occupied (buckets t) + count_occupied (drop i old))%nat).
Proof.
  intros Hins Hkeys Hptrs Hhash.
  induction n as [|n IH]; intros i m t Hlen Hf Hinv Hsub; cbn [rehash_loop].
  - exists t, m. split_and!; auto using env_le_refl; try lia.
    intros _. split_and!; auto.
    + intros j e Hj He. apply lookup_lt_Some in He. lia.
    + rewrite drop_ge by lia. cbn. lia.
  - destruct (old !! i) as [[e|]|] eqn:Hi.
    + (* an entry to move *)
      assert (Habs : key_absent (buckets t) (key e)).
      { intros i' e' He' Hk. destruct (Hsub (core e')) as (j & ej & Hj & Hej & Hc);
          [exists i', e'; auto|].
        assert (j = i); [|lia]. apply (Hkeys _ _ _ _ Hej Hi).
        replace (key ej) with (key (core ej)) by reflexivity. rewrite Hc. exact Hk. }
      assert (Hfresh : ptr_fresh (buckets t) (ptr e)).
      { intros i' e' He' Hp. destruct (Hsub (core e')) as (j & ej & Hj & Hej & Hc);
          [exists i', e'; auto|].
        assert (j = i); [|lia]. apply (Hptrs _ _ _ _ Hej Hi).
        replace (ptr ej) with (ptr (core ej)) by reflexivity. rewrite Hc. exact Hp. }
      destruct (Hins m t (set_dist e 0) Hf Hinv) as (r & t1 & m1 & Hcall & Hpost);
        [split; [reflexivity|exact (Hhash _ _ Hi)]|exact Hfresh|].
      rewrite Hcall.
      destruct Hpost as [Hinv1 Hsh1 Henv1 Hsub1 Hin1 Hfail1 Hfreed1 Hexact1].
      change (key (set_dist e 0)) with (key e) in *.
      change (core (set_dist e 0)) with (core e) in *.
      assert (Hfr1 : freed m1 = freed m).
      { destruct Hfreed1 as [H|(c & (i' & e' & He' & Hc) & Hk & _)]; [exact H|].
        exfalso. apply (Habs _ _ He'). subst c. exact Hk. }
      destruct (IH (S i) m1 t1) as (t' & m' & Hloop & Hinv' & Hsh' & Henv' & Hfr' & Hsub' & Hexact');
        [lia|destruct Henv1; lia|exact Hinv1| |].
      { intros c Hc. destruct (Hsub1 c Hc) as [(_ & ->)|(Hc' & _)].
        - exists i, e. split_and!; auto.
        - destruct (Hsub c Hc') as (j & ej & Hj & Hej & Hcj). exists j, ej. split_and!; auto. }
      exists t', m'. split_and!; auto; try lia; try congruence.
      * eapply env_le_trans; eassumption.
      * intros c Hc. destruct (Hsub' c Hc) as [Hc1|(j & ej & Hj & Hej & Hcj)].
        -- destruct (Hsub1 c Hc1) as [(_ & ->)|(Hc' & _)]; [right|left; exact Hc'].
           exists i, e. split_and!; auto.
        -- right. exists j, ej. split_and!; auto. lia.
      * intros Hnf. destruct Henv1 as (_ & Hf1 & _). destruct Henv' as (_ & Hf' & _).
        destruct Hexact1 as (Hr & Hkeep1 & Hcnt1 & _); [lia|].
        destruct Hexact' as (Hkeep' & Hall' & Hcnt'); [lia|].
        destruct (Hcnt1 Habs) as (Hcnt1' & _).
        split_and!.
        -- intros c Hc. apply Hkeep', Hkeep1; [exact Hc|].
           destruct Hc as (i' & e' & He' & <-). exact (Habs _ _ He').
        -- intros j ej Hj Hej. destruct (decide (j = i)) as [->|Hne].
           ++ rewrite Hi in Hej. injection Hej as <-. apply Hkeep', Hin1, Hr.
           ++ apply (Hall' j); [lia|exact Hej].
        -- rewrite Hcnt', Hcnt1'. rewrite (count_occupied_drop old i _ Hi). lia.
    + (* an empty bucket *)
      destruct (IH (S i) m t) as (t' & m' & Hloop & Hinv' & Hsh' & Henv' & Hfr' & Hsub' & Hexact');
        [lia|exact Hf|exact Hinv| |].
      { intros c Hc. destruct (Hsub c Hc) as (j & ej & Hj & Hej & Hcj).
        exists j, ej. split_and!; auto. }
      exists t', m'. split_and!; auto.
      * intros c Hc. destruct (Hsub' c Hc) as [Hc1|(j & ej & Hj & Hej & Hcj)]; [left; exact Hc1|].
        right. exists j, ej. split_and!; auto. lia.
      * intros Hnf. destruct (Hexact' Hnf) as (Hkeep' & Hall' & Hcnt'). split_and!; auto.
        -- intros j ej Hj Hej. destruct (decide (j = i)) as [->|Hne]; [congruence|].
           apply (Hall' j); [lia|exact Hej].
        -- rewrite Hcnt'. rewrite (count_occupied_drop old i _ Hi). lia.
    + apply lookup_ge_None in Hi. lia.
Qed.

(** ** Resize *)

Lemma stored_replicate (n : nat) (c : hash_table_entry) :
  ~ stored (replicate n None) c.
Proof.
  intros (i & e & He & _). apply lookup_replicate in He. destruct He. discriminate.
Qed.

Lemma pow2_gt (n : Z) : 0 <= n -> n < 2 ^ n.
Proof. intros H. apply Z.pow_gt_lin_r; lia. Qed.

Lemma pow2_double_le (n w : Z) : 0 <= n < w -> 2 ^ n * 2 <= 2 ^ w.
Proof.
  intros H. change 2 with (2 ^ 1) at 2. rewrite <- Z.pow_add_r by lia.
  apply Z.pow_le_mono_r; lia.
Qed.

Lemma table_inv_empty (shift : Z) :
  4 <= shift -> sizeof_ptr * (2 ^ shift + shift) <= SIZE_MAX ->
  table_inv (Table shift (2 ^ shift) 0 (replicate (Z.to_nat (2 ^ shift + shift)) None)).
Proof.
  intros Hs Hfit. split; cbn [max_size_shift max_size curr_size buckets].
  - unfold HASH_TABLE_INITIAL_SHIFT. lia.
  - reflexivity.
  - exact Hfit.
  - apply length_replicate.
  - intros i e He. apply lookup_replicate in He. destruct He. discriminate.
  - intros i e He. apply lookup_replicate in He. destruct He. discriminate.
  - intros i j ei ej He. apply lookup_replicate in He. destruct He. discriminate.
  - intros i j ei ej He. apply lookup_replicate in He. destruct He. discriminate.
  - rewrite count_occupied_replicate. reflexivity.
Qed.

Lemma stored_core (b : bucket_array) (i : nat) (e : hash_table_entry) :
  b !! i = Some (Some e) -> stored b (core e).
Proof. intros He. exists i, e. auto. Qed.

Lemma resize_ok (f : nat) (ins : inserter) (m : env) (t : hash_table) (amt : Z) :
  inserter_ok f ins -> table_inv t -> (length (allocs m) <= f)%nat ->
  amt = 1 \/ (amt = -1 /\ 4 < max_size_shift t) ->
  exists r t' m', hash_table_resize ins m t amt = Some (r, t', m') /\
                  resize_post m t amt r t' m'.
Proof.
  intros Hins Hinv Hf Hamt.
  pose proof (inv_shift_range t Hinv) as Hs.
  pose proof (inv_shift_lt_word t Hinv) as Hsw.
  pose proof (inv_length_Z t Hinv) as Hlen.
  pose proof sizeof_ptr_pos as Hptr.
  assert (Hs2 : max_size_shift t + 1 < word_bits).
  { pose proof (inv_fits _ Hinv) as Hfit. rewrite (inv_size _ Hinv) in Hfit.
    unfold SIZE_MAX in Hfit.
    assert (H2 : 2 ^ (max_size_shift t + 1) < 2 ^ word_bits).
    { rewrite Z.pow_add_r by lia. nia. }
    apply (Z.pow_lt_mono_r_iff 2) in H2; lia. }
  set (s' := max_size_shift t + amt).
  assert (Hs' : 4 <= s' < word_bits) by (subst s'; lia).
  assert (Hshift : to_uint8 (max_size_shift t + amt) = s').
  { apply to_uint8_small. subst s'. lia. }
  assert (Hpow : 0 < 2 ^ s' < 2 ^ word_bits).
  { split; [apply Z.pow_pos_nonneg; lia|apply Z.pow_lt_mono_r; lia]. }
  assert (Hsize : (if amt >=? 0 then to_size_t (Z.shiftl (max_size t) amt)
                   else Z.shiftr (max_size t) (-1 * amt)) = 2 ^ s').
  { rewrite (inv_size _ Hinv). subst s'. destruct Hamt as [->|(-> & Hgt)]; cbn [Z.geb Z.compare].
    - rewrite Z.shiftl_mul_pow2 by lia.
      rewrite <- (Z.pow_add_r 2 (max_size_shift t) 1) by lia.
      apply to_size_t_small. unfold SIZE_MAX. lia.
    - change (-1 * -1) with 1. rewrite Z.shiftr_div_pow2 by lia.
      replace (max_size_shift t) with (max_size_shift t + -1 + 1) at 1 by lia.
      rewrite Z.pow_add_r by lia. apply Z.div_mul. lia. }
  assert (Hn : to_size_t (2 ^ s' + s') = 2 ^ s' + s').
  { apply to_size_t_small. unfold SIZE_MAX.
    pose proof (pow2_double_le s' word_bits). pose proof (pow2_gt s'). lia. }
  unfold hash_table_resize. cbv zeta. rewrite Hshift, Hsize.
  unfold hash_table_buckets_alloc. cbn [max_size max_size_shift]. rewrite Hn.
  destruct (calloc sizeof_ptr (2 ^ s' + s') m) as [[|] m1] eqn:Hcalloc;
    destruct (calloc_spec _ _ _ _ _ Hcalloc) as (Hnp & Hfr & Hl & Hr).
  - (* the new array *)
    destruct Hr as (Hlt & Hnf & Hfit).
    pose proof (table_inv_empty s' ltac:(lia) Hfit) as Hinv2.
    destruct Hinv as [_ Hsz _ Hlen' Hwf Hord Hkeys Hptrs _].
    unfold hash_table_rehash.
    destruct (rehash_loop_ok f ins (buckets t) Hins Hkeys Hptrs
                (fun j e He => proj2 (proj2 (Hwf j e He)))
                (buckets_len (max_size t) (max_size_shift t)) O m1
                (Table s' (2 ^ s') 0 (replicate (Z.to_nat (2 ^ s' + s')) None)))
      as (t3 & m3 & Hloop & Hinv3 & Hsh3 & Henv3 & Hfr3 & Hsub3 & Hexact3).
    { unfold buckets_len. rewrite Hsz, to_size_t_small; [lia|].
      unfold SIZE_MAX. pose proof (pow2_gt (max_size_shift t)).
      pose proof (pow2_double_le (max_size_shift t) word_bits).
      assert (0 < 2 ^ max_size_shift t) by (apply Z.pow_pos_nonneg; lia). lia. }
    { lia. }
    { exact Hinv2. }
    { intros c Hc. exfalso. exact (stored_replicate _ _ Hc). }
    rewrite Hloop. exists true, t3, m3. split; [reflexivity|].
    destruct Henv3 as (Hl3 & Hf3 & Hn3).
    split.
    + exact Hinv3.
    + discriminate.
    + intros _. cbn [max_size_shift] in Hsh3. subst s'. lia.
    + intros _. lia.
    + split_and!; [lia|lia|congruence].
    + congruence.
    + intros c Hc. destruct (Hsub3 c Hc) as [Hc'|(j & e & _ & He & <-)].
      * exfalso. exact (stored_replicate _ _ Hc').
      * eapply stored_core. eassumption.
    + intros Hnf3. destruct Hexact3 as (_ & Hall & Hcnt); [lia|]. split_and!.
      * reflexivity.
      * intros c (i & e & He & <-). apply (Hall i); [lia|exact He].
      * rewrite Hcnt. cbn [buckets]. rewrite count_occupied_replicate. reflexivity.
  - (* no memory *)
    exists false, t, m1. split; [reflexivity|]. split.
    + exact Hinv.
    + intros _. split; [reflexivity|lia].
    + discriminate.
    + discriminate.
    + split_and!; [lia|lia|congruence].
    + exact Hfr.
    + auto.
    + intros Hnf. lia.
Qed.

(** ** [hash_table_insert] *)

Lemma key_absent_stored (b : bucket_array) (k : list Z) :
  key_absent b k <-> forall c, stored b c -> strcmp (key c) k <> 0.
Proof.
  split.
  - intros H c (i & e & He & <-). exact (H _ _ He).
  - intros H i e He. exact (H _ (stored_core _ _ _ He)).
Qed.

Lemma ptr_fresh_stored (b : bucket_array) (q : Z) :
  ptr_fresh b q <-> forall c, stored b c -> ptr c <> q.
Proof.
  split.
  - intros H c (i & e & He & <-). exact (H _ _ He).
  - intros H i e He. exact (H _ (stored_core _ _ _ He)).
Qed.

Lemma table_inv_buckets (t : hash_table) (b' : bucket_array) (n : Z) :
  table_inv t -> length b' = length (buckets t) ->
  wf_slots (max_size_shift t) b' -> rh_order b' -> keys_distinct b' ->
  ptrs_distinct b' -> n = Z.of_nat (count_occupied b') ->
  table_inv (Table (max_size_shift t) (max_size t) n b').
Proof.
  intros [Hs Hsz Hfit Hlen _ _ _ _ _] Hl Hwf Hord Hkeys Hptrs Hn.
  split; cbn [max_size_shift max_size curr_size buckets]; auto. congruence.
Qed.

Lemma inv_count_bound (t : hash_table) (b' : bucket_array) :
  table_inv t -> length b' = length (buckets t) ->
  0 <= Z.of_nat (count_occupied b') <= SIZE_MAX.
Proof.
  intros Hinv Hl. pose proof (count_occupied_le b') as Hc.
  pose proof (inv_length_Z t Hinv) as Hlen. pose proof (inv_fits t Hinv) as Hfit.
  rewrite (inv_size t Hinv) in Hfit. pose proof sizeof_ptr_pos.
  pose proof (inv_shift_range t Hinv).
  assert (0 < 2 ^ max_size_shift t) by (apply Z.pow_pos_nonneg; lia). nia.
Qed.

Lemma insert_present (fuel : nat) (m : env) (t : hash_table) (X K : hash_table_entry)
    (iK : nat) :
  table_inv t -> entry_ok X ->
  buckets t !! iK = Some (Some K) -> strcmp (key K) (key X) = 0 ->
  hash_table_insert (S fuel) m t X =
    Some (true,
          set_buckets t (<[iK := Some (set_dist X (dist_from_des K))]> (buckets t)),
          hash_table_entry_free K m).
Proof.
  intros Hinv (Hd & Hh) HK Hk.
  pose proof (inv_shift_range t Hinv) as Hs.
  pose proof (inv_length_Z t Hinv) as Hlen.
  pose proof (inv_home_lt t Hinv (hash X)) as Hhome.
  destruct Hinv as [_ _ _ _ Hwf Hord Hkeys Hptrs _].
  destruct (Hwf _ _ HK) as (HhK & HdK & HhashK).
  assert (Hhm : home (max_size_shift t) X = home (max_size_shift t) K).
  { unfold home. rewrite Hh, HhashK. f_equal. f_equal.
    apply djb2_hash_strcmp. apply strcmp_sym. exact Hk. }
  cbn [hash_table_insert].
  change (Z.to_nat (fibonacci_hash (hash X) (max_size_shift t)))
    with (home (max_size_shift t) X).
  rewrite (insert_loop_present (max_size_shift t) (buckets t) (key X) K iK
             Hwf Hord Hkeys ltac:(lia) HK Hk
             (iK - home (max_size_shift t) X) _ _ 0 X eq_refl); try lia.
  unfold hash_table_is_next_found. cbn [set_buckets max_size_shift buckets].
  destruct (_ <? _) eqn:Hlt; zb; [|lia].
  rewrite HK. reflexivity.
Qed.

Lemma insert_ok (fuel : nat) : inserter_ok fuel (hash_table_insert fuel).
Proof.
  induction fuel as [|fuel IH]; intros m t X Hf Hinv Hok Hfresh; [lia|].
  pose proof (inv_shift_range t Hinv) as Hs.
  destruct (key_absent_dec (buckets t) (key X)) as [Habs|(iK & K & HK & Hk)].
  - (* the key is new *)
    pose proof (walk_inv_start t X Hinv Hok Hfresh Habs) as Hw.
    destruct (insert_loop_fresh _ _ _ _ _ _ _ _ Hw)
      as (bf & Rf & pf & pcf & nf & Hloop & Hwf & Hend & Hlen & Hcnt & Hst & Hpos).
    cbn [hash_table_insert].
    change (Z.to_nat (fibonacci_hash (hash X) (max_size_shift t)))
      with (home (max_size_shift t) X).
    rewrite Hloop. unfold hash_table_is_next_found. cbn [set_buckets max_size_shift].
    pose proof (w_rem _ _ _ _ _ _ _ _ Hwf) as Hrem.
    destruct nf as [|nf].
    + (* the probe window is exhausted *)
      destruct (pcf <? max_size_shift t) eqn:Hlt; zb; [lia|].
      destruct pf as [|start]; [lia|].
      destruct (Z.to_nat (max_size_shift t)) as [|n0] eqn:Hn0; [lia|].
      destruct (unwind_loop_insert_loop _ _ _ n0 _ _ _ _ _ _ _ _ Hw Hloop ltac:(lia))
        as (Hun & _).
      destruct (Hun eq_refl) as (d & Hun'). replace (S start - 1)%nat with start in Hun' by lia.
      unfold hash_table_unwind_insertion_changes. cbn [buckets set_buckets]. rewrite Hun'.
      change (ptr (set_dist X d)) with (ptr X). rewrite Z.eqb_refl.
      change (set_buckets _ (buckets t)) with (set_buckets t (buckets t)).
      rewrite set_buckets_id.
      destruct (resize_ok fuel (hash_table_insert fuel) m t HASH_TABLE_RESIZE_INCREMENT
                  IH Hinv ltac:(lia) ltac:(left; reflexivity))
        as (r & t3 & m3 & Hres & [Hinv3 Hfail3 Hsh3 Hused3 Henv3 Hfr3 Hsub3 Hexact3]).
      rewrite Hres. destruct r.
      * (* the table has grown: try again *)
        change (set_dist (set_dist X d) 0) with (set_dist X 0).
        assert (HX : set_dist X 0 = X).
        { destruct Hok as (Hd & _). rewrite <- Hd. apply set_dist_id. }
        rewrite HX.
        assert (Habs3 : key_absent (buckets t3) (key X)).
        { apply key_absent_stored. intros c Hc.
          apply (proj1 (key_absent_stored _ _) Habs). auto. }
        destruct (IH m3 t3 X) as (r' & t' & m' & Hcall & [Hinv' Hsh' Henv' Hsub' Hin' Hfail' Hfr' Hexact']);
          [specialize (Hused3 eq_refl); lia|exact Hinv3|exact Hok| |].
        { apply ptr_fresh_stored. intros c Hc.
          apply (proj1 (ptr_fresh_stored _ _) Hfresh). auto. }
        rewrite Hcall. exists r', t', m'. split; [reflexivity|].
        unfold HASH_TABLE_RESIZE_INCREMENT in Hsh3. specialize (Hsh3 eq_refl).
        assert (Hfreed : freed m' = freed m).
        { destruct Hfr' as [H|(c & Hc & Hkc & _)]; [congruence|].
          exfalso. exact (proj1 (key_absent_stored _ _) Habs3 c Hc Hkc). }
        split.
        -- exact Hinv'.
        -- lia.
        -- eapply env_le_trans; eassumption.
        -- intros c Hc. destruct (Hsub' c Hc) as [H|(Hc3 & Hne)]; [left; exact H|right].
           split; [auto|exact Hne].
        -- exact Hin'.
        -- intros Hr. specialize (Hfail' Hr). destruct Henv3 as (_ & ? & _). lia.
        -- left. exact Hfreed.
        -- intros Hnf. destruct Henv3 as (_ & Hf3 & _). destruct Henv' as (_ & Hf' & _).
           destruct Hexact3 as (_ & Hkeep3 & Hcnt3); [lia|].
           destruct Hexact' as (Hr' & Hkeep' & Hnew' & _); [lia|].
           split_and!.
           ++ exact Hr'.
           ++ intros c Hc Hne. apply Hkeep'; auto.
           ++ intros _. destruct (Hnew' Habs3) as (Hc' & _). split; [lia|exact Hfreed].
           ++ intros c Hc Hkc. exfalso. exact (proj1 (key_absent_stored _ _) Habs c Hc Hkc).
      * (* no memory: the array is as it was *)
        destruct (Hfail3 eq_refl) as (-> & Hnf).
        exists false, t, m3. split; [reflexivity|]. split.
        -- exact Hinv.
        -- lia.
        -- exact Henv3.
        -- intros c Hc. right. split; [exact Hc|discriminate].
        -- discriminate.
        -- intros _. exact Hnf.
        -- left. exact Hfr3.
        -- intros Hnf'. lia.
    + (* an empty bucket *)
      destruct (pcf <? max_size_shift t) eqn:Hlt; zb; [|lia].
      destruct Hend as [Hend|Hend]; [discriminate|]. rewrite Hend.
      destruct (place_empty _ _ _ _ _ _ _ _ Hwf Hend)
        as (Hwf' & Hord' & Hkeys' & Hptrs' & Hcnt' & Hst').
      assert (Hl' : length (<[pf := Some Rf]> bf) = length (buckets t)).
      { rewrite length_insert. exact Hlen. }
      assert (Hsz : to_size_t (curr_size t + 1)
                    = Z.of_nat (count_occupied (<[pf := Some Rf]> bf))).
      { rewrite (inv_count t Hinv), Hcnt', Hcnt.
        pose proof (inv_count_bound t _ Hinv Hl') as Hb. rewrite Hcnt', Hcnt in Hb.
        rewrite to_size_t_small; lia. }
      eexists true, _, m. split; [reflexivity|]. split;
        cbn [set_buckets max_size_shift max_size curr_size buckets].
      * apply table_inv_buckets; auto.
      * lia.
      * apply env_le_refl.
      * intros c Hc. apply Hst' in Hc.
        assert (Hc' : stored (buckets t) c \/ core X = c) by (apply Hst; exact Hc).
        destruct Hc' as [Hc'|Hc']; [right|left; auto].
        split; [exact Hc'|]. intros _.
        exact (proj1 (key_absent_stored _ _) Habs c Hc').
      * intros _. apply Hst'. apply Hst. right. reflexivity.
      * discriminate.
      * left. reflexivity.
      * intros _. split_and!.
        -- reflexivity.
        -- intros c Hc _. apply Hst'.
           assert (Hc' : stored bf c \/ core Rf = c) by (apply Hst; left; exact Hc).
           exact Hc'.
        -- intros _. split; [lia|reflexivity].
        -- intros c Hc Hkc. exfalso. exact (proj1 (key_absent_stored _ _) Habs c Hc Hkc).
  - (* the key is present: its entry is replaced *)
    rewrite (insert_present fuel m t X K iK Hinv Hok HK Hk).
    pose proof Hinv as [_ _ _ _ Hwf Hord Hkeys Hptrs _].
    destruct (Hwf _ _ HK) as (_ & HdK & _). destruct Hok as (Hd & Hh).
    destruct (place_replace (max_size_shift t) (buckets t) K
                (set_dist X (dist_from_des K)) iK Hwf Hord Hkeys Hptrs HK Hk Hh
                eq_refl Hfresh)
      as (Hwf' & Hord' & Hkeys' & Hptrs' & Hcnt' & Hst').
    change (key (set_dist X (dist_from_des K))) with (key X) in Hst'.
    change (core (set_dist X (dist_from_des K))) with (core X) in Hst'.
    eexists true, _, _. split; [reflexivity|]. split;
      cbn [set_buckets hash_table_entry_free max_size_shift max_size curr_size buckets
           allocs alloc_failures next_ptr freed].
    + apply table_inv_buckets; auto; [apply length_insert|].
      rewrite Hcnt'. apply (inv_count t Hinv).
    + lia.
    + unfold env_le. cbn. auto.
    + intros c Hc. apply Hst' in Hc. destruct Hc as [(Hc & Hne)|Hc]; [right|left]; auto.
    + intros _. apply Hst'. right. reflexivity.
    + discriminate.
    + right. exists (core K). split_and!; auto. eapply stored_core. eassumption.
    + intros _. split_and!.
      * reflexivity.
      * intros c Hc Hne. apply Hst'. left. auto.
      * intros Habs. exfalso. exact (Habs _ _ HK Hk).
      * intros c (i & e & He & <-) Hkc. split; [exact Hcnt'|].
        change (key (core e)) with (key e) in Hkc. change (ptr (core e)) with (ptr e).
        assert (i = iK).
        { apply (Hkeys _ _ _ _ He HK). apply strcmp_trans with (key X); [exact Hkc|].
          apply strcmp_sym. exact Hk. }
        subst i. rewrite HK in He. injection He as <-. reflexivity.
Qed.

(** ** Removal *)

Lemma back_shift_ok (shift : Z) (n : nat) :
  forall (b : bucket_array) (q : nat) (prev : Z),
  shift < 128 -> hole_inv shift b q prev -> (q + n = length b)%nat ->
  exists b', back_shift b n q = Some b' /\
    wf_slots shift b' /\ rh_order b' /\ keys_distinct b' /\ ptrs_distinct b' /\
    length b' = length b /\ count_occupied b' = count_occupied b /\
    (forall c, stored b' c <-> stored b c).
Proof.
  induction n as [|n IH]; intros b q prev Hsh [Hhole Hwf Hkeys Hptrs Hord Hnext Hprev] Hlen;
    cbn [back_shift].
  - exists b. split_and!; auto; try tauto.
    intros i e He. destruct (decide (S i = q)) as [Hq|Hq]; [|eauto].
    apply lookup_lt_Some in He. lia.
  - destruct Hhole as (q' & -> & Hq').
    destruct (b !! S q') as [[e|]|] eqn:He.
    + destruct (dist_from_des e =? 0) eqn:Hd; zb.
      * exists b. split_and!; auto; try tauto.
        intros i e' He'. destruct (decide (i = q')) as [->|Hq]; [|apply Hord; [lia|exact He']].
        left. congruence.
      * (* the entry moves into the hole *)
        destruct (Hwf _ _ He) as (Hh & Hde & Hhash).
        rewrite (to_uint8_small (dist_from_des e - 1)) by lia.
        replace (S q' - 1)%nat with q' by lia.
        assert (He' : exists e', e' = set_dist e (dist_from_des e - 1) /\
                  key e' = key e /\ ptr e' = ptr e /\ hash e' = hash e /\
                  dist_from_des e' = dist_from_des e - 1 /\ core e' = core e /\
                  home shift e' = home shift e).
        { eexists. split; [reflexivity|]. split_and!; reflexivity. }
        destruct He' as (e' & <- & Ek & Ep & Eh & Ed & Ec & Ehome).
        set (b1 := <[S q' := None]> (<[q' := Some e']> b)).
        assert (Hlq : (q' < length b)%nat) by (eapply lookup_lt_Some; eassumption).
        assert (HlS : (S q' < length b)%nat) by (eapply lookup_lt_Some; eassumption).
        assert (Hb1 : forall i x, b1 !! i = Some x ->
                  (i = q' /\ x = Some e') \/ (i = S q' /\ x = None) \/
                  (i <> q' /\ i <> S q' /\ b !! i = Some x)).
        { intros i x Hx. subst b1.
          apply lookup_insert_Some_inv in Hx as [(-> & -> & _)|(Hn1 & Hx)]; [right; left; auto|].
          apply lookup_insert_Some_inv in Hx as [(-> & -> & _)|(Hn2 & Hx)]; [left; auto|].
          right; right; auto. }
        assert (Hb1q : b1 !! q' = Some (Some e')).
        { subst b1. rewrite list_lookup_insert_ne by lia.
          apply list_lookup_insert_eq. exact Hlq. }
        assert (Hb1S : b1 !! S q' = Some None).
        { subst b1. apply list_lookup_insert_eq. rewrite length_insert. exact HlS. }
        assert (Hb1o : forall i, i <> q' -> i <> S q' -> b1 !! i = b !! i).
        { intros i H1 H2. subst b1. rewrite !list_lookup_insert_ne by lia. reflexivity. }
        assert (Hl1 : length b1 = length b).
        { subst b1. rewrite !length_insert. reflexivity. }
        assert (Hcnt1 : count_occupied b1 = count_occupied b).
        { subst b1.
          pose proof (count_occupied_insert_new b q' e' Hq') as H1.
          assert (H2 : <[q' := Some e']> b !! S q' = Some (Some e)).
          { rewrite list_lookup_insert_ne by lia. exact He. }
          pose proof (count_occupied_delete _ _ _ H2) as H3. lia. }
        clearbody b1.
        destruct (IH b1 (S (S q')) (dist_from_des e) Hsh)
          as (b' & Hbs & Hwf' & Hord' & Hkeys' & Hptrs' & Hlen' & Hcnt' & Hst'); [|lia|].
        { split.
          - exists (S q'). auto.
          - intros i x Hx. destruct (Hb1 _ _ Hx) as [(-> & Hxe)|[(-> & Hxe)|(H1 & H2 & Hxe)]].
            + injection Hxe as ->. split; [|split; [|congruence]].
              * rewrite Ehome. lia.
              * lia.
            + discriminate.
            + eauto.
          - intros i j ei ej Hi Hj Hk.
            destruct (Hb1 _ _ Hi) as [(-> & Hxi)|[(-> & Hxi)|(Hi1 & Hi2 & Hxi)]];
            destruct (Hb1 _ _ Hj) as [(-> & Hxj)|[(-> & Hxj)|(Hj1 & Hj2 & Hxj)]];
              try discriminate; try reflexivity.
            * injection Hxi as ->. exfalso. apply Hj2. rewrite Ek in Hk.
              exact (Hkeys _ _ _ _ Hxj He (strcmp_sym _ _ Hk)).
            * injection Hxj as ->. exfalso. apply Hi2. rewrite Ek in Hk.
              exact (Hkeys _ _ _ _ Hxi He Hk).
            * eauto.
          - intros i j ei ej Hi Hj Hk.
            destruct (Hb1 _ _ Hi) as [(-> & Hxi)|[(-> & Hxi)|(Hi1 & Hi2 & Hxi)]];
            destruct (Hb1 _ _ Hj) as [(-> & Hxj)|[(-> & Hxj)|(Hj1 & Hj2 & Hxj)]];
              try discriminate; try reflexivity.
            * injection Hxi as ->. exfalso. apply Hj2. rewrite Ep in Hk.
              exact (Hptrs _ _ _ _ Hxj He (eq_sym Hk)).
            * injection Hxj as ->. exfalso. apply Hi2. rewrite Ep in Hk.
              exact (Hptrs _ _ _ _ Hxi He Hk).
            * eauto.
          - intros i x Hne Hx.
            destruct (Hb1 _ _ Hx) as [(Hiq & Hxe)|[(Hiq & Hxe)|(H1 & H2 & Hxe)]].
            + (* the moved entry *)
              injection Hxe as ->. rewrite Ed.
              destruct (Hnext _ eq_refl) as [H0|Hle]; [lia|].
              destruct Hprev as [Hp0|(i0 & e0 & Hq0 & He0 & Hle0)]; [left; lia|].
              right. exists e0. assert (i = i0) by lia. subst i0.
              split; [|lia]. rewrite Hb1o by lia. exact He0.
            + discriminate.
            + destruct (Hord i x) as [H0|(e0 & He0 & Hle0)]; [lia|exact Hxe|left; exact H0|].
              right. exists e0. split; [|exact Hle0].
              rewrite Hb1o; [exact He0|lia|].
              intros ->. congruence.
          - intros x Hx. rewrite Hb1o in Hx by lia.
            destruct (Hord (S q') x) as [H0|(e0 & He0 & Hle0)]; [lia|exact Hx|left; exact H0|].
            right. rewrite He in He0. injection He0 as <-. lia.
          - right. exists q', e'. split_and!; auto. lia. }
        exists b'. split_and!; auto; try congruence.
        intros c. rewrite Hst'. unfold stored. split.
        -- intros (i & x & Hx & Hc).
           destruct (Hb1 _ _ Hx) as [(-> & Hxe)|[(-> & Hxe)|(H1 & H2 & Hxe)]].
           ++ injection Hxe as ->. exists (S q'), e. split; [exact He|congruence].
           ++ discriminate.
           ++ exists i, x. auto.
        -- intros (i & x & Hx & Hc). destruct (decide (i = S q')) as [->|Hne].
           ++ exists q', e'. split; [exact Hb1q|].
              rewrite He in Hx. injection Hx as <-. congruence.
           ++ exists i, x. split; [|exact Hc]. rewrite Hb1o; [exact Hx| |exact Hne].
              intros ->. congruence.
    + exists b. split_and!; auto; try tauto.
      intros i e' He'. destruct (decide (i = q')) as [->|Hq]; [congruence|].
      apply Hord; [lia|exact He'].
    + apply lookup_ge_None in He. lia.
Qed.

Lemma remove_from_position_ok (t : hash_table) (pos : nat) (K : hash_table_entry) :
  table_inv t -> buckets t !! pos = Some (Some K) ->
  exists t', hash_table_remove_from_position t pos = Some (true, t') /\
    table_inv t' /\ max_size_shift t' = max_size_shift t /\
    curr_size t' = curr_size t - 1 /\
    (forall c, stored (buckets t') c <->
               stored (buckets t) c /\ strcmp (key c) (key K) <> 0).
Proof.
  intros Hinv HK.
  pose proof (inv_shift_range t Hinv) as Hs.
  pose proof (inv_length_Z t Hinv) as HlenZ.
  pose proof Hinv as [_ Hsz Hfit Hlen Hwf Hord Hkeys Hptrs Hcnt].
  assert (Hpos : (pos < length (buckets t))%nat) by (eapply lookup_lt_Some; eassumption).
  destruct (Hwf _ _ HK) as (HhK & HdK & _).
  unfold hash_table_remove_from_position. rewrite decide_True by exact Hpos.
  set (b0 := <[pos := None]> (buckets t)).
  assert (Hb0 : forall i x, b0 !! i = Some (Some x) -> i <> pos /\ buckets t !! i = Some (Some x)).
  { intros i x Hx. subst b0.
    apply lookup_insert_Some_inv in Hx as [(_ & Hx & _)|(Hne & Hx)]; [discriminate|auto]. }
  assert (Hb0o : forall i, i <> pos -> b0 !! i = buckets t !! i).
  { intros i Hne. subst b0. rewrite list_lookup_insert_ne by lia. reflexivity. }
  assert (Hb0p : b0 !! pos = Some None).
  { subst b0. apply list_lookup_insert_eq. exact Hpos. }
  assert (Hl0 : length b0 = length (buckets t)) by (subst b0; apply length_insert).
  assert (Hc0 : S (count_occupied b0) = count_occupied (buckets t)).
  { subst b0. eapply count_occupied_delete. eassumption. }
  assert (Hblen : buckets_len (max_size t) (max_size_shift t) = length (buckets t)).
  { unfold buckets_len. rewrite Hlen. f_equal. apply to_size_t_small.
    rewrite Hsz in *. pose proof sizeof_ptr_pos.
    assert (0 < 2 ^ max_size_shift t) by (apply Z.pow_pos_nonneg; lia). nia. }
  rewrite Hblen.
  destruct (back_shift_ok (max_size_shift t) (length (buckets t) - S pos) b0 (S pos)
              (dist_from_des K) ltac:(lia))
    as (b' & Hbs & Hwf' & Hord' & Hkeys' & Hptrs' & Hlen' & Hcnt' & Hst'); [|lia|].
  { clearbody b0. split.
    - exists pos. auto.
    - intros i x Hx. destruct (Hb0 _ _ Hx). eauto.
    - intros i j ei ej Hi Hj. destruct (Hb0 _ _ Hi), (Hb0 _ _ Hj). eauto.
    - intros i j ei ej Hi Hj. destruct (Hb0 _ _ Hi), (Hb0 _ _ Hj). eauto.
    - intros i x Hne Hx. destruct (Hb0 _ _ Hx) as (_ & Hx').
      destruct (Hord _ _ Hx') as [H0|(e' & He' & Hd')]; [left; exact H0|right].
      exists e'. split; [|exact Hd']. rewrite Hb0o by lia. exact He'.
    - intros x Hx. destruct (Hb0 _ _ Hx) as (_ & Hx').
      destruct (Hord _ _ Hx') as [H0|(e' & He' & Hd')]; [left; exact H0|right].
      rewrite HK in He'. injection He' as <-. exact Hd'.
    - destruct pos as [|i]; [left; lia|].
      destruct (Hord _ _ HK) as [H0|(e' & He' & Hd')]; [left; lia|right].
      exists i, e'. split_and!; auto. rewrite Hb0o by lia. exact He'. }
  rewrite Hbs. eexists. split; [reflexivity|].
  split_and!; cbn [max_size_shift max_size curr_size buckets].
  - apply table_inv_buckets; auto; [congruence|].
    rewrite Hcnt', Hcnt. rewrite to_size_t_small; [lia|].
    pose proof (inv_count_bound t (buckets t) Hinv eq_refl). lia.
  - reflexivity.
  - rewrite Hcnt. rewrite to_size_t_small; [lia|].
    pose proof (inv_count_bound t (buckets t) Hinv eq_refl). lia.
  - intros c. rewrite Hst'. unfold stored. split.
    + intros (i & x & Hx & <-). destruct (Hb0 _ _ Hx) as (Hne & Hx').
      split; [eauto|]. change (key (core x)) with (key x). intros Hk.
      apply Hne. exact (Hkeys _ _ _ _ Hx' HK Hk).
    + intros ((i & x & Hx & <-) & Hne). exists i, x. split; [|reflexivity].
      rewrite Hb0o; [exact Hx|]. intros ->. apply Hne.
      rewrite HK in Hx. injection Hx as <-. apply strcmp_refl.
Qed.

(** ** The public operations *)

Lemma hash_table_create_ok (m : env) :
  match hash_table_create m with
  | (Some t, m') =>
      state_inv m' t /\ curr_size t = 0 /\
      max_size_shift t = HASH_TABLE_INITIAL_SHIFT /\
      (forall c, ~ stored (buckets t) c) /\ next_ptr m' = next_ptr m /\
      alloc_failures m' = alloc_failures m
  | (None, m') => (alloc_failures m < alloc_failures m')%nat
  end.
Proof.
  unfold hash_table_create.
  destruct (alloc m) as [[|] m1] eqn:Ha; destruct (alloc_spec _ _ _ Ha) as (Hn1 & _ & _ & Hr1);
    [|lia].
  unfold hash_table_buckets_alloc, HASH_TABLE_INITIAL_SHIFT.
  cbn [max_size max_size_shift]. change (Z.shiftl 1 4) with (2 ^ 4).
  assert (Hn : to_size_t (2 ^ 4 + 4) = 2 ^ 4 + 4).
  { apply to_size_t_small. unfold SIZE_MAX.
    assert (2 ^ 16 <= 2 ^ word_bits) by (apply Z.pow_le_mono_r; lia). lia. }
  rewrite Hn.
  destruct (calloc sizeof_ptr (2 ^ 4 + 4) m1) as [[|] m2] eqn:Hc;
    destruct (calloc_spec _ _ _ _ _ Hc) as (Hn2 & _ & _ & Hr2); [|lia].
  destruct Hr2 as (_ & Hf2 & Hfit). destruct Hr1 as (_ & Hf1).
  pose proof (table_inv_empty 4 ltac:(lia) Hfit) as Hinv.
  cbn [set_buckets max_size_shift max_size curr_size buckets].
  split_and!; try reflexivity; try congruence.
  - split; [exact Hinv|]. intros c Hc'. exfalso. exact (stored_replicate _ _ Hc').
  - intros c. apply stored_replicate.
Qed.

Lemma entry_create_spec (m : env) (k : list Z) (d : Z) :
  match hash_table_entry_create k d m with
  | (Some X, m') =>
      entry_ok X /\ strcmp (key X) k = 0 /\ data X = d /\ ptr X = next_ptr m /\
      next_ptr m' = next_ptr m + 1 /\ alloc_failures m' = alloc_failures m /\
      freed m' = freed m
  | (None, m') =>
      (alloc_failures m < alloc_failures m')%nat /\
      next_ptr m <= next_ptr m' /\ freed m' = freed m
  end.
Proof.
  unfold hash_table_entry_create.
  destruct (alloc m) as [[|] m1] eqn:Ha; destruct (alloc_spec _ _ _ Ha) as (Hn1 & Hfr1 & _ & Hr1).
  - unfold fresh_ptr. clear Ha.
    match goal with |- context [alloc ?x] => destruct (alloc x) as [[|] m3] eqn:Ha2 end;
      destruct (alloc_spec _ _ _ Ha2) as (Hn2 & Hfr2 & _ & Hr2);
      cbn [next_ptr freed alloc_failures allocs] in *; destruct Hr1 as (_ & Hf1).
    + destruct Hr2 as (_ & Hf2).
      pose proof (strcmp_strncpy k) as Hk. cbv beta iota.
      split_and!; cbn [ptr key hash data dist_from_des]; try congruence; try lia.
      split; cbn [ptr key hash data dist_from_des]; [reflexivity|].
      symmetry. apply djb2_hash_strcmp. exact Hk.
    + cbv beta iota. split_and!; [lia|lia|congruence].
  - cbv beta iota. split_and!; [lia|lia|congruence].
Qed.

(** The resize that precedes an insertion or a removal. *)
Lemma resize_before_ok (cond : bool) (m : env) (t : hash_table) (amt : Z) :
  table_inv t -> amt = 1 \/ (amt = -1 /\ (cond = true -> 4 < max_size_shift t)) ->
  exists r1 t1 m1,
    (if cond then hash_table_resize (hash_table_insert (fuel_of m)) m t amt
     else Some (true, t, m)) = Some (r1, t1, m1) /\
    table_inv t1 /\ env_le m m1 /\ freed m1 = freed m /\
    (amt = 1 -> max_size_shift t <= max_size_shift t1) /\
    (forall c, stored (buckets t1) c -> stored (buckets t) c) /\
    (r1 = false -> t1 = t /\ (alloc_failures m < alloc_failures m1)%nat) /\
    (alloc_failures m1 = alloc_failures m ->
       r1 = true /\ (forall c, stored (buckets t) c -> stored (buckets t1) c) /\
       curr_size t1 = curr_size t).
Proof.
  intros Hinv Hamt. destruct cond.
  - destruct (resize_ok (fuel_of m) (hash_table_insert (fuel_of m)) m t amt
                (insert_ok _) Hinv) as (r1 & t1 & m1 & Hres & Hpost).
    { unfold fuel_of. lia. }
    { destruct Hamt as [->|(-> & Hs)]; [left; reflexivity|right; auto]. }
    destruct Hpost as [Hinv1 Hfail1 Hsh1 _ Henv1 Hfr1 Hsub1 Hexact1].
    exists r1, t1, m1. split_and!; auto.
    + intros ->. destruct r1; [specialize (Hsh1 eq_refl); lia|].
      destruct (Hfail1 eq_refl) as (-> & _). lia.
    + intros Hnf. destruct (Hexact1 Hnf) as (Hr & Hkeep & Hcnt). split_and!; auto.
      rewrite (inv_count _ Hinv1), (inv_count _ Hinv), Hcnt. reflexivity.
  - exists true, t, m. split_and!; auto using env_le_refl; try lia; try discriminate.
Qed.

Lemma strcmp_key_equiv (a b c : list Z) :
  strcmp a b = 0 -> (strcmp c a = 0 <-> strcmp c b = 0).
Proof.
  intros H. split; intros H'.
  - apply strcmp_trans with a; assumption.
  - apply strcmp_trans with b; [assumption|]. apply strcmp_sym. assumption.
Qed.

Lemma hash_table_add_ok (m : env) (t : hash_table) (k : list Z) (d : Z) :
  state_inv m t ->
  exists r t' m', hash_table_add m t k d = Some (r, t', m') /\
                  add_post m t k d r t' m'.
Proof.
  intros (Hinv & Hptr). unfold hash_table_add, add_precheck.
  pose proof (entry_create_spec m k d) as Hcreate.
  destruct (hash_table_entry_create k d m) as [[X|] m1].
  2:{ destruct Hcreate as (Hf & Hn & Hfr).
      exists false, t, m1. split; [reflexivity|]. split; try discriminate; try lia.
      - split; [exact Hinv|]. intros c Hc. specialize (Hptr c Hc). lia.
      - intros c Hc. right. split; [exact Hc|discriminate]. }
  destruct Hcreate as (Hok & Hk & Hd & HpX & Hn1 & Hf1 & Hfr1).
  assert (Hkey : forall c, strcmp (key c) (key X) = 0 <-> strcmp (key c) k = 0).
  { intros c. apply strcmp_key_equiv. exact Hk. }
  destruct (resize_before_ok (hash_table_should_resize_up_factor t) m1 t
              HASH_TABLE_RESIZE_INCREMENT Hinv ltac:(left; reflexivity))
    as (r1 & t1 & m2 & Hres & Hinv1 & Henv1 & Hfr2 & Hsh1 & Hsub1 & Hfail1 & Hexact1).
  rewrite Hres. specialize (Hsh1 eq_refl). destruct Henv1 as (Hl1 & Hfm1 & Hnp1).
  destruct r1.
  2:{ destruct (Hfail1 eq_refl) as (-> & Hf2).
      eexists false, t, _. split; [reflexivity|]. split; try discriminate;
        cbn [hash_table_entry_free alloc_failures next_ptr]; try lia.
      - split; [exact Hinv|]. intros c Hc. specialize (Hptr c Hc).
        cbn [hash_table_entry_free next_ptr]. lia.
      - intros c Hc. right. split; [exact Hc|discriminate]. }
  assert (Hfresh1 : ptr_fresh (buckets t1) (ptr X)).
  { apply ptr_fresh_stored. intros c Hc. specialize (Hptr c (Hsub1 c Hc)). lia. }
  destruct (insert_ok (fuel_of m2) m2 t1 X) as (r & t' & m' & Hcall & Hpost);
    [unfold fuel_of; lia|exact Hinv1|exact Hok|exact Hfresh1|].
  rewrite Hcall.
  destruct Hpost as [Hinv' Hsh' (Hl' & Hfm' & Hnp') Hsub' Hin' Hfail' Hfr' Hexact'].
  assert (Hptr' : forall c, stored (buckets t') c -> ptr c < next_ptr m').
  { intros c Hc. destruct (Hsub' c Hc) as [(_ & ->)|(Hc1 & _)].
    - change (ptr (core X)) with (ptr X). lia.
    - specialize (Hptr c (Hsub1 c Hc1)). lia. }
  destruct r.
  - exists true, t', m'. split; [reflexivity|]. split; try discriminate; try lia.
    + split; assumption.
    + intros c Hc. destruct (Hsub' c Hc) as [(_ & ->)|(Hc1 & Hne)]; [left|right].
      * split_and!; auto.
      * split; [auto|]. intros _. rewrite <- Hkey. auto.
    + intros _. destruct (Hin' eq_refl) as (i & e & He & Hc).
      exists i, e. split_and!; auto.
      * change (key e) with (key (core e)). rewrite Hc. exact Hk.
      * change (data e) with (data (core e)). rewrite Hc. exact Hd.
    + intros Hnf. destruct Hexact1 as (_ & Hkeep1 & Hcnt1); [lia|].
      destruct Hexact' as (_ & Hkeep' & Hnew' & Hrep'); [lia|].
      split_and!; auto.
      * intros c Hc Hne. apply Hkeep'; [auto|]. rewrite Hkey. exact Hne.
      * intros Habs.
        assert (Habs1 : key_absent (buckets t1) (key X)).
        { apply key_absent_stored. intros c Hc. rewrite Hkey.
          destruct (Hsub1 c Hc) as (i & e & He & <-). exact (Habs _ _ He). }
        destruct (Hnew' Habs1) as (Hc' & Hfreed').
        rewrite (inv_count _ Hinv'), Hc', <- Hcnt1, (inv_count _ Hinv1).
        split; [lia|congruence].
      * intros c Hc Hkc.
        destruct (Hrep' c (Hkeep1 c Hc)) as (Hc' & Hfreed'); [rewrite Hkey; exact Hkc|].
        rewrite (inv_count _ Hinv'), Hc', <- Hcnt1, (inv_count _ Hinv1).
        split; [reflexivity|congruence].
  - eexists false, t', _. split; [reflexivity|]. specialize (Hfail' eq_refl).
    split; try discriminate; cbn [hash_table_entry_free alloc_failures next_ptr]; try lia.
    + split; [assumption|]. intros c Hc. cbn [hash_table_entry_free next_ptr]. auto.
    + intros c Hc. right. destruct (Hsub' c Hc) as [(Hr & _)|(Hc1 & _)]; [discriminate|].
      split; [auto|discriminate].
Qed.

Lemma lookup_walk_present (t : hash_table) (k : list Z) (i : nat) (e : hash_table_entry) :
  table_inv t -> buckets t !! i = Some (Some e) -> strcmp (key e) k = 0 ->
  iterate_to_next (buckets t) k (Z.to_nat (max_size_shift t))
    (Z.to_nat (hash_table_get_position t k)) 0 = Some (i, dist_from_des e) /\
  dist_from_des e < max_size_shift t.
Proof.
  intros Hinv He Hk. pose proof Hinv as [Hs Hsz Hfit Hlen Hwf Hord Hkeys Hptrs Hcnt].
  destruct (Hwf _ _ He) as (Hh & Hd & Hhash).
  pose proof (get_position_bound t Hinv k) as Hb.
  assert (Hpos : Z.to_nat (hash_table_get_position t k) = home (max_size_shift t) e).
  { unfold hash_table_get_position, home. rewrite Hhash.
    rewrite (djb2_hash_strcmp _ _ Hk). reflexivity. }
  split; [|lia].
  rewrite (iterate_to_next_found (max_size_shift t) (buckets t) k _ _ i 0 e);
    try assumption; try lia.
  f_equal. f_equal. lia.
Qed.

Lemma hash_table_remove_ok (m : env) (t : hash_table) (k : list Z) :
  state_inv m t ->
  exists r t' m', hash_table_remove m t k = Some (r, t', m') /\
                  remove_post m t k r t' m'.
Proof.
  intros (Hinv & Hptr). unfold hash_table_remove, remove_precheck.
  change (- HASH_TABLE_RESIZE_INCREMENT) with (-1).
  destruct (resize_before_ok (hash_table_should_resize_down_factor t) m t (-1) Hinv)
    as (r1 & t1 & m1 & Hres & Hinv1 & Henv1 & Hfr1 & _ & Hsub1 & Hfail1 & Hexact1).
  { right. split; [reflexivity|]. unfold hash_table_should_resize_down_factor.
    unfold HASH_TABLE_INITIAL_SHIFT.
    destruct (max_size_shift t <=? 4) eqn:Hle; zb; [discriminate|lia]. }
  rewrite Hres. destruct Henv1 as (Hl1 & Hfm1 & Hnp1).
  assert (Hptr1 : forall c, stored (buckets t1) c -> ptr c < next_ptr m1).
  { intros c Hc. rewrite Hnp1. auto. }
  destruct r1.
  2:{ destruct (Hfail1 eq_refl) as (-> & Hf2).
      exists false, t, m1. split; [reflexivity|]. split; try discriminate; try lia.
      - split; assumption.
      - intros c Hc. split; [exact Hc|discriminate]. }
  cbv zeta.
  destruct (key_absent_dec (buckets t1) k) as [Habs1|(i & K & HK & Hk)].
  - (* the key is absent *)
    assert (Hout : (let (position, probe_count) :=
                      (match iterate_to_next (buckets t1) k (Z.to_nat (max_size_shift t1))
                               (Z.to_nat (hash_table_get_position t1 k)) 0
                       with Some x => x | None => (O, 0) end) in
                    iterate_to_next (buckets t1) k (Z.to_nat (max_size_shift t1))
                      (Z.to_nat (hash_table_get_position t1 k)) 0
                    = Some (position, probe_count) /\
                    (hash_table_is_next_found t1 probe_count = false \/
                     buckets t1 !! position = Some None))).
    { destruct (iterate_to_next_spec (buckets t1) k (Z.to_nat (max_size_shift t1))
                  (Z.to_nat (hash_table_get_position t1 k)) 0
                  (get_position_bound t1 Hinv1 k))
        as (p' & pc' & Hit & Hle & Hn & Hpc & Hocc & Hend).
      rewrite Hit. split; [reflexivity|]. unfold hash_table_is_next_found.
      pose proof (inv_shift_range t1 Hinv1).
      destruct (pc' <? max_size_shift t1) eqn:Hlt; zb; [|left; reflexivity].
      destruct Hend as [Hnone|(e & He & Hke)]; [lia|right; exact Hnone|].
      exfalso. exact (Habs1 _ _ He Hke). }
    destruct (iterate_to_next _ _ _ _ _) as [[position probe_count]|];
      [|destruct Hout; discriminate].
    destruct Hout as (_ & Hout).
    assert (Hresult : (if negb (hash_table_is_next_found t1 probe_count)
                       then Some (false, t1, m1)
                       else match buckets t1 !! position with
                            | Some (Some e) =>
                                match hash_table_remove_from_position t1 position with
                                | Some (r, t2) => Some (r, t2, hash_table_entry_free e m1)
                                | None => None
                                end
                            | Some None => Some (false, t1, m1)
                            | None => None
                            end) = Some (false, t1, m1)).
    { destruct (hash_table_is_next_found t1 probe_count); cbn [negb]; [|reflexivity].
      destruct Hout as [Hout|Hout]; [discriminate|]. rewrite Hout. reflexivity. }
    rewrite Hresult. exists false, t1, m1. split; [reflexivity|].
    split; try discriminate; try lia.
    + split; assumption.
    + intros c Hc. split; [auto|discriminate].
    + intros Hnf. destruct Hexact1 as (_ & Hkeep1 & Hcnt1); [lia|]. split_and!.
      * intros c Hc _. auto.
      * intros _. split; [reflexivity|exact Hcnt1].
      * intros Hpres. exfalso. apply Hpres. intros j e He Hke.
        destruct (Hkeep1 _ (stored_core _ _ _ He)) as (j' & e' & He' & Hc').
        apply (Habs1 _ _ He'). replace (key e') with (key (core e')) by reflexivity.
        rewrite Hc'. exact Hke.
  - (* the key is present *)
    destruct (lookup_walk_present t1 k i K Hinv1 HK Hk) as (Hwalk & Hlt).
    rewrite Hwalk. unfold hash_table_is_next_found.
    rewrite (proj2 (Z.ltb_lt _ _) Hlt). cbn [negb]. rewrite HK.
    destruct (remove_from_position_ok t1 i K Hinv1 HK)
      as (t2 & Hrem & Hinv2 & Hsh2 & Hsz2 & Hst2).
    rewrite Hrem. eexists true, t2, _. split; [reflexivity|].
    assert (Hin : stored (buckets t) (core K)).
    { apply Hsub1. eapply stored_core. eassumption. }
    split; cbn [hash_table_entry_free alloc_failures next_ptr freed]; try lia.
    + split; [exact Hinv2|]. intros c Hc. cbn [hash_table_entry_free next_ptr].
      apply Hptr1. apply Hst2. exact Hc.
    + intros c Hc. apply Hst2 in Hc. destruct Hc as (Hc & Hne). split; [auto|].
      intros _ Hkc. apply Hne. apply strcmp_trans with k; [exact Hkc|].
      apply strcmp_sym. exact Hk.
    + intros _. exists (core K). split_and!; auto.
      change (ptr (core K)) with (ptr K). cbn [hash_table_entry_free freed]. congruence.
    + intros Hnf. destruct Hexact1 as (_ & Hkeep1 & Hcnt1); [lia|]. split_and!.
      * intros c Hc Hne. apply Hst2. split; [auto|].
        intros Hkc. apply Hne. apply strcmp_trans with (key K); assumption.
      * intros Habs. exfalso. destruct Hin as (j & e & He & Hc).
        apply (Habs _ _ He). replace (key e) with (key (core e)) by reflexivity.
        rewrite Hc. exact Hk.
      * intros _. split; [reflexivity|lia].
Qed.

(** * The claims of the specification *)

Lemma reachable_inv (m : env) (t : hash_table) : reachable m t -> state_inv m t.
Proof.
  induction 1 as [m t m' Hc|m t k d r t' m' _ IH Hadd|m t k r t' m' _ IH Hrm].
  - pose proof (hash_table_create_ok m) as H. rewrite Hc in H. tauto.
  - destruct (hash_table_add_ok m t k d IH) as (r0 & t0 & m0 & Heq & Hpost).
    rewrite Hadd in Heq. injection Heq as <- <- <-. exact (ap_inv _ _ _ _ _ _ _ Hpost).
  - destruct (hash_table_remove_ok m t k IH) as (r0 & t0 & m0 & Heq & Hpost).
    rewrite Hrm in Heq. injection Heq as <- <- <-. exact (rm_inv _ _ _ _ _ _ Hpost).
Qed.

Lemma maps_to_get (t : hash_table) (k : list Z) (d : Z) :
  table_inv t -> maps_to t k d -> hash_table_get t k = Some d.
Proof.
  intros Hinv (i & e & He & Hk & <-). eapply hash_table_get_present; eassumption.
Qed.

(** C3: in every state that the public operations reach, an occupied
    bucket [i] holds an entry whose home index, derived from its digest and
    from [max_size_shift], plus its displacement is [i], and whose
    displacement is below [max_size_shift]. *)
Theorem C3_home_plus_displacement (m : env) (t : hash_table) (i : nat)
    (e : hash_table_entry) :
  reachable m t -> buckets t !! i = Some (Some e) ->
  fibonacci_hash (hash e) (max_size_shift t) + dist_from_des e = Z.of_nat i /\
  0 <= dist_from_des e < max_size_shift t.
Proof.
  intros Hr He. destruct (reachable_inv m t Hr) as (Hinv & _).
  destruct (inv_wf t Hinv i e He) as (Hh & Hd & _).
  pose proof (inv_home_lt t Hinv (hash e)) as Hrange.
  unfold home in Hh. split; [lia|exact Hd].
Qed.

Lemma djb2_loop_spec (s : list Z) (h : Z) :
  0 < 2 ^ word_bits ->
  djb2_loop s h =
  fold_left (fun h c => (h * 33 + c) mod 2 ^ word_bits) (bytes_before_sentinel s) h.
Proof.
  intros Hpos. unfold bytes_before_sentinel. revert h.
  induction s as [|c s IH]; intros h; cbn [djb2_loop strlen]; [reflexivity|].
  destruct (c =? 0); [reflexivity|]. cbn [take fold_left]. rewrite IH. f_equal.
  unfold to_size_t. rewrite Z.shiftl_mul_pow2 by lia.
  rewrite Z.add_mod_idemp_l by lia. rewrite <- Z.add_assoc.
  rewrite Z.add_mod_idemp_l by lia.
  f_equal. change (2 ^ 5) with 32. lia.
Qed.

Lemma fibonacci_multiplier_spec :
  word_bits = 32 \/ word_bits = 64 -> FIBONACCI_MULTIPLIER = fibonacci_constant_spec.
Proof.
  unfold FIBONACCI_MULTIPLIER, fibonacci_constant_spec, SIZE_MAX.
  intros [->| ->]; reflexivity.
Qed.

Lemma insert_loop_in_bounds (k : list Z) (n : nat) :
  forall (b : bucket_array) (R : hash_table_entry) (p : nat) (pc : Z),
  (p + n <= length b)%nat ->
  exists bf Rf pf pcf, insert_loop b k n R p pc = Some (bf, Rf, pf, pcf) /\
    length bf = length b /\ (p <= pf <= p + n)%nat /\
    pcf = pc + Z.of_nat (pf - p).
Proof.
  induction n as [|n IH]; intros b R p pc Hlen; cbn [insert_loop].
  - exists b, R, p, pc. split_and!; auto; lia.
  - destruct (b !! p) as [[C|]|] eqn:HC.
    + destruct (strcmp (key C) k =? 0).
      * exists b, R, p, pc. split_and!; auto; lia.
      * pose proof (insert_step_length b R C p) as Hl.
        destruct (insert_step b R C p) as [b1 R1]. cbn [fst] in Hl.
        destruct (IH b1 R1 (S p) (pc + 1)) as (bf & Rf & pf & pcf & Hloop & Hlf & Hpf & Hpc);
          [lia|].
        exists bf, Rf, pf, pcf. split_and!; auto; lia.
    + exists b, R, p, pc. split_and!; auto; lia.
    + apply lookup_ge_None in HC. lia.
Qed.

Lemma back_shift_in_bounds (n : nat) :
  forall (b : bucket_array) (p : nat), (p + n <= length b)%nat ->
  exists b', back_shift b n p = Some b' /\ length b' = length b.
Proof.
  induction n as [|n IH]; intros b p Hlen; cbn [back_shift].
  - exists b. auto.
  - destruct (b !! p) as [[e|]|] eqn:He.
    + destruct (dist_from_des e =? 0); [exists b; auto|].
      destruct (IH (<[p := None]> (<[(p - 1)%nat := Some
                  (set_dist e (to_uint8 (dist_from_des e - 1)))]> b)) (S p))
        as (b' & Hb' & Hl'); [rewrite !length_insert; lia|].
      exists b'. split; [exact Hb'|]. rewrite Hl', !length_insert. reflexivity.
    + exists b. auto.
    + apply lookup_ge_None in He. lia.
Qed.

(** C8: in an array of [max_size + max_size_shift] buckets, the walks of
    lookup and removal, of insertion, and of the back-shift, started at a
    home index below [max_size], read no bucket at or after index
    [max_size + max_size_shift]: no read is out of bounds (a walk returns
    [None] at such a read), a walk ends at most [max_size_shift] buckets
    after the home index, and the bucket it ends at is read only below the
    end of the array. *)
Theorem C8_probes_in_bounds (t : hash_table) (k : list Z) (home_index : nat) :
  0 <= max_size_shift t -> 0 <= max_size t ->
  max_size t + max_size_shift t <= SIZE_MAX ->
  length (buckets t) = buckets_len (max_size t) (max_size_shift t) ->
  Z.of_nat home_index < max_size t ->
  (exists p pc,
     iterate_to_next (buckets t) k (Z.to_nat (max_size_shift t)) home_index 0
       = Some (p, pc) /\
     Z.of_nat p = Z.of_nat home_index + pc /\ 0 <= pc <= max_size_shift t /\
     (pc < max_size_shift t ->
        Z.of_nat p < max_size t + max_size_shift t /\ is_Some (buckets t !! p))) /\
  (forall X, exists b R p pc,
     insert_loop (buckets t) k (Z.to_nat (max_size_shift t)) X home_index 0
       = Some (b, R, p, pc) /\
     length b = length (buckets t) /\
     Z.of_nat p = Z.of_nat home_index + pc /\ 0 <= pc <= max_size_shift t /\
     (pc < max_size_shift t ->
        Z.of_nat p < max_size t + max_size_shift t /\ is_Some (b !! p))) /\
  (forall position, (position < length (buckets t))%nat ->
     exists t', hash_table_remove_from_position t position = Some (true, t') /\
                length (buckets t') = length (buckets t)).
Proof.
  intros Hs Hm Hfit Hlen Hhome.
  assert (HlenZ : Z.of_nat (length (buckets t)) = max_size t + max_size_shift t).
  { rewrite Hlen. unfold buckets_len. rewrite to_size_t_small; lia. }
  assert (Hb : (home_index + Z.to_nat (max_size_shift t) <= length (buckets t))%nat) by lia.
  split_and!.
  - destruct (iterate_to_next_spec (buckets t) k _ home_index 0 Hb)
      as (p & pc & Hit & Hle & Hn & Hpc & _ & _).
    exists p, pc. split; [exact Hit|]. split; [lia|]. split; [lia|].
    intros Hlt. split; [lia|]. apply lookup_lt_is_Some. lia.
  - intros X.
    destruct (insert_loop_in_bounds k _ (buckets t) X home_index 0 Hb)
      as (b & R & p & pc & Hloop & Hl & Hp & Hpc).
    exists b, R, p, pc. split; [exact Hloop|]. split; [exact Hl|]. split; [lia|].
    split; [lia|]. intros Hlt. split; [lia|]. apply lookup_lt_is_Some. lia.
  - intros position Hpos. unfold hash_table_remove_from_position.
    rewrite decide_True by exact Hpos. rewrite <- Hlen.
    destruct (back_shift_in_bounds (length (buckets t) - S position)
                (<[position := None]> (buckets t)) (S position))
      as (b' & Hb' & Hl'); [rewrite length_insert; lia|].
    rewrite Hb'. eexists. split; [reflexivity|]. cbn [buckets].
    rewrite Hl', length_insert. reflexivity.
Qed.

(** C9: [hash_table_get] returns NULL when the key is absent, and also when
    the key is present with the payload NULL: the two cases give the same
    result. *)
Theorem C9_get_null_ambiguous (t : hash_table) (k : list Z) :
  table_inv t ->
  (absent t k -> hash_table_get t k = Some NULL) /\
  (maps_to t k NULL -> hash_table_get t k = Some NULL).
Proof.
  intros Hinv. split.
  - apply hash_table_get_absent. exact Hinv.
  - apply maps_to_get. exact Hinv.
Qed.

Lemma maps_to_stored (t : hash_table) (k : list Z) (d : Z) :
  maps_to t k d <->
  exists c, stored (buckets t) c /\ strcmp (key c) k = 0 /\ data c = d.
Proof.
  split.
  - intros (i & e & He & Hk & Hd). exists (core e). split_and!; auto.
    eapply stored_core. eassumption.
  - intros (c & (i & e & He & <-) & Hk & Hd). exists i, e. auto.
Qed.

Lemma absent_stored (t : hash_table) (k : list Z) :
  absent t k <-> forall c, stored (buckets t) c -> strcmp (key c) k <> 0.
Proof. apply key_absent_stored. Qed.


Lemma count_occupied_none (b : bucket_array) :
  (forall c, ~ stored b c) -> count_occupied b = O.
Proof.
  induction b as [|x b IH]; intros H; [reflexivity|].
  destruct x as [e|].
  - exfalso. apply (H (core e)). exists O, e. auto.
  - cbn. apply IH. intros c (i & e & He & Hc). apply (H c). exists (S i), e. auto.
Qed.

Lemma strcmp_nil_strlen (s : list Z) : strcmp s [] = 0 -> strlen s = O.
Proof.
  destruct s as [|c s]; cbn; [reflexivity|]. intros ->. reflexivity.
Qed.

Lemma add_all_ok (l : list (list Z * Z)) :
  forall (m : env) (t : hash_table), state_inv m t ->
  exists t' m', add_all m t l = Some (t', m') /\ state_inv m' t' /\
    forall c, stored (buckets t') c ->
      stored (buckets t) c \/ exists k d, (k, d) ∈ l /\ strcmp (key c) k = 0.
Proof.
  induction l as [|[k d] l IH]; intros m t Hst; cbn [add_all].
  - exists t, m. split_and!; auto.
  - destruct (hash_table_add_ok m t k d Hst) as (r & t1 & m1 & Hadd & Hpost).
    rewrite Hadd.
    destruct (IH m1 t1 (ap_inv _ _ _ _ _ _ _ Hpost)) as (t' & m' & Hall & Hst' & Hsub).
    exists t', m'. split_and!; auto. intros c Hc.
    destruct (Hsub c Hc) as [Hc1|(k' & d' & Hin & Hk')].
    + destruct (ap_sub _ _ _ _ _ _ _ Hpost c Hc1) as [(_ & Hk1 & _)|(Hc0 & _)];
        [right|left; exact Hc0].
      exists k, d. split; [apply list_elem_of_here|exact Hk1].
    + right. exists k', d'. split; [apply list_elem_of_further; exact Hin|exact Hk'].
Qed.

Lemma remove_all_ok (l : list (list Z)) :
  forall (m : env) (t : hash_table), state_inv m t ->
  exists rs t' m', remove_all m t l = Some (rs, t', m') /\ state_inv m' t' /\
    (Forall (eq true) rs ->
       forall c, stored (buckets t') c ->
         stored (buckets t) c /\ forall k, k ∈ l -> strcmp (key c) k <> 0).
Proof.
  induction l as [|k l IH]; intros m t Hst; cbn [remove_all].
  - exists [], t, m. split_and!; auto. intros _ c Hc. split; [exact Hc|].
    intros k Hk. apply elem_of_nil in Hk. contradiction.
  - destruct (hash_table_remove_ok m t k Hst) as (r & t1 & m1 & Hrm & Hpost).
    rewrite Hrm.
    destruct (IH m1 t1 (rm_inv _ _ _ _ _ _ Hpost)) as (rs & t' & m' & Hall & Hst' & Hsub).
    rewrite Hall. exists (r :: rs), t', m'. split_and!; auto.
    intros Hrs c Hc. apply Forall_cons in Hrs. destruct Hrs as (<- & Hrs).
    destruct (Hsub Hrs c Hc) as (Hc1 & Hne).
    destruct (rm_sub _ _ _ _ _ _ Hpost c Hc1) as (Hc0 & Hk).
    split; [exact Hc0|]. intros k' Hk'. apply elem_of_cons in Hk'.
    destruct Hk' as [->|Hk']; auto.
Qed.


(** ** The load factors *)

Lemma float_round_small (x : Z) : 0 <= x < 2 ^ 24 -> float_round x = x.
Proof.
  intros Hx. unfold float_round. cbv zeta.
  destruct (decide (x = 0)) as [->|Hne]; [reflexivity|].
  assert (Z.log2 x < 24) by (apply Z.log2_lt_pow2; lia).
  rewrite (proj2 (Z.leb_le _ _)) by lia. reflexivity.
Qed.

Lemma float_round_exact (q k : Z) :
  0 <= q < 2 ^ 24 -> 0 <= k -> float_round (q * 2 ^ k) = q * 2 ^ k.
Proof.
  intros Hq Hk. destruct (decide (q = 0)) as [->|Hne]; [reflexivity|].
  unfold float_round. cbv zeta.
  assert (Hlog : Z.log2 (q * 2 ^ k) = k + Z.log2 q) by (apply Z.log2_mul_pow2; lia).
  assert (Hlq : Z.log2 q < 24) by (apply Z.log2_lt_pow2; lia).
  pose proof (Z.log2_nonneg q) as Hl0.
  rewrite Hlog. set (e := k + Z.log2 q - 23).
  destruct (e <=? 0) eqn:He; zb; [reflexivity|].
  assert (Hke : q * 2 ^ k = q * 2 ^ (k - e) * 2 ^ e).
  { rewrite <- Z.mul_assoc, <- Z.pow_add_r by lia. do 2 f_equal. lia. }
  assert (Hpe : 0 < 2 ^ e) by (apply Z.pow_pos_nonneg; lia).
  assert (Hdiv : (q * 2 ^ k) / 2 ^ e = q * 2 ^ (k - e)).
  { rewrite Hke. apply Z.div_mul. lia. }
  rewrite Z.shiftr_div_pow2 by lia. rewrite Hdiv. rewrite !Z.shiftl_mul_pow2 by lia.
  rewrite <- Hke. rewrite Z.sub_diag.
  assert (Hhalf : 0 < 1 * 2 ^ (e - 1)) by (apply Z.mul_pos_pos; [lia|apply Z.pow_pos_nonneg; lia]).
  rewrite Z.gtb_ltb. rewrite (proj2 (Z.ltb_ge _ _)) by lia.
  rewrite (proj2 (Z.eqb_neq _ _)) by lia. cbn [orb andb]. lia.
Qed.

Lemma pow2_mod5 (n : nat) : 2 ^ Z.of_nat n mod 5 <> 0.
Proof.
  induction n as [|n IH]; [discriminate|].
  rewrite Nat2Z.inj_succ, Z.pow_succ_r by lia.
  intros H. apply IH. clear IH. revert H. generalize (2 ^ Z.of_nat n). intros a H.
  apply Z.mod_divide in H; [|lia]. destruct H as (c & Hc).
  apply Z.mod_divide; [lia|].
  assert (Hmod : c mod 2 = 0).
  { assert (Hev : (c * 5) mod 2 = 0) by (rewrite <- Hc, Z.mul_comm; apply Z.mod_mul; lia).
    rewrite Z.mul_mod in Hev by lia. change (5 mod 2) with 1 in Hev.
    rewrite Z.mul_1_r, Z.mod_mod in Hev by lia. exact Hev. }
  apply Z.mod_divide in Hmod; [|lia]. destruct Hmod as (c' & ->).
  exists c'. lia.
Qed.

Lemma shrink_threshold (x s : Z) :
  0 <= x -> 0 <= s <= 26 ->
  (x * 2 ^ 27 < 13421773 * 2 ^ s <-> 10 * x < 2 ^ s).
Proof.
  intros Hx Hs.
  assert (Hpos : 0 < 2 ^ s) by (apply Z.pow_pos_nonneg; lia).
  assert (Hle : 2 ^ s <= 2 ^ 26) by (apply Z.pow_le_mono_r; lia).
  assert (Hne : 10 * x <> 2 ^ s).
  { intros Heq. apply (pow2_mod5 (Z.to_nat s)). rewrite Z2Nat.id by lia.
    rewrite <- Heq. replace (10 * x) with (2 * x * 5) by lia. apply Z.mod_mul. lia. }
  change (2 ^ 27) with 134217728. change (2 ^ 26) with 67108864 in Hle. lia.
Qed.

(** ** Runs without a failed allocation *)

Lemma map_lookup_strcmp (s : list (list Z * Z)) (k k' : list Z) :
  strcmp k k' = 0 -> map_lookup s k = map_lookup s k'.
Proof.
  intros Hk. induction s as [|[k1 d] s IH]; cbn [map_lookup]; [reflexivity|].
  pose proof (strcmp_key_equiv k k' k1 Hk) as Heq.
  destruct (strcmp k1 k =? 0) eqn:H1; destruct (strcmp k1 k' =? 0) eqn:H2; zb;
    try reflexivity; try exact IH; tauto.
Qed.

Lemma map_lookup_remove_same (s : list (list Z * Z)) (k k' : list Z) :
  strcmp k k' = 0 -> map_lookup (map_remove s k) k' = None.
Proof.
  intros Hk. induction s as [|[k1 d] s IH]; cbn [map_remove map_lookup]; [reflexivity|].
  destruct (strcmp k1 k =? 0) eqn:H1; zb; [exact IH|]. cbn [map_lookup].
  destruct (strcmp k1 k' =? 0) eqn:H2; zb; [|exact IH].
  exfalso. apply H1. apply (strcmp_key_equiv k k' k1 Hk). exact H2.
Qed.

Lemma map_lookup_remove_other (s : list (list Z * Z)) (k k' : list Z) :
  strcmp k k' <> 0 -> map_lookup (map_remove s k) k' = map_lookup s k'.
Proof.
  intros Hk. induction s as [|[k1 d] s IH]; cbn [map_remove map_lookup]; [reflexivity|].
  destruct (strcmp k1 k =? 0) eqn:H1; zb.
  - destruct (strcmp k1 k' =? 0) eqn:H2; zb; [|exact IH].
    exfalso. apply Hk. apply strcmp_trans with k1; [apply strcmp_sym|]; assumption.
  - cbn [map_lookup]. destruct (strcmp k1 k' =? 0); [reflexivity|exact IH].
Qed.

Lemma map_remove_absent (s : list (list Z * Z)) (k : list Z) :
  map_lookup s k = None -> map_remove s k = s.
Proof.
  induction s as [|[k1 d] s IH]; cbn [map_remove map_lookup]; [reflexivity|].
  destruct (strcmp k1 k =? 0); [discriminate|]. intros H. rewrite IH; auto.
Qed.

Lemma map_remove_present (s : list (list Z * Z)) (k : list Z) (d : Z) :
  map_wf s -> map_lookup s k = Some d -> S (length (map_remove s k)) = length s.
Proof.
  induction s as [|[k1 d1] s IH]; cbn [map_remove map_lookup map_wf]; [discriminate|].
  intros (Hnone & Hwf). destruct (strcmp k1 k =? 0) eqn:H1; zb.
  - intros _. rewrite map_remove_absent; [reflexivity|].
    rewrite <- (map_lookup_strcmp s k1 k H1). exact Hnone.
  - intros H. cbn [length]. rewrite (IH Hwf H). reflexivity.
Qed.

Lemma map_wf_remove (s : list (list Z * Z)) (k : list Z) :
  map_wf s -> map_wf (map_remove s k).
Proof.
  induction s as [|[k1 d1] s IH]; cbn [map_remove map_wf]; [auto|].
  intros (Hnone & Hwf). destruct (strcmp k1 k =? 0) eqn:H1; zb; [auto|].
  cbn [map_wf]. split; [|auto].
  rewrite map_lookup_remove_other; [exact Hnone|].
  intros H. apply H1. apply strcmp_sym. exact H.
Qed.

Lemma holds_absent (t : hash_table) (s : list (list Z * Z)) (k : list Z) :
  holds t s -> (absent t k <-> map_lookup s k = None).
Proof.
  intros (Hmap & _). split.
  - intros Habs. destruct (map_lookup s k) as [d|] eqn:Hl; [|reflexivity].
    apply Hmap in Hl. destruct Hl as (i & e & He & Hk & _). exfalso. exact (Habs _ _ He Hk).
  - intros Hl i e He Hk.
    assert (Hm : maps_to t k (data e)) by (exists i, e; auto).
    apply Hmap in Hm. congruence.
Qed.

Lemma run_inv (f0 : nat) (m : env) (t : hash_table) (s : list (list Z * Z)) :
  run f0 m t s -> state_inv m t /\ (f0 <= alloc_failures m)%nat.
Proof.
  induction 1 as [m t m' Hf Hc|m t s k d r t' m' _ (IH & IHf) Hadd
                 |m t s k r t' m' _ (IH & IHf) Hrm].
  - pose proof (hash_table_create_ok m) as H. rewrite Hc in H.
    destruct H as (Hst & _ & _ & _ & _ & Hnf). split; [exact Hst|lia].
  - destruct (hash_table_add_ok m t k d IH) as (r0 & t0 & m0 & Heq & Hpost).
    rewrite Hadd in Heq. injection Heq as <- <- <-.
    split; [exact (ap_inv _ _ _ _ _ _ _ Hpost)|].
    pose proof (ap_mono _ _ _ _ _ _ _ Hpost). lia.
  - destruct (hash_table_remove_ok m t k IH) as (r0 & t0 & m0 & Heq & Hpost).
    rewrite Hrm in Heq. injection Heq as <- <- <-.
    split; [exact (rm_inv _ _ _ _ _ _ Hpost)|].
    pose proof (rm_mono _ _ _ _ _ _ Hpost). lia.
Qed.

Lemma run_holds (f0 : nat) (m : env) (t : hash_table) (s : list (list Z * Z)) :
  run f0 m t s -> alloc_failures m = f0 -> holds t s.
Proof.
  induction 1 as [m t m' Hf Hc|m t s k d r t' m' Hrun IH Hadd
                 |m t s k r t' m' Hrun IH Hrm]; intros Hnf.
  - pose proof (hash_table_create_ok m) as H. rewrite Hc in H.
    destruct H as (_ & Hsz & _ & Hempty & _). split; [|split; [exact Hsz|exact I]].
    intros k d. cbn [map_lookup]. split; [|discriminate].
    intros Hm. apply maps_to_stored in Hm. destruct Hm as (c & Hc' & _).
    exfalso. exact (Hempty c Hc').
  - destruct (run_inv _ _ _ _ Hrun) as (Hst & Hf0).
    destruct (hash_table_add_ok m t k d Hst) as (r0 & t0 & m0 & Heq & Hpost).
    rewrite Hadd in Heq. injection Heq as <- <- <-.
    pose proof (ap_mono _ _ _ _ _ _ _ Hpost) as Hmono.
    specialize (IH ltac:(lia)).
    destruct (ap_exact _ _ _ _ _ _ _ Hpost ltac:(lia)) as (-> & Hkeep & Hnew & Hrep).
    pose proof (ap_in _ _ _ _ _ _ _ Hpost eq_refl) as Hin.
    pose proof (ap_sub _ _ _ _ _ _ _ Hpost) as Hsub.
    pose proof IH as (Hmap & Hsz & Hwf).
    split; [|split].
    + intros k' d'. unfold map_add. cbn [map_lookup].
      destruct (strcmp k k' =? 0) eqn:Hkk; zb.
      * split.
        -- intros Hm. apply maps_to_stored in Hm. destruct Hm as (c & Hc & Hkc & Hd).
           destruct (Hsub c Hc) as [(_ & _ & Hdc)|(_ & Hne)]; [congruence|].
           exfalso. apply (Hne eq_refl). apply (strcmp_key_equiv k k' (key c) Hkk). exact Hkc.
        -- intros Heq. injection Heq as <-.
           destruct Hin as (i & e & He & Hke & Hde). exists i, e. split_and!; auto.
           apply (strcmp_key_equiv k k' (key e) Hkk). exact Hke.
      * rewrite map_lookup_remove_other by exact Hkk. rewrite <- Hmap.
        rewrite !maps_to_stored. split.
        -- intros (c & Hc & Hkc & Hd). exists c. split_and!; auto.
           destruct (Hsub c Hc) as [(_ & Hkc' & _)|(Hc' & _)]; [|exact Hc'].
           exfalso. apply Hkk. apply strcmp_trans with (key c); [apply strcmp_sym|]; assumption.
        -- intros (c & Hc & Hkc & Hd). exists c. split_and!; auto. apply Hkeep; [exact Hc|].
           intros Hkc'. apply Hkk.
           apply strcmp_trans with (key c); [apply strcmp_sym|]; assumption.
    + unfold map_add. cbn [length].
      destruct (map_lookup s k) as [d0|] eqn:Hl.
      * pose proof (proj2 (Hmap k d0) Hl) as Hm. apply maps_to_stored in Hm.
        destruct Hm as (c & Hc & Hkc & _). destruct (Hrep c Hc Hkc) as (Hsz' & _).
        rewrite Hsz', Hsz. rewrite <- (map_remove_present s k d0 Hwf Hl). reflexivity.
      * destruct (Hnew (proj2 (holds_absent t s k IH) Hl)) as (Hsz' & _).
        rewrite Hsz', Hsz, (map_remove_absent s k Hl). lia.
    + unfold map_add. cbn [map_wf]. split; [|apply map_wf_remove; exact Hwf].
      apply map_lookup_remove_same. apply strcmp_refl.
  - destruct (run_inv _ _ _ _ Hrun) as (Hst & Hf0).
    destruct (hash_table_remove_ok m t k Hst) as (r0 & t0 & m0 & Heq & Hpost).
    rewrite Hrm in Heq. injection Heq as <- <- <-.
    pose proof (rm_mono _ _ _ _ _ _ Hpost) as Hmono.
    specialize (IH ltac:(lia)).
    destruct (rm_exact _ _ _ _ _ _ Hpost ltac:(lia)) as (Hkeep & Habs & Hpres).
    pose proof (rm_sub _ _ _ _ _ _ Hpost) as Hsub.
    pose proof IH as (Hmap & Hsz & Hwf).
    destruct (map_lookup s k) as [d0|] eqn:Hl.
    + (* the key was present *)
      destruct Hpres as (-> & Hsz').
      { intros Ha. apply (holds_absent t s k IH) in Ha. congruence. }
      split; [|split].
      * intros k' d'. destruct (strcmp k k' =? 0) eqn:Hkk; zb.
        -- rewrite (map_lookup_remove_same s k k' Hkk). split; [|discriminate].
           intros Hm. apply maps_to_stored in Hm. destruct Hm as (c & Hc & Hkc & _).
           destruct (Hsub c Hc) as (_ & Hne). exfalso. apply (Hne eq_refl).
           apply (strcmp_key_equiv k k' (key c) Hkk). exact Hkc.
        -- rewrite map_lookup_remove_other by exact Hkk. rewrite <- Hmap.
           rewrite !maps_to_stored. split.
           ++ intros (c & Hc & Hkc & Hd). exists c. split_and!; auto. apply Hsub. exact Hc.
           ++ intros (c & Hc & Hkc & Hd). exists c. split_and!; auto. apply Hkeep; [exact Hc|].
              intros Hkc'. apply Hkk.
              apply strcmp_trans with (key c); [apply strcmp_sym|]; assumption.
      * rewrite Hsz', Hsz. rewrite <- (map_remove_present s k d0 Hwf Hl). lia.
      * apply map_wf_remove. exact Hwf.
    + (* the key was absent *)
      pose proof (proj2 (holds_absent t s k IH) Hl) as Ha.
      destruct (Habs Ha) as (-> & Hsz').
      split; [|split; [congruence|exact Hwf]].
      intros k' d'. rewrite <- Hmap. rewrite !maps_to_stored. split.
      * intros (c & Hc & Hkc & Hd). exists c. split_and!; auto. apply Hsub. exact Hc.
      * intros (c & Hc & Hkc & Hd). exists c. split_and!; auto. apply Hkeep; [exact Hc|].
        destruct Hc as (i & e & He & <-). exact (Ha _ _ He).
Qed.

(** X21: When no allocation has failed since the table was created, the table
    is the map of the calls: [hash_table_get] returns the payload that was
    last added for a key that has not been removed since, NULL for every
    other key, and [hash_table_get_size] is the number of keys. *)
Theorem run_without_failure (f0 : nat) (m : env) (t : hash_table)
    (s : list (list Z * Z)) :
  run f0 m t s -> alloc_failures m = f0 ->
  (forall k, hash_table_get t k
             = Some (match map_lookup s k with Some d => d | None => NULL end)) /\
  hash_table_get_size t = Z.of_nat (length s).
Proof.
  intros Hrun Hnf. pose proof (run_holds _ _ _ _ Hrun Hnf) as Hh.
  destruct (run_inv _ _ _ _ Hrun) as ((Hinv & _) & _).
  split; [|exact (proj1 (proj2 Hh))].
  intros k. destruct (map_lookup s k) as [d|] eqn:Hl.
  - apply maps_to_get; [exact Hinv|]. apply (proj1 Hh). exact Hl.
  - apply hash_table_get_absent; [exact Hinv|]. apply (holds_absent t s k Hh). exact Hl.
Qed.

(** * Further properties of the operations *)

Lemma add_post_of (m : env) (t : hash_table) (k : list Z) (d : Z)
    (r : bool) (t' : hash_table) (m' : env) :
  reachable m t -> hash_table_add m t k d = Some (r, t', m') ->
  add_post m t k d r t' m'.
Proof.
  intros Hr Hadd.
  destruct (hash_table_add_ok m t k d (reachable_inv m t Hr)) as (r0 & t0 & m0 & Heq & Hpost).
  rewrite Hadd in Heq. injection Heq as <- <- <-. exact Hpost.
Qed.

Lemma remove_post_of (m : env) (t : hash_table) (k : list Z)
    (r : bool) (t' : hash_table) (m' : env) :
  reachable m t -> hash_table_remove m t k = Some (r, t', m') ->
  remove_post m t k r t' m'.
Proof.
  intros Hr Hrm.
  destruct (hash_table_remove_ok m t k (reachable_inv m t Hr)) as (r0 & t0 & m0 & Heq & Hpost).
  rewrite Hrm in Heq. injection Heq as <- <- <-. exact Hpost.
Qed.

(** The result of a lookup depends on the entries with that key only. *)
Lemma hash_table_get_frame (t t' : hash_table) (k : list Z) :
  table_inv t -> table_inv t' ->
  (forall c, strcmp (key c) k = 0 -> (stored (buckets t) c <-> stored (buckets t') c)) ->
  hash_table_get t' k = hash_table_get t k.
Proof.
  intros Hinv Hinv' Hst.
  destruct (key_absent_dec (buckets t) k) as [Habs|(i & e & He & Hk)].
  - rewrite (hash_table_get_absent t Hinv k Habs).
    apply hash_table_get_absent; [exact Hinv'|].
    apply absent_stored. intros c Hc Hkc.
    apply (proj1 (absent_stored t k) Habs c); [|exact Hkc]. apply Hst; assumption.
  - assert (Hm : maps_to t k (data e)) by (exists i, e; auto).
    rewrite (maps_to_get t k _ Hinv Hm). apply maps_to_get; [exact Hinv'|].
    apply maps_to_stored. apply maps_to_stored in Hm.
    destruct Hm as (c & Hc & Hkc & Hd). exists c. split_and!; auto. apply Hst; assumption.
Qed.

(** A lookup in a table whose entries all were in another table returns
    what it returned there, or NULL. *)
Lemma hash_table_get_sub (t t' : hash_table) (k : list Z) :
  table_inv t -> table_inv t' ->
  (forall c, stored (buckets t') c -> stored (buckets t) c) ->
  hash_table_get t' k = hash_table_get t k \/ hash_table_get t' k = Some NULL.
Proof.
  intros Hinv Hinv' Hsub.
  destruct (key_absent_dec (buckets t') k) as [Habs|(i & e & He & Hk)].
  - right. apply hash_table_get_absent; assumption.
  - left. assert (Hm' : maps_to t' k (data e)) by (exists i, e; auto).
    rewrite (maps_to_get t' k _ Hinv' Hm'). symmetry. apply maps_to_get; [exact Hinv|].
    apply maps_to_stored. apply maps_to_stored in Hm'.
    destruct Hm' as (c & Hc & Hkc & Hd). exists c. split_and!; auto.
Qed.

(** ** Creation *)

(** X1: [hash_table_create] returns a table exactly when its two allocations
    succeed.  The table then has 16 home buckets and a tail of 4, all of
    them NULL; its size is 0 and [hash_table_get] returns NULL for every
    key. *)
Theorem hash_table_create_empty (m : env) :
  match hash_table_create m with
  | (Some t, m') =>
      alloc_failures m' = alloc_failures m /\
      max_size_shift t = 4 /\ max_size t = 16 /\
      buckets t = replicate 20 None /\
      hash_table_get_size t = 0 /\
      forall k, hash_table_get t k = Some NULL
  | (None, m') => (alloc_failures m < alloc_failures m')%nat
  end.
Proof.
  pose proof (hash_table_create_ok m) as Hok.
  destruct (hash_table_create m) as [[t|] m'] eqn:Hc; [|exact Hok].
  destruct Hok as ((Hinv & _) & Hsz & Hsh & Hempty & _ & Hnf).
  unfold hash_table_create in Hc.
  destruct (alloc m) as [[|] m1]; [|discriminate].
  unfold hash_table_buckets_alloc, HASH_TABLE_INITIAL_SHIFT in Hc.
  cbn [max_size max_size_shift] in Hc. change (Z.shiftl 1 4) with 16 in Hc.
  assert (Hn : to_size_t (16 + 4) = 20).
  { rewrite to_size_t_small; [reflexivity|]. unfold SIZE_MAX.
    assert (2 ^ 16 <= 2 ^ word_bits) by (apply Z.pow_le_mono_r; lia). lia. }
  rewrite Hn in Hc. destruct (calloc sizeof_ptr 20 m1) as [[|] m2]; [|discriminate].
  injection Hc as <- <-. cbn [set_buckets max_size_shift max_size buckets] in *.
  split_and!; try reflexivity; try assumption.
  intros k. apply hash_table_get_absent; [exact Hinv|].
  apply absent_stored. intros c Hc _. exact (Hempty c Hc).
Qed.

(** ** Addition *)

(** X2: Whenever [hash_table_add] returns true, a lookup of the key right after
    the call returns the payload, also when an allocation failed during the
    call. *)
Theorem hash_table_add_true_get (m : env) (t : hash_table) (k : list Z) (d : Z)
    (t' : hash_table) (m' : env) :
  reachable m t -> hash_table_add m t k d = Some (true, t', m') ->
  hash_table_get t' k = Some d.
Proof.
  intros Hr Hadd. pose proof (add_post_of _ _ _ _ _ _ _ Hr Hadd) as Hpost.
  apply maps_to_get; [exact (proj1 (ap_inv _ _ _ _ _ _ _ Hpost))|].
  exact (ap_in _ _ _ _ _ _ _ Hpost eq_refl).
Qed.

(** X3: When no allocation fails during [hash_table_add], the call returns
    true, the lookup of every other key returns what it returned before,
    and a key that was absent makes the size grow by one and frees
    nothing. *)
Theorem hash_table_add_frame (m : env) (t : hash_table) (k : list Z) (d : Z)
    (r : bool) (t' : hash_table) (m' : env) :
  reachable m t -> hash_table_add m t k d = Some (r, t', m') ->
  alloc_failures m' = alloc_failures m ->
  r = true /\
  (forall k', strcmp k k' <> 0 -> hash_table_get t' k' = hash_table_get t k') /\
  (absent t k ->
     hash_table_get_size t' = hash_table_get_size t + 1 /\ freed m' = freed m).
Proof.
  intros Hr Hadd Hnf. pose proof (add_post_of _ _ _ _ _ _ _ Hr Hadd) as Hpost.
  destruct (ap_exact _ _ _ _ _ _ _ Hpost Hnf) as (-> & Hkeep & Hnew & _).
  pose proof (ap_sub _ _ _ _ _ _ _ Hpost) as Hsub.
  split; [reflexivity|]. split; [|exact Hnew].
  intros k' Hkk. apply hash_table_get_frame.
  - exact (proj1 (reachable_inv m t Hr)).
  - exact (proj1 (ap_inv _ _ _ _ _ _ _ Hpost)).
  - intros c Hkc.
    assert (Hne : strcmp (key c) k <> 0).
    { intros Hk. apply Hkk. apply strcmp_trans with (key c); [apply strcmp_sym|]; assumption. }
    split; [intros Hc; apply Hkeep; assumption|].
    intros Hc. destruct (Hsub c Hc) as [(_ & Hk & _)|(Hc' & _)]; [contradiction|exact Hc'].
Qed.

(** X4: [hash_table_add] returns false only when an allocation failed during
    the call.  The table then holds no new entry: the lookup of a key
    returns what it returned before the call, or NULL; and the table has
    not shrunk. *)
Theorem hash_table_add_false (m : env) (t : hash_table) (k : list Z) (d : Z)
    (t' : hash_table) (m' : env) :
  reachable m t -> hash_table_add m t k d = Some (false, t', m') ->
  (alloc_failures m < alloc_failures m')%nat /\
  (forall k', hash_table_get t' k' = hash_table_get t k' \/
              hash_table_get t' k' = Some NULL) /\
  max_size_shift t <= max_size_shift t'.
Proof.
  intros Hr Hadd. pose proof (add_post_of _ _ _ _ _ _ _ Hr Hadd) as Hpost.
  split; [exact (ap_fail _ _ _ _ _ _ _ Hpost eq_refl)|].
  split; [|exact (ap_shift _ _ _ _ _ _ _ Hpost)].
  intros k'. apply hash_table_get_sub.
  - exact (proj1 (reachable_inv m t Hr)).
  - exact (proj1 (ap_inv _ _ _ _ _ _ _ Hpost)).
  - intros c Hc. destruct (ap_sub _ _ _ _ _ _ _ Hpost c Hc) as [(Hf & _)|(Hc' & _)];
      [discriminate|exact Hc'].
Qed.

(** ** Removal *)

(** X5: Whenever [hash_table_remove] returns true, the key was in the table,
    its entry has been freed, and a lookup of the key right after the call
    returns NULL, also when an allocation failed during the call. *)
Theorem hash_table_remove_true (m : env) (t : hash_table) (k : list Z)
    (t' : hash_table) (m' : env) :
  reachable m t -> hash_table_remove m t k = Some (true, t', m') ->
  (exists i e, buckets t !! i = Some (Some e) /\ strcmp (key e) k = 0 /\
               freed m' = ptr e :: freed m) /\
  hash_table_get t' k = Some NULL.
Proof.
  intros Hr Hrm. pose proof (remove_post_of _ _ _ _ _ _ Hr Hrm) as Hpost.
  split.
  - destruct (rm_true _ _ _ _ _ _ Hpost eq_refl) as (c & (i & e & He & <-) & Hk & Hfr).
    exists i, e. auto.
  - apply hash_table_get_absent; [exact (proj1 (rm_inv _ _ _ _ _ _ Hpost))|].
    apply absent_stored. intros c Hc.
    exact (proj2 (rm_sub _ _ _ _ _ _ Hpost c Hc) eq_refl).
Qed.

(** X6: The removal of a key that is not in the table returns false.  When no
    allocation failed during the call (the table may have been shrunk), the
    size and the result of every lookup are unchanged. *)
Theorem hash_table_remove_absent (m : env) (t : hash_table) (k : list Z) :
  reachable m t -> absent t k ->
  exists t' m', hash_table_remove m t k = Some (false, t', m') /\
    (alloc_failures m' = alloc_failures m ->
       hash_table_get_size t' = hash_table_get_size t /\
       forall k', hash_table_get t' k' = hash_table_get t k').
Proof.
  intros Hr Habs.
  destruct (hash_table_remove_ok m t k (reachable_inv m t Hr)) as (r & t' & m' & Hrm & Hpost).
  destruct r.
  - exfalso. destruct (rm_true _ _ _ _ _ _ Hpost eq_refl) as (c & Hc & Hk & _).
    exact (proj1 (absent_stored t k) Habs c Hc Hk).
  - exists t', m'. split; [exact Hrm|]. intros Hnf.
    destruct (rm_exact _ _ _ _ _ _ Hpost Hnf) as (Hkeep & Hsame & _).
    split; [exact (proj2 (Hsame Habs))|].
    intros k'. apply hash_table_get_frame.
    + exact (proj1 (reachable_inv m t Hr)).
    + exact (proj1 (rm_inv _ _ _ _ _ _ Hpost)).
    + intros c _. split.
      * intros Hc. apply Hkeep; [exact Hc|]. exact (proj1 (absent_stored t k) Habs c Hc).
      * intros Hc. exact (proj1 (rm_sub _ _ _ _ _ _ Hpost c Hc)).
Qed.

(** X7: When no allocation fails during the removal of a key that is in the
    table, the call returns true, the size drops by one, and the lookup of
    every other key returns what it returned before. *)
Theorem hash_table_remove_frame (m : env) (t : hash_table) (k : list Z) (d : Z)
    (r : bool) (t' : hash_table) (m' : env) :
  reachable m t -> maps_to t k d ->
  hash_table_remove m t k = Some (r, t', m') ->
  alloc_failures m' = alloc_failures m ->
  r = true /\
  hash_table_get_size t' = hash_table_get_size t - 1 /\
  (forall k', strcmp k k' <> 0 -> hash_table_get t' k' = hash_table_get t k').
Proof.
  intros Hr Hm Hrm Hnf. pose proof (remove_post_of _ _ _ _ _ _ Hr Hrm) as Hpost.
  destruct (rm_exact _ _ _ _ _ _ Hpost Hnf) as (Hkeep & _ & Hpres).
  destruct Hpres as (-> & Hsz).
  { intros Habs. destruct Hm as (i & e & He & Hk & _). exact (Habs _ _ He Hk). }
  split; [reflexivity|]. split; [exact Hsz|].
  intros k' Hkk. apply hash_table_get_frame.
  - exact (proj1 (reachable_inv m t Hr)).
  - exact (proj1 (rm_inv _ _ _ _ _ _ Hpost)).
  - intros c Hkc. split.
    + intros Hc. apply Hkeep; [exact Hc|]. intros Hk. apply Hkk.
      apply strcmp_trans with (key c); [apply strcmp_sym|]; assumption.
    + intros Hc. exact (proj1 (rm_sub _ _ _ _ _ _ Hpost c Hc)).
Qed.

(** X8: [hash_table_remove] returns false only when the key is not in the
    table or an allocation failed during the call (the shrink that precedes
    the lookup).  The table then holds no new entry: the lookup of a key
    returns what it returned before the call, or NULL. *)
Theorem hash_table_remove_false (m : env) (t : hash_table) (k : list Z)
    (t' : hash_table) (m' : env) :
  reachable m t -> hash_table_remove m t k = Some (false, t', m') ->
  (absent t k \/ (alloc_failures m < alloc_failures m')%nat) /\
  (forall k', hash_table_get t' k' = hash_table_get t k' \/
              hash_table_get t' k' = Some NULL).
Proof.
  intros Hr Hrm. pose proof (remove_post_of _ _ _ _ _ _ Hr Hrm) as Hpost.
  split.
  - destruct (key_absent_dec (buckets t) k) as [Habs|(i & e & He & Hk)]; [left; exact Habs|].
    right. pose proof (rm_mono _ _ _ _ _ _ Hpost) as Hmono.
    destruct (decide (alloc_failures m' = alloc_failures m)) as [Hnf|Hne]; [|lia].
    destruct (rm_exact _ _ _ _ _ _ Hpost Hnf) as (_ & _ & Hpres).
    destruct Hpres as (Hf & _); [|discriminate].
    intros Habs. exact (Habs _ _ He Hk).
  - intros k'. apply hash_table_get_sub.
    + exact (proj1 (reachable_inv m t Hr)).
    + exact (proj1 (rm_inv _ _ _ _ _ _ Hpost)).
    + intros c Hc. exact (proj1 (rm_sub _ _ _ _ _ _ Hpost c Hc)).
Qed.

(** X9: A key that has been removed cannot be removed again: the second call
    returns false, whatever the allocator does. *)
Theorem hash_table_remove_twice (m : env) (t : hash_table) (k : list Z)
    (t1 : hash_table) (m1 : env) (r2 : bool) (t2 : hash_table) (m2 : env) :
  reachable m t -> hash_table_remove m t k = Some (true, t1, m1) ->
  hash_table_remove m1 t1 k = Some (r2, t2, m2) ->
  r2 = false.
Proof.
  intros Hr Hrm1 Hrm2. pose proof (remove_post_of _ _ _ _ _ _ Hr Hrm1) as Hpost1.
  assert (Hr1 : reachable m1 t1) by (eapply reach_remove; eassumption).
  pose proof (remove_post_of _ _ _ _ _ _ Hr1 Hrm2) as Hpost2.
  destruct r2; [exfalso|reflexivity].
  destruct (rm_true _ _ _ _ _ _ Hpost2 eq_refl) as (c & Hc & Hk & _).
  exact (proj2 (rm_sub _ _ _ _ _ _ Hpost1 c Hc) eq_refl Hk).
Qed.

(** X10: Adding a key that is not in the table and removing it again, with no
    failed allocation, gives back the contents of the table: both calls
    return true, and the size and the result of every lookup are those of
    before the two calls. *)
Theorem hash_table_add_remove (m : env) (t : hash_table) (k : list Z) (d : Z)
    (r1 : bool) (t1 : hash_table) (m1 : env)
    (r2 : bool) (t2 : hash_table) (m2 : env) :
  reachable m t -> absent t k ->
  hash_table_add m t k d = Some (r1, t1, m1) ->
  hash_table_remove m1 t1 k = Some (r2, t2, m2) ->
  alloc_failures m2 = alloc_failures m ->
  r1 = true /\ r2 = true /\
  hash_table_get_size t2 = hash_table_get_size t /\
  forall k', hash_table_get t2 k' = hash_table_get t k'.
Proof.
  intros Hr Habs Hadd Hrm Hnf.
  pose proof (add_post_of _ _ _ _ _ _ _ Hr Hadd) as Hp1.
  assert (Hr1 : reachable m1 t1) by (eapply reach_add; eassumption).
  pose proof (remove_post_of _ _ _ _ _ _ Hr1 Hrm) as Hp2.
  pose proof (ap_mono _ _ _ _ _ _ _ Hp1) as Hm1. pose proof (rm_mono _ _ _ _ _ _ Hp2) as Hm2.
  destruct (ap_exact _ _ _ _ _ _ _ Hp1 ltac:(lia)) as (-> & Hkeep1 & Hnew1 & _).
  destruct (Hnew1 Habs) as (Hsz1 & _).
  destruct (rm_exact _ _ _ _ _ _ Hp2 ltac:(lia)) as (Hkeep2 & _ & Hpres2).
  destruct Hpres2 as (-> & Hsz2).
  { intros Habs1. destruct (ap_in _ _ _ _ _ _ _ Hp1 eq_refl) as (i & e & He & Hk & _).
    exact (Habs1 _ _ He Hk). }
  split; [reflexivity|]. split; [reflexivity|].
  split; [unfold hash_table_get_size in *; lia|].
  intros k'. apply hash_table_get_frame.
  - exact (proj1 (reachable_inv m t Hr)).
  - exact (proj1 (rm_inv _ _ _ _ _ _ Hp2)).
  - intros c _. split.
    + intros Hc. pose proof (proj1 (absent_stored t k) Habs c Hc) as Hne.
      apply Hkeep2; [|exact Hne]. apply Hkeep1; assumption.
    + intros Hc. destruct (rm_sub _ _ _ _ _ _ Hp2 c Hc) as (Hc1 & Hne).
      destruct (ap_sub _ _ _ _ _ _ _ Hp1 c Hc1) as [(_ & Hk & _)|(Hc0 & _)];
        [exfalso; exact (Hne eq_refl Hk)|exact Hc0].
Qed.

(** ** What every reachable table looks like *)

Lemma entries_cons (x : option hash_table_entry) (b : bucket_array) :
  entries (x :: b) = match x with Some e => e :: entries b | None => entries b end.
Proof. destruct x; reflexivity. Qed.

Lemma count_occupied_entries (b : bucket_array) :
  count_occupied b = length (entries b).
Proof.
  induction b as [|x b IH]; [reflexivity|].
  rewrite entries_cons. destruct x; cbn [count_occupied length]; rewrite IH; reflexivity.
Qed.

Lemma elem_of_entries (b : bucket_array) (e : hash_table_entry) :
  e ∈ entries b <-> exists i, b !! i = Some (Some e).
Proof.
  unfold entries. rewrite list_elem_of_omap. split.
  - intros (x & Hx & Hid). apply list_elem_of_lookup in Hx. destruct Hx as (i & Hi).
    exists i. cbn in Hid. subst x. exact Hi.
  - intros (i & Hi). exists (Some e). split; [|reflexivity].
    apply list_elem_of_lookup. exists i. exact Hi.
Qed.

(** X11: The capacity of a reachable table is a power of two, at least 16; the
    array has exactly [max_size + max_size_shift] buckets, and its size in
    bytes fits a [size_t]. *)
Theorem reachable_capacity (m : env) (t : hash_table) :
  reachable m t ->
  4 <= max_size_shift t < word_bits /\
  max_size t = 2 ^ max_size_shift t /\
  Z.of_nat (length (buckets t)) = max_size t + max_size_shift t /\
  sizeof_ptr * (max_size t + max_size_shift t) <= SIZE_MAX.
Proof.
  intros Hr. destruct (reachable_inv m t Hr) as (Hinv & _).
  pose proof (inv_shift_range t Hinv). pose proof (inv_shift_lt_word t Hinv).
  pose proof (inv_length_Z t Hinv) as Hlen. rewrite <- (inv_size t Hinv) in Hlen.
  split_and!; try lia; [exact (inv_size t Hinv)|exact (inv_fits t Hinv)].
Qed.

(** X12: [hash_table_get_size] is the number of occupied buckets of a reachable
    table: the counter never drifts from the contents of the array, and it
    does not wrap. *)
Theorem reachable_size (m : env) (t : hash_table) :
  reachable m t ->
  hash_table_get_size t = Z.of_nat (length (entries (buckets t))) /\
  0 <= hash_table_get_size t <= max_size t + max_size_shift t /\
  hash_table_get_size t <= SIZE_MAX.
Proof.
  intros Hr. destruct (reachable_inv m t Hr) as (Hinv & _).
  unfold hash_table_get_size. rewrite (inv_count t Hinv), count_occupied_entries.
  pose proof (count_occupied_le (buckets t)) as Hle.
  rewrite count_occupied_entries in Hle.
  pose proof (inv_length_Z t Hinv) as Hlen. rewrite <- (inv_size t Hinv) in Hlen.
  pose proof (inv_count_bound t (buckets t) Hinv eq_refl) as Hb.
  rewrite count_occupied_entries in Hb. lia.
Qed.

(** X13: In a reachable table no two buckets hold the same key, and no two
    buckets point to the same entry; hence a key has at most one payload. *)
Theorem reachable_keys_unique (m : env) (t : hash_table) :
  reachable m t ->
  (forall i j ei ej,
     buckets t !! i = Some (Some ei) -> buckets t !! j = Some (Some ej) ->
     strcmp (key ei) (key ej) = 0 \/ ptr ei = ptr ej -> i = j) /\
  (forall k d1 d2, maps_to t k d1 -> maps_to t k d2 -> d1 = d2).
Proof.
  intros Hr. destruct (reachable_inv m t Hr) as (Hinv & _).
  pose proof (inv_keys t Hinv) as Hkeys. pose proof (inv_ptrs t Hinv) as Hptrs.
  split.
  - intros i j ei ej Hi Hj [Hk|Hp]; [exact (Hkeys _ _ _ _ Hi Hj Hk)|exact (Hptrs _ _ _ _ Hi Hj Hp)].
  - intros k d1 d2 (i & ei & Hi & Hki & <-) (j & ej & Hj & Hkj & <-).
    assert (i = j) as <-.
    { apply (Hkeys _ _ _ _ Hi Hj). apply strcmp_trans with k; [exact Hki|].
      apply strcmp_sym. exact Hkj. }
    congruence.
Qed.

(** X14: Robin Hood order in a reachable table: every bucket from the home of
    an entry up to the entry is occupied, by an entry that is at least as
    far from its own home as the entry would be in that bucket. *)
Theorem reachable_no_gap (m : env) (t : hash_table) (i j : nat)
    (e : hash_table_entry) :
  reachable m t -> buckets t !! i = Some (Some e) ->
  (Z.to_nat (fibonacci_hash (hash e) (max_size_shift t)) <= j <= i)%nat ->
  exists e', buckets t !! j = Some (Some e') /\
             dist_from_des e - Z.of_nat (i - j) <= dist_from_des e'.
Proof.
  intros Hr He Hj. destruct (reachable_inv m t Hr) as (Hinv & _).
  destruct (inv_wf t Hinv i e He) as (Hh & Hd & _). unfold home in Hh.
  destruct (rh_chain (max_size_shift t) (buckets t) (inv_wf t Hinv) (inv_order t Hinv)
              (i - j)%nat i e He) as (e' & He' & Hd'); [lia|].
  replace (i - (i - j))%nat with j in He' by lia. exists e'. auto.
Qed.

(** ** Keys are read up to their terminator *)

Lemma iterate_to_next_strcmp (b : bucket_array) (k k' : list Z) (n : nat) :
  strcmp k k' = 0 ->
  forall p pc, iterate_to_next b k n p pc = iterate_to_next b k' n p pc.
Proof.
  intros Hk. induction n as [|n IH]; intros p pc; cbn [iterate_to_next]; [reflexivity|].
  destruct (b !! p) as [[c|]|]; try reflexivity.
  assert (Heq : (strcmp (key c) k =? 0) = (strcmp (key c) k' =? 0)).
  { pose proof (strcmp_key_equiv k k' (key c) Hk) as H.
    destruct (strcmp (key c) k =? 0) eqn:H1; destruct (strcmp (key c) k' =? 0) eqn:H2;
      zb; try reflexivity; tauto. }
  rewrite Heq, IH. reflexivity.
Qed.

(** X15: [hash_table_get] and [hash_table_remove] read a key up to its
    terminator: two strings that [strcmp] finds equal give the same
    result on every table. *)
Theorem lookup_up_to_terminator (m : env) (t : hash_table) (k k' : list Z) :
  strcmp k k' = 0 ->
  hash_table_get t k = hash_table_get t k' /\
  hash_table_remove m t k = hash_table_remove m t k'.
Proof.
  intros Hk.
  assert (Hpos : forall t0, hash_table_get_position t0 k = hash_table_get_position t0 k').
  { intros t0. unfold hash_table_get_position. rewrite (djb2_hash_strcmp k k' Hk). reflexivity. }
  split.
  - unfold hash_table_get. rewrite Hpos, (iterate_to_next_strcmp _ k k' _ Hk). reflexivity.
  - unfold hash_table_remove. destruct (remove_precheck m t) as [[[[|] t1] m1]|]; try reflexivity.
    rewrite Hpos, (iterate_to_next_strcmp _ k k' _ Hk). reflexivity.
Qed.

(** ** The copy of the key *)

Lemma strncpy_terminated (k : list Z) :
  strncpy k (S (strlen k)) = take (strlen k) k ++ [0].
Proof.
  induction k as [|c k IH]; [reflexivity|].
  cbn [strlen]. destruct (c =? 0) eqn:E.
  - cbn [strncpy]. rewrite E. reflexivity.
  - change (strncpy (c :: k) (S (S (strlen k))))
      with (if c =? 0 then 0 :: strncpy [] (S (strlen k))
            else c :: strncpy k (S (strlen k))).
    rewrite E, IH. reflexivity.
Qed.

Lemma strlen_take (k : list Z) : strlen (take (strlen k) k ++ [0]) = strlen k.
Proof.
  induction k as [|c k IH]; [reflexivity|].
  cbn [strlen]. destruct (c =? 0) eqn:E; [reflexivity|].
  cbn [take app strlen]. rewrite E, IH. reflexivity.
Qed.

(** X16: [hash_table_entry_create] returns an entry exactly when its two
    allocations succeed.  The entry owns a copy of the key: the bytes of
    the key before its terminator, followed by one terminator; it carries
    the digest of the key and the payload, and its displacement is 0. *)
Theorem hash_table_entry_create_copy (m : env) (k : list Z) (d : Z) :
  match hash_table_entry_create k d m with
  | (Some X, m') =>
      alloc_failures m' = alloc_failures m /\
      key X = take (strlen k) k ++ [0] /\ strlen (key X) = strlen k /\
      hash X = djb2_hash k /\ data X = d /\ dist_from_des X = 0
  | (None, m') => (alloc_failures m < alloc_failures m')%nat
  end.
Proof.
  pose proof (entry_create_spec m k d) as Hspec.
  destruct (hash_table_entry_create k d m) as [[X|] m'] eqn:Hc; [|tauto].
  destruct Hspec as (_ & _ & _ & _ & _ & Hnf & _).
  unfold hash_table_entry_create in Hc.
  destruct (alloc m) as [[|] m1]; [|discriminate]. unfold fresh_ptr in Hc.
  destruct (alloc _) as [[|] m3] in Hc; [|discriminate].
  injection Hc as <- _. cbn [key hash data dist_from_des].
  change (match k with
          | [] => 0 :: strncpy [] (strlen k)
          | c :: src' =>
              if c =? 0 then 0 :: strncpy [] (strlen k) else c :: strncpy src' (strlen k)
          end) with (strncpy k (S (strlen k))).
  rewrite strncpy_terminated, strlen_take. repeat split; auto.
Qed.

(** ** Freeing the table *)

Lemma free_loop_spec {A : Type} (cb : option (Z -> A -> A)) (b : bucket_array) (n : nat) :
  forall (i : nat) (a : A) (m : env), (i + n <= length b)%nat ->
  free_loop cb b n i a m =
  Some (fold_left (fun a0 e => match cb with Some f => f (data e) a0 | None => a0 end)
          (entries (take n (drop i b))) a,
        Env (allocs m) (alloc_failures m) (next_ptr m)
            (reverse (map ptr (entries (take n (drop i b)))) ++ freed m)).
Proof.
  induction n as [|n IH]; intros i a m Hlen.
  - destruct m; reflexivity.
  - cbn [free_loop]. destruct (b !! i) as [x|] eqn:Hx;
      [|apply lookup_ge_None in Hx; lia].
    rewrite (drop_S b x i Hx). cbn [take]. rewrite entries_cons.
    destruct x as [e|]; rewrite IH by lia; [|reflexivity].
    cbn [hash_table_entry_free allocs alloc_failures next_ptr freed map fold_left].
    rewrite reverse_cons, <- app_assoc. reflexivity.
Qed.

Lemma entries_ptrs_NoDup (b : bucket_array) :
  ptrs_distinct b -> NoDup (map ptr (entries b)).
Proof.
  induction b as [|x b IH]; intros Hd; [constructor|].
  assert (Hd' : ptrs_distinct b).
  { intros i j ei ej Hi Hj Hp. assert (S i = S j); [|lia].
    exact (Hd (S i) (S j) ei ej Hi Hj Hp). }
  rewrite entries_cons. destruct x as [e|]; [|auto].
  cbn [map]. constructor; [|auto].
  intros Hin. apply list_elem_of_fmap in Hin. destruct Hin as (e' & Hp & He').
  apply elem_of_entries in He'. destruct He' as (i & Hi).
  assert (O = S i); [|lia]. exact (Hd O (S i) e e' eq_refl Hi Hp).
Qed.

Lemma free_callback_ok {A : Type} (cb : option (Z -> A -> A)) (a : A)
    (m : env) (t : hash_table) :
  table_inv t ->
  hash_table_free_callback cb a m t =
  Some (fold_left (fun a0 e => match cb with Some f => f (data e) a0 | None => a0 end)
          (entries (buckets t)) a,
        Env (allocs m) (alloc_failures m) (next_ptr m)
            (reverse (map ptr (entries (buckets t))) ++ freed m)).
Proof.
  intros Hinv. unfold hash_table_free_callback.
  assert (Hblen : buckets_len (max_size t) (max_size_shift t) = length (buckets t)).
  { unfold buckets_len. rewrite (inv_length t Hinv). f_equal. apply to_size_t_small.
    pose proof (inv_fits t Hinv) as Hfit. pose proof (inv_shift_range t Hinv).
    rewrite (inv_size t Hinv) in *. pose proof sizeof_ptr_pos.
    assert (0 < 2 ^ max_size_shift t) by (apply Z.pow_pos_nonneg; lia). nia. }
  rewrite Hblen, free_loop_spec by lia.
  rewrite drop_0, firstn_all. reflexivity.
Qed.

(** X17: [hash_table_free_callback] on a reachable table reads the array inside
    of its bounds, calls the callback once for each entry, on its payload,
    in the order of the buckets, and frees each entry once; the number of
    calls is the size of the table.  A NULL callback is not called. *)
Theorem hash_table_free_callback_calls {A : Type} (cb : option (Z -> A -> A)) (a : A)
    (m : env) (t : hash_table) :
  reachable m t ->
  exists a' m',
    hash_table_free_callback cb a m t = Some (a', m') /\
    a' = fold_left (fun a0 e => match cb with Some f => f (data e) a0 | None => a0 end)
           (entries (buckets t)) a /\
    freed m' = reverse (map ptr (entries (buckets t))) ++ freed m /\
    NoDup (map ptr (entries (buckets t))) /\
    Z.of_nat (length (entries (buckets t))) = hash_table_get_size t.
Proof.
  intros Hr. destruct (reachable_inv m t Hr) as (Hinv & _).
  rewrite (free_callback_ok cb a m t Hinv). eexists _, _. split; [reflexivity|].
  split; [reflexivity|]. split; [reflexivity|].
  split; [apply entries_ptrs_NoDup; exact (inv_ptrs t Hinv)|].
  unfold hash_table_get_size. rewrite (inv_count t Hinv), count_occupied_entries.
  reflexivity.
Qed.

(** X18: On a reachable table no operation reads outside of the array or
    dereferences NULL, and the mutual recursion of insertion, resize and
    rehash ends, whatever the allocator does: every operation returns. *)
Theorem reachable_operations_return (m : env) (t : hash_table) :
  reachable m t ->
  (forall k d, exists r t' m', hash_table_add m t k d = Some (r, t', m')) /\
  (forall k, exists r t' m', hash_table_remove m t k = Some (r, t', m')) /\
  (forall k, exists v, hash_table_get t k = Some v) /\
  (exists m', hash_table_free m t = Some m').
Proof.
  intros Hr. pose proof (reachable_inv m t Hr) as Hst. split_and!.
  - intros k d. destruct (hash_table_add_ok m t k d Hst) as (r & t' & m' & H & _). eauto.
  - intros k. destruct (hash_table_remove_ok m t k Hst) as (r & t' & m' & H & _). eauto.
  - intros k. destruct (key_absent_dec (buckets t) k) as [Habs|(i & e & He & Hk)].
    + exists NULL. apply hash_table_get_absent; [exact (proj1 Hst)|exact Habs].
    + exists (data e). eapply hash_table_get_present; [exact (proj1 Hst)|eassumption..].
  - unfold hash_table_free. rewrite (free_callback_ok None tt m t (proj1 Hst)). eauto.
Qed.

(** ** Ownership of the entries *)

Lemma stored_same_ptr (b : bucket_array) (c c0 : hash_table_entry) :
  ptrs_distinct b -> stored b c -> stored b c0 -> ptr c = ptr c0 -> c = c0.
Proof.
  intros Hd (i & e & He & <-) (j & e0 & He0 & <-) Hp.
  assert (i = j) as <- by exact (Hd _ _ _ _ He He0 Hp). congruence.
Qed.

Lemma stored_same_key (b : bucket_array) (c c0 : hash_table_entry) :
  keys_distinct b -> stored b c -> stored b c0 -> strcmp (key c) (key c0) = 0 -> c = c0.
Proof.
  intros Hd (i & e & He & <-) (j & e0 & He0 & <-) Hk.
  assert (i = j) as <- by exact (Hd _ _ _ _ He He0 Hk). congruence.
Qed.

(** What [hash_table_add] does to the addresses: the new entry has the
    next address; a call that returns true keeps it in the table and frees
    at most the entry that it replaces; a call that returns false frees at
    most the new entry, which is not in the table. *)
Lemma hash_table_add_owner (m : env) (t : hash_table) (k : list Z) (d : Z)
    (r : bool) (t' : hash_table) (m' : env) :
  state_inv m t -> hash_table_add m t k d = Some (r, t', m') ->
  next_ptr m <= next_ptr m' /\
  (r = true ->
     next_ptr m' = next_ptr m + 1 /\
     (exists c, stored (buckets t') c /\ ptr c = next_ptr m) /\
     (forall c, stored (buckets t') c ->
        ptr c = next_ptr m \/ (stored (buckets t) c /\ strcmp (key c) k <> 0)) /\
     (freed m' = freed m \/
      exists c, stored (buckets t) c /\ strcmp (key c) k = 0 /\
                freed m' = ptr c :: freed m)) /\
  (r = false ->
     (forall c, stored (buckets t') c -> stored (buckets t) c) /\
     (freed m' = freed m \/
      (next_ptr m' = next_ptr m + 1 /\ freed m' = next_ptr m :: freed m))).
Proof.
  intros (Hinv & Hptr) Hadd. unfold hash_table_add, add_precheck in Hadd.
  pose proof (entry_create_spec m k d) as Hcreate.
  destruct (hash_table_entry_create k d m) as [[X|] m1].
  2:{ destruct Hcreate as (Hf & Hn & Hfr). injection Hadd as <- <- <-.
      split; [exact Hn|]. split; [discriminate|]. intros _. split; [auto|left; exact Hfr]. }
  destruct Hcreate as (Hok & Hk & Hd & HpX & Hn1 & Hf1 & Hfr1).
  assert (Hkey : forall c, strcmp (key c) (key X) = 0 <-> strcmp (key c) k = 0).
  { intros c. apply strcmp_key_equiv. exact Hk. }
  destruct (resize_before_ok (hash_table_should_resize_up_factor t) m1 t
              HASH_TABLE_RESIZE_INCREMENT Hinv ltac:(left; reflexivity))
    as (r1 & t1 & m2 & Hres & Hinv1 & Henv1 & Hfr2 & Hsh1 & Hsub1 & Hfail1 & Hexact1).
  rewrite Hres in Hadd. destruct Henv1 as (Hl1 & Hfm1 & Hnp1).
  destruct r1.
  2:{ destruct (Hfail1 eq_refl) as (-> & Hf2). injection Hadd as <- <- <-.
      cbn [hash_table_entry_free next_ptr freed].
      split; [lia|]. split; [discriminate|]. intros _. split; [auto|].
      right. split; [lia|]. congruence. }
  assert (Hfresh1 : ptr_fresh (buckets t1) (ptr X)).
  { apply ptr_fresh_stored. intros c Hc. specialize (Hptr c (Hsub1 c Hc)). lia. }
  destruct (insert_ok (fuel_of m2) m2 t1 X) as (r0 & t0 & m0 & Hcall & Hpost);
    [unfold fuel_of; lia|exact Hinv1|exact Hok|exact Hfresh1|].
  rewrite Hcall in Hadd.
  destruct Hpost as [Hinv' Hsh' (Hl' & Hfm' & Hnp') Hsub' Hin' Hfail' Hfr' Hexact'].
  destruct r0; injection Hadd as <- <- <-.
  - split; [lia|]. split; [|discriminate]. intros _. split_and!.
    + lia.
    + exists (core X). split; [exact (Hin' eq_refl)|]. change (ptr (core X)) with (ptr X). lia.
    + intros c Hc. destruct (Hsub' c Hc) as [(_ & ->)|(Hc1 & Hne)].
      * left. change (ptr (core X)) with (ptr X). lia.
      * right. split; [auto|]. rewrite <- Hkey. auto.
    + destruct Hfr' as [Hfr'|(c & Hc & Hkc & _ & Hfr')]; [left; congruence|].
      right. exists c. split_and!; [auto|rewrite <- Hkey; exact Hkc|congruence].
  - cbn [hash_table_entry_free next_ptr freed].
    split; [lia|]. split; [discriminate|]. intros _. split.
    + intros c Hc. destruct (Hsub' c Hc) as [(Hf & _)|(Hc1 & _)]; [discriminate|auto].
    + right. split; [lia|].
      destruct Hfr' as [Hfr'|(c & _ & _ & Hf & _)]; [congruence|discriminate].
Qed.

Lemma hash_table_remove_owner (m : env) (t : hash_table) (k : list Z)
    (r : bool) (t' : hash_table) (m' : env) :
  state_inv m t -> hash_table_remove m t k = Some (r, t', m') ->
  next_ptr m' = next_ptr m /\ (r = false -> freed m' = freed m).
Proof.
  intros (Hinv & Hptr) Hrm. unfold hash_table_remove, remove_precheck in Hrm.
  change (- HASH_TABLE_RESIZE_INCREMENT) with (-1) in Hrm.
  destruct (resize_before_ok (hash_table_should_resize_down_factor t) m t (-1) Hinv)
    as (r1 & t1 & m1 & Hres & Hinv1 & Henv1 & Hfr1 & _ & Hsub1 & Hfail1 & Hexact1).
  { right. split; [reflexivity|]. unfold hash_table_should_resize_down_factor.
    unfold HASH_TABLE_INITIAL_SHIFT.
    destruct (max_size_shift t <=? 4) eqn:Hle; zb; [discriminate|lia]. }
  rewrite Hres in Hrm. destruct Henv1 as (Hl1 & Hfm1 & Hnp1).
  destruct r1; [|injection Hrm as <- <- <-; auto].
  cbv zeta in Hrm.
  destruct (iterate_to_next _ _ _ _ _) as [[position probe_count]|]; [|discriminate].
  destruct (negb _); [injection Hrm as <- <- <-; auto|].
  destruct (buckets t1 !! position) as [[e|]|]; [|injection Hrm as <- <- <-; auto|discriminate].
  destruct (hash_table_remove_from_position t1 position) as [[r2 t2]|] eqn:Hpos;
    [|discriminate].
  injection Hrm as <- <- <-. cbn [hash_table_entry_free next_ptr]. split; [exact Hnp1|].
  intros ->. unfold hash_table_remove_from_position in Hpos.
  destruct (decide _); [|discriminate]. destruct (back_shift _ _ _); discriminate.
Qed.

Lemma reachable_from_reachable (m0 m : env) (t : hash_table) :
  reachable_from m0 m t -> reachable m t.
Proof.
  induction 1; [eapply reach_create|eapply reach_add|eapply reach_remove]; eassumption.
Qed.

Lemma owned_step (m m' : env) (t t' : hash_table) (c0 : hash_table_entry) (k : list Z) :
  state_inv m t -> owned m t -> next_ptr m <= next_ptr m' ->
  stored (buckets t) c0 -> strcmp (key c0) k = 0 -> freed m' = ptr c0 :: freed m ->
  (forall c, stored (buckets t') c ->
     ptr c = next_ptr m \/ (stored (buckets t) c /\ strcmp (key c) k <> 0)) ->
  owned m' t'.
Proof.
  intros (Hinv & Hptr) (Hnd & Hlt & Hlive) Hnp Hc0 Hk0 Hfr Hsub.
  unfold owned. rewrite Hfr. split_and!.
  - constructor; [exact (Hlive c0 Hc0)|exact Hnd].
  - intros p Hp. apply elem_of_cons in Hp. destruct Hp as [->|Hp].
    + specialize (Hptr c0 Hc0). lia.
    + specialize (Hlt p Hp). lia.
  - intros c Hc Hin. apply elem_of_cons in Hin.
    destruct (Hsub c Hc) as [Hnew|(Hc' & Hne)].
    + destruct Hin as [Hin|Hin].
      * specialize (Hptr c0 Hc0). lia.
      * specialize (Hlt _ Hin). lia.
    + destruct Hin as [Hin|Hin]; [|exact (Hlive c Hc' Hin)].
      apply Hne. rewrite (stored_same_ptr _ _ _ (inv_ptrs t Hinv) Hc' Hc0 Hin). exact Hk0.
Qed.

Lemma owned_add (m : env) (t : hash_table) (k : list Z) (d : Z)
    (r : bool) (t' : hash_table) (m' : env) :
  state_inv m t -> owned m t -> hash_table_add m t k d = Some (r, t', m') ->
  owned m' t'.
Proof.
  intros Hst Hown Hadd.
  destruct (hash_table_add_owner _ _ _ _ _ _ _ Hst Hadd) as (Hnp & Htrue & Hfalse).
  pose proof Hst as (Hinv & Hptr). pose proof Hown as (Hnd & Hlt & Hlive).
  destruct r.
  - destruct (Htrue eq_refl) as (Hnp' & _ & Hsub & [Hfr|(c0 & Hc0 & Hk0 & Hfr)]).
    + unfold owned. rewrite Hfr. split_and!; [exact Hnd|intros p Hp; specialize (Hlt p Hp); lia|].
      intros c Hc Hin. destruct (Hsub c Hc) as [Hnew|(Hc' & _)].
      * specialize (Hlt _ Hin). lia.
      * exact (Hlive c Hc' Hin).
    + eapply owned_step; eassumption.
  - destruct (Hfalse eq_refl) as (Hsub & [Hfr|(Hnp' & Hfr)]).
    + unfold owned. rewrite Hfr. split_and!; [exact Hnd|intros p Hp; specialize (Hlt p Hp); lia|].
      intros c Hc. exact (Hlive c (Hsub c Hc)).
    + unfold owned. rewrite Hfr. split_and!.
      * constructor; [|exact Hnd]. intros Hin. specialize (Hlt _ Hin). lia.
      * intros p Hp. apply elem_of_cons in Hp. destruct Hp as [->|Hp]; [lia|].
        specialize (Hlt p Hp). lia.
      * intros c Hc Hin. apply elem_of_cons in Hin. destruct Hin as [Hin|Hin].
        -- specialize (Hptr c (Hsub c Hc)). lia.
        -- exact (Hlive c (Hsub c Hc) Hin).
Qed.

Lemma owned_remove (m : env) (t : hash_table) (k : list Z)
    (r : bool) (t' : hash_table) (m' : env) :
  state_inv m t -> owned m t -> hash_table_remove m t k = Some (r, t', m') ->
  owned m' t'.
Proof.
  intros Hst Hown Hrm.
  destruct (hash_table_remove_owner _ _ _ _ _ _ Hst Hrm) as (Hnp & Hfalse).
  destruct (hash_table_remove_ok m t k Hst) as (r0 & t0 & m0 & Heq & Hpost).
  rewrite Hrm in Heq. injection Heq as <- <- <-.
  pose proof Hown as (Hnd & Hlt & Hlive).
  destruct r.
  - destruct (rm_true _ _ _ _ _ _ Hpost eq_refl) as (c0 & Hc0 & Hk0 & Hfr).
    eapply owned_step; try eassumption; [lia|].
    intros c Hc. right. destruct (rm_sub _ _ _ _ _ _ Hpost c Hc) as (Hc' & Hne). auto.
  - unfold owned. rewrite (Hfalse eq_refl), Hnp. split_and!; [exact Hnd|exact Hlt|].
    intros c Hc. exact (Hlive c (proj1 (rm_sub _ _ _ _ _ _ Hpost c Hc))).
Qed.

(** X19: No double free and no dangling entry.  From a state of the allocator
    in which no address was freed twice, whatever the calls of
    [hash_table_add] and [hash_table_remove] and whatever allocation fails:
    no entry is freed twice, no entry of the table has been freed, and
    [hash_table_free] at the end frees no entry twice either. *)
Theorem no_double_free (m0 m : env) (t : hash_table) :
  reachable_from m0 m t ->
  NoDup (freed m0) -> (forall p, p ∈ freed m0 -> p < next_ptr m0) ->
  owned m t /\
  exists m', hash_table_free m t = Some m' /\ NoDup (freed m').
Proof.
  intros Hr Hnd0 Hlt0.
  assert (Hown : owned m t).
  { induction Hr as [t m' Hc|m t k d r t' m' Hr IH Hadd|m t k r t' m' Hr IH Hrm].
    - pose proof (hash_table_create_ok m0) as H. rewrite Hc in H.
      destruct H as (_ & _ & _ & Hempty & Hnp & _).
      assert (Hfr : freed m' = freed m0).
      { unfold hash_table_create in Hc.
        destruct (alloc m0) as [[|] m1] eqn:Ha; [|discriminate].
        destruct (alloc_spec _ _ _ Ha) as (_ & Hf1 & _).
        unfold hash_table_buckets_alloc in Hc.
        destruct (calloc _ _ m1) as [[|] m2] eqn:Hca; [|discriminate].
        destruct (calloc_spec _ _ _ _ _ Hca) as (_ & Hf2 & _).
        injection Hc as _ <-. congruence. }
      unfold owned. rewrite Hfr, Hnp. split_and!; auto.
      intros c Hc'. exfalso. exact (Hempty c Hc').
    - apply (owned_add m t k d r t' m'); auto.
      apply reachable_inv. eapply reachable_from_reachable. eassumption.
    - apply (owned_remove m t k r t' m'); auto.
      apply reachable_inv. eapply reachable_from_reachable. eassumption. }
  split; [exact Hown|].
  destruct (reachable_inv m t (reachable_from_reachable _ _ _ Hr)) as (Hinv & _).
  unfold hash_table_free. rewrite (free_callback_ok None tt m t Hinv).
  eexists. split; [reflexivity|]. cbn [freed].
  destruct Hown as (Hnd & _ & Hlive).
  apply NoDup_app. split_and!; [|  |exact Hnd].
  - rewrite reverse_Permutation. apply entries_ptrs_NoDup. exact (inv_ptrs t Hinv).
  - intros p Hp. rewrite elem_of_reverse in Hp. apply list_elem_of_fmap in Hp.
    destruct Hp as (e & -> & He). apply elem_of_entries in He. destruct He as (i & Hi).
    exact (Hlive (core e) (stored_core _ _ _ Hi)).
Qed.

(** X20: No leak.  When no allocation has failed since [hash_table_create],
    every entry that was allocated for the table has been freed once
    [hash_table_free] returns. *)
Theorem no_leak (m0 m : env) (t : hash_table) :
  reachable_from m0 m t -> alloc_failures m = alloc_failures m0 ->
  exists m', hash_table_free m t = Some m' /\
    forall p, next_ptr m0 <= p < next_ptr m' -> p ∈ freed m'.
Proof.
  intros Hr Hnf.
  assert (Hlive : (alloc_failures m0 <= alloc_failures m)%nat /\
                  (alloc_failures m = alloc_failures m0 ->
                   forall p, next_ptr m0 <= p < next_ptr m ->
                     p ∈ freed m \/ exists c, stored (buckets t) c /\ ptr c = p)).
  { clear Hnf.
    induction Hr as [t m' Hc|m t k d r t' m' Hr (IHf & IH) Hadd
                    |m t k r t' m' Hr (IHf & IH) Hrm].
    - pose proof (hash_table_create_ok m0) as H. rewrite Hc in H.
      destruct H as (_ & _ & _ & _ & Hnp & Hnf). split; [lia|]. intros _ p Hp. lia.
    - pose proof (reachable_from_reachable _ _ _ Hr) as Hr'.
      pose proof (reachable_inv _ _ Hr') as Hst.
      pose proof (add_post_of _ _ _ _ _ _ _ Hr' Hadd) as Hpost.
      pose proof (ap_mono _ _ _ _ _ _ _ Hpost) as Hmono. split; [lia|]. intros Hnf p Hp.
      destruct (ap_exact _ _ _ _ _ _ _ Hpost ltac:(lia)) as (-> & Hkeep & _ & Hrep).
      destruct (hash_table_add_owner _ _ _ _ _ _ _ Hst Hadd) as (_ & Htrue & _).
      destruct (Htrue eq_refl) as (Hnp & Hnew & _ & Hfr).
      destruct (decide (p = next_ptr m)) as [->|Hne]; [right; exact Hnew|].
      destruct (IH ltac:(lia) p ltac:(lia)) as [Hin|(c & Hc & Hpc)].
      + left. destruct Hfr as [->|(c0 & _ & _ & ->)]; [exact Hin|].
        apply list_elem_of_further. exact Hin.
      + destruct (decide (strcmp (key c) k = 0)) as [Hk|Hk].
        * left. destruct (Hrep c Hc Hk) as (_ & ->). rewrite Hpc. apply list_elem_of_here.
        * right. exists c. split; [apply Hkeep; assumption|exact Hpc].
    - pose proof (reachable_from_reachable _ _ _ Hr) as Hr'.
      pose proof (reachable_inv _ _ Hr') as Hst.
      pose proof (remove_post_of _ _ _ _ _ _ Hr' Hrm) as Hpost.
      pose proof (rm_mono _ _ _ _ _ _ Hpost) as Hmono. split; [lia|]. intros Hnf p Hp.
      destruct (rm_exact _ _ _ _ _ _ Hpost ltac:(lia)) as (Hkeep & _ & Hpres).
      destruct (hash_table_remove_owner _ _ _ _ _ _ Hst Hrm) as (Hnp & Hfalse).
      assert (Hfreed : forall q, q ∈ freed m -> q ∈ freed m').
      { intros q Hq. destruct r.
        - destruct (rm_true _ _ _ _ _ _ Hpost eq_refl) as (c0 & _ & _ & ->).
          apply list_elem_of_further. exact Hq.
        - rewrite (Hfalse eq_refl). exact Hq. }
      destruct (IH ltac:(lia) p ltac:(lia)) as [Hin|(c & Hc & Hpc)]; [left; auto|].
      destruct (decide (strcmp (key c) k = 0)) as [Hk|Hk].
      + left. destruct Hpres as (-> & _).
        { intros Habs. exact (proj1 (absent_stored t k) Habs c Hc Hk). }
        destruct (rm_true _ _ _ _ _ _ Hpost eq_refl) as (c0 & Hc0 & Hk0 & ->).
        assert (c = c0) as <-.
        { apply (stored_same_key (buckets t)); auto; [exact (inv_keys t (proj1 Hst))|].
          apply strcmp_trans with k; [exact Hk|]. apply strcmp_sym. exact Hk0. }
        rewrite Hpc. apply list_elem_of_here.
      + right. exists c. split; [apply Hkeep; assumption|exact Hpc]. }
  destruct Hlive as (_ & Hlive). specialize (Hlive Hnf).
  destruct (reachable_inv m t (reachable_from_reachable _ _ _ Hr)) as (Hinv & _).
  unfold hash_table_free. rewrite (free_callback_ok None tt m t Hinv).
  eexists. split; [reflexivity|]. cbn [freed next_ptr]. intros p Hp.
  apply elem_of_app. destruct (Hlive p Hp) as [Hin|(c & (i & e & He & <-) & Hpc)];
    [right; exact Hin|left].
  rewrite elem_of_reverse. apply list_elem_of_fmap. exists e. split; [symmetry; exact Hpc|].
  apply elem_of_entries. exists i. exact He.
Qed.

(** ** Resizing *)


(** ** The load factors of small tables *)

Lemma up_factor_small (t : hash_table) :
  32 <= word_bits ->
  0 <= max_size_shift t <= 26 -> max_size t = 2 ^ max_size_shift t ->
  0 <= curr_size t -> curr_size t + 1 < 2 ^ 24 ->
  (hash_table_should_resize_up_factor t = true <->
     4 * (curr_size t + 1) > 3 * max_size t).
Proof.
  intros Hw Hs Hsz Hc0 Hc.
  assert (Hmax : 2 ^ 24 <= SIZE_MAX).
  { unfold SIZE_MAX. assert (2 ^ 32 <= 2 ^ word_bits) by (apply Z.pow_le_mono_r; lia). lia. }
  pose proof (float_round_exact 1 (max_size_shift t) ltac:(lia) ltac:(lia)) as H1.
  rewrite Z.mul_1_l in H1.
  unfold hash_table_should_resize_up_factor, float_gt, float_mul,
    HASH_TABLE_LOAD_FACTOR_INCREASE. cbn [fst snd]. rewrite Hsz, H1.
  rewrite (Z.mul_comm (2 ^ max_size_shift t) 3).
  rewrite (float_round_exact 3 (max_size_shift t)) by lia.
  rewrite to_size_t_small by lia. rewrite float_round_small by lia.
  change (2 ^ 2) with 4. rewrite Z.gtb_ltb, Z.ltb_lt. lia.
Qed.

Lemma down_factor_small (t : hash_table) :
  32 <= word_bits ->
  0 <= max_size_shift t <= 26 -> max_size t = 2 ^ max_size_shift t ->
  1 <= curr_size t -> curr_size t + 1 < 2 ^ 24 ->
  (hash_table_should_resize_down_factor t = true <->
     4 < max_size_shift t /\ 10 * (curr_size t - 1) < max_size t).
Proof.
  intros Hw Hs Hsz Hc1 Hc.
  assert (Hmax : 2 ^ 24 <= SIZE_MAX).
  { unfold SIZE_MAX. assert (2 ^ 32 <= 2 ^ word_bits) by (apply Z.pow_le_mono_r; lia). lia. }
  pose proof (float_round_exact 1 (max_size_shift t) ltac:(lia) ltac:(lia)) as H1.
  rewrite Z.mul_1_l in H1.
  unfold hash_table_should_resize_down_factor, float_lt, float_mul,
    HASH_TABLE_LOAD_FACTOR_DECREASE, HASH_TABLE_INITIAL_SHIFT. cbn [fst snd].
  rewrite Hsz, H1. rewrite (Z.mul_comm (2 ^ max_size_shift t) 13421773).
  rewrite (float_round_exact 13421773 (max_size_shift t)) by lia.
  rewrite to_size_t_small by lia. rewrite float_round_small by lia.
  destruct (max_size_shift t <=? 4) eqn:Hle; zb.
  - split; [discriminate|lia].
  - rewrite Z.ltb_lt. rewrite (shrink_threshold (curr_size t - 1) (max_size_shift t)) by lia.
    split; [intros H; split; [lia|exact H]|tauto].
Qed.

(** X23: Hysteresis of the two load factors, for tables of at most [2 ^ 25]
    buckets and less than [2 ^ 24 - 2] entries.  When the check of
    [hash_table_add] asks for a grow, the check of [hash_table_remove] on
    the table of twice the capacity with one entry more does not ask for a
    shrink; when the check of [hash_table_remove] asks for a shrink, the
    check of [hash_table_add] on the table of half the capacity with one
    entry less does not ask for a grow. *)
Theorem load_factor_hysteresis (t : hash_table) (b' : bucket_array) :
  32 <= word_bits ->
  4 <= max_size_shift t <= 25 -> max_size t = 2 ^ max_size_shift t ->
  1 <= curr_size t -> curr_size t + 2 < 2 ^ 24 ->
  (hash_table_should_resize_up_factor t = true ->
     hash_table_should_resize_down_factor
       (Table (max_size_shift t + 1) (2 * max_size t) (curr_size t + 1) b') = false) /\
  (hash_table_should_resize_down_factor t = true ->
     hash_table_should_resize_up_factor
       (Table (max_size_shift t - 1) (max_size t / 2) (curr_size t - 1) b') = false).
Proof.
  intros Hw Hs Hsz Hc1 Hc.
  assert (Hp : 16 <= 2 ^ max_size_shift t).
  { change 16 with (2 ^ 4). apply Z.pow_le_mono_r; lia. }
  split.
  - intros Hup.
    apply (up_factor_small t Hw ltac:(lia) Hsz ltac:(lia) ltac:(lia)) in Hup.
    destruct (hash_table_should_resize_down_factor _) eqn:Hdown; [exfalso|reflexivity].
    apply down_factor_small in Hdown; cbn [max_size_shift max_size curr_size] in *;
      [lia|exact Hw|lia| |lia|lia].
    rewrite Z.pow_add_r, Hsz by lia. lia.
  - intros Hdown.
    apply (down_factor_small t Hw ltac:(lia) Hsz ltac:(lia) ltac:(lia)) in Hdown.
    assert (Htwo : 2 ^ max_size_shift t = 2 ^ (max_size_shift t - 1) * 2).
    { rewrite <- (Z.pow_1_r 2) at 3. rewrite <- Z.pow_add_r by lia. f_equal. lia. }
    assert (Hhalf : max_size t / 2 = 2 ^ (max_size_shift t - 1)).
    { rewrite Hsz, Htwo. apply Z.div_mul. lia. }
    destruct (hash_table_should_resize_up_factor _) eqn:Hup; [exfalso|reflexivity].
    apply up_factor_small in Hup; cbn [max_size_shift max_size curr_size] in *;
      [|exact Hw|lia|exact Hhalf|lia|lia].
    rewrite Hhalf in Hup. lia.
Qed.

(** ** The buckets that the walks write *)

Lemma insert_loop_local (k : list Z) (n : nat) :
  forall (b : bucket_array) (R : hash_table_entry) (p : nat) (pc : Z)
         (b' : bucket_array) (R' : hash_table_entry) (p' : nat) (pc' : Z),
  insert_loop b k n R p pc = Some (b', R', p', pc') ->
  forall j, (j < p \/ p' <= j)%nat -> b' !! j = b !! j.
Proof.
  induction n as [|n IH]; intros b R p pc b' R' p' pc' Hloop j Hj; cbn [insert_loop] in Hloop.
  - injection Hloop as <- _ _ _. reflexivity.
  - destruct (b !! p) as [[C|]|] eqn:HC; [|injection Hloop as <- _ _ _; reflexivity|discriminate].
    destruct (strcmp (key C) k =? 0); [injection Hloop as <- _ _ _; reflexivity|].
    destruct (insert_step b R C p) as [b1 R1] eqn:Hstep.
    assert (Hp' : (S p <= p')%nat).
    { assert (Hlen : (S p + 0 <= length b1)%nat).
      { pose proof (insert_step_length b R C p) as Hl. rewrite Hstep in Hl. cbn [fst] in Hl.
        apply lookup_lt_Some in HC. lia. }
      clear -Hloop. revert b1 R1 pc Hloop. generalize (S p) as q.
      induction n as [|n IHn]; intros q b1 R1 pc Hloop; cbn [insert_loop] in Hloop.
      - injection Hloop as _ _ <- _. lia.
      - destruct (b1 !! q) as [[C'|]|]; [|injection Hloop as _ _ <- _; lia|discriminate].
        destruct (strcmp (key C') k =? 0); [injection Hloop as _ _ <- _; lia|].
        destruct (insert_step b1 R1 C' q) as [b2 R2].
        specialize (IHn _ _ _ _ Hloop). lia. }
    rewrite (IH _ _ _ _ _ _ _ _ Hloop j ltac:(lia)).
    unfold insert_step in Hstep.
    destruct (hash_table_should_replace_entry R C); injection Hstep as <- _; [|reflexivity].
    apply list_lookup_insert_ne. lia.
Qed.

Lemma back_shift_local (n : nat) :
  forall (b : bucket_array) (p : nat) (b' : bucket_array),
  back_shift b n p = Some b' -> forall j, (S j < p)%nat -> b' !! j = b !! j.
Proof.
  induction n as [|n IH]; intros b p b' Hbs j Hj; cbn [back_shift] in Hbs.
  - injection Hbs as <-. reflexivity.
  - destruct (b !! p) as [[e|]|]; [|injection Hbs as <-; reflexivity|discriminate].
    destruct (dist_from_des e =? 0); [injection Hbs as <-; reflexivity|].
    rewrite (IH _ _ _ Hbs j ltac:(lia)).
    rewrite !list_lookup_insert_ne by lia. reflexivity.
Qed.

(** X24: An insertion whose walk ends inside of the probe window returns true
    without resizing, and writes only buckets from the home index of the
    key to the bucket where the walk ends: the buckets before the home
    index and after the end of the walk are those of before the call. *)
Theorem hash_table_insert_window (fuel : nat) (m : env) (t : hash_table)
    (X R : hash_table_entry) (b : bucket_array) (p : nat) (pc : Z) :
  table_inv t ->
  insert_loop (buckets t) (key X) (Z.to_nat (max_size_shift t)) X
    (Z.to_nat (fibonacci_hash (hash X) (max_size_shift t))) 0 = Some (b, R, p, pc) ->
  hash_table_is_next_found t pc = true ->
  exists t' m',
    hash_table_insert (S fuel) m t X = Some (true, t', m') /\
    max_size_shift t' = max_size_shift t /\ max_size t' = max_size t /\
    length (buckets t') = length (buckets t) /\
    (Z.to_nat (fibonacci_hash (hash X) (max_size_shift t)) <= p)%nat /\
    Z.of_nat p < fibonacci_hash (hash X) (max_size_shift t) + max_size_shift t /\
    forall j, (j < Z.to_nat (fibonacci_hash (hash X) (max_size_shift t)) \/ p < j)%nat ->
      buckets t' !! j = buckets t !! j.
Proof.
  intros Hinv Hloop Hfound.
  pose proof (inv_shift_range t Hinv) as Hs. pose proof (inv_length_Z t Hinv) as Hlen.
  pose proof (inv_home_lt t Hinv (hash X)) as Hhome.
  set (h := Z.to_nat (fibonacci_hash (hash X) (max_size_shift t))) in *.
  destruct (insert_loop_in_bounds (key X) (Z.to_nat (max_size_shift t)) (buckets t) X h 0)
    as (bf & Rf & pf & pcf & Hloop' & Hlf & Hpf & Hpcf); [lia|].
  rewrite Hloop in Hloop'. injection Hloop' as <- <- <- <-.
  unfold hash_table_is_next_found in Hfound. zb.
  pose proof (insert_loop_local _ _ _ _ _ _ _ _ _ _ Hloop) as Hlocal.
  assert (Hp : (p < length b)%nat) by lia.
  destruct (lookup_lt_is_Some_2 b p Hp) as (x & Hx).
  cbn [hash_table_insert]. fold h. rewrite Hloop.
  unfold hash_table_is_next_found. cbn [set_buckets max_size_shift].
  rewrite (proj2 (Z.ltb_lt _ _) Hfound). rewrite Hx.
  assert (Hwrite : forall j, (j < h \/ p < j)%nat ->
            <[p := Some R]> b !! j = buckets t !! j).
  { intros j Hj. rewrite list_lookup_insert_ne by lia. apply Hlocal. lia. }
  destruct x as [current|]; eexists _, _; (split; [reflexivity|]);
    cbn [set_buckets max_size_shift max_size buckets]; rewrite length_insert;
    split_and!; auto; lia.
Qed.

(** X25: [hash_table_remove_from_position] on an occupied bucket of a table that
    satisfies the invariants always returns true; the table keeps its
    capacity and its invariants, its size drops by one, and the buckets
    before the position are those of before the call. *)
Theorem hash_table_remove_from_position_local (t : hash_table) (pos : nat)
    (K : hash_table_entry) :
  table_inv t -> buckets t !! pos = Some (Some K) ->
  exists t', hash_table_remove_from_position t pos = Some (true, t') /\
    table_inv t' /\ max_size_shift t' = max_size_shift t /\
    curr_size t' = curr_size t - 1 /\
    (forall j, (j < pos)%nat -> buckets t' !! j = buckets t !! j) /\
    (forall k, strcmp (key K) k = 0 -> hash_table_get t' k = Some NULL).
Proof.
  intros Hinv HK.
  destruct (remove_from_position_ok t pos K Hinv HK) as (t' & Hrem & Hinv' & Hsh & Hsz & Hst).
  exists t'. split_and!; auto.
  - unfold hash_table_remove_from_position in Hrem.
    destruct (decide _) as [Hlt|]; [|discriminate].
    destruct (back_shift _ _ _) as [b'|] eqn:Hbs; [|discriminate].
    injection Hrem as <-. cbn [buckets]. intros j Hj.
    rewrite (back_shift_local _ _ _ _ Hbs j ltac:(lia)).
    apply list_lookup_insert_ne. lia.
  - intros k Hk. apply hash_table_get_absent; [exact Hinv'|].
    apply absent_stored. intros c Hc Hkc. apply Hst in Hc. destruct Hc as (_ & Hne).
    apply Hne. apply strcmp_trans with k; [exact Hkc|]. apply strcmp_sym. exact Hk.
Qed.

(** * Insertions that resize *)

(** ** The buckets that a walk passes *)

Lemma count_occupied_drop_le (b : bucket_array) (p : nat) :
  (count_occupied (drop p b) <= count_occupied b)%nat.
Proof.
  revert b. induction p as [|p IH]; intros b; [rewrite drop_0; lia|].
  destruct b as [|[e|] b]; cbn [drop count_occupied]; [lia| |]; specialize (IH b); lia.
Qed.

Lemma count_occupied_segment (b : bucket_array) (n : nat) :
  forall p : nat,
  (forall j, (p <= j < p + n)%nat -> exists e, b !! j = Some (Some e)) ->
  (n <= count_occupied (drop p b))%nat.
Proof.
  induction n as [|n IH]; intros p Hocc; [lia|].
  destruct (Hocc p ltac:(lia)) as (e & He).
  rewrite (count_occupied_drop b p _ He).
  specialize (IH (S p)). assert (n <= count_occupied (drop (S p) b))%nat; [|lia].
  apply IH. intros j Hj. apply Hocc. lia.
Qed.

Lemma insert_loop_occupied (k : list Z) (n : nat) :
  forall (b : bucket_array) (R : hash_table_entry) (p : nat) (pc : Z)
         (bf : bucket_array) (Rf : hash_table_entry) (pf : nat) (pcf : Z),
  insert_loop b k n R p pc = Some (bf, Rf, pf, pcf) ->
  (p <= pf)%nat /\ pcf = pc + Z.of_nat (pf - p) /\
  forall j, (p <= j < pf)%nat -> exists e, b !! j = Some (Some e).
Proof.
  induction n as [|n IH]; intros b R p pc bf Rf pf pcf Hloop; cbn [insert_loop] in Hloop.
  - injection Hloop as _ _ <- <-. split_and!; [lia|lia|]. intros j Hj. lia.
  - destruct (b !! p) as [[C|]|] eqn:HC;
      [|injection Hloop as _ _ <- <-; split_and!; [lia|lia|intros j Hj; lia]|discriminate].
    destruct (strcmp (key C) k =? 0);
      [injection Hloop as _ _ <- <-; split_and!; [lia|lia|intros j Hj; lia]|].
    destruct (insert_step b R C p) as [b1 R1] eqn:Hstep.
    destruct (IH _ _ _ _ _ _ _ _ Hloop) as (Hle & Hpc & Hocc).
    split_and!; [lia|lia|]. intros j Hj.
    destruct (decide (j = p)) as [->|Hne]; [eauto|].
    destruct (Hocc j ltac:(lia)) as (e & He). exists e. rewrite <- He.
    unfold insert_step in Hstep.
    destruct (hash_table_should_replace_entry R C); injection Hstep as <- _; [|reflexivity].
    symmetry. apply list_lookup_insert_ne. lia.
Qed.

(** ** [hash_table_resize], unfolded *)

Lemma resize_unfold (ins : inserter) (m : env) (t : hash_table) (amt : Z) :
  table_inv t -> amt = 1 \/ (amt = -1 /\ 4 < max_size_shift t) ->
  4 <= max_size_shift t + amt < word_bits /\
  hash_table_buckets_alloc
    (Table (to_uint8 (max_size_shift t + amt))
       (if amt >=? 0 then to_size_t (Z.shiftl (max_size t) amt)
        else Z.shiftr (max_size t) (-1 * amt))
       (curr_size t) (buckets t)) m
  = (match calloc sizeof_ptr (2 ^ (max_size_shift t + amt) + (max_size_shift t + amt)) m with
     | (true, m1) =>
         (Some (replicate
                  (Z.to_nat (2 ^ (max_size_shift t + amt) + (max_size_shift t + amt)))
                  None), m1)
     | (false, m1) => (None, m1)
     end) /\
  hash_table_resize ins m t amt
  = (match calloc sizeof_ptr (2 ^ (max_size_shift t + amt) + (max_size_shift t + amt)) m with
     | (true, m1) =>
         match rehash_loop ins (buckets t) (length (buckets t)) O m1
                 (Table (max_size_shift t + amt) (2 ^ (max_size_shift t + amt)) 0
                    (replicate
                       (Z.to_nat (2 ^ (max_size_shift t + amt) + (max_size_shift t + amt)))
                       None)) with
         | Some (t3, m3) => Some (true, t3, m3)
         | None => None
         end
     | (false, m1) => Some (false, t, m1)
     end).
Proof.
  intros Hinv Hamt. unfold hash_table_resize. cbv zeta.
  pose proof (inv_shift_range t Hinv) as Hs.
  pose proof (inv_shift_lt_word t Hinv) as Hsw.
  pose proof (inv_length_Z t Hinv) as Hlen.
  pose proof sizeof_ptr_pos as Hptr.
  assert (Hs2 : max_size_shift t + 1 < word_bits).
  { pose proof (inv_fits _ Hinv) as Hfit. rewrite (inv_size _ Hinv) in Hfit.
    unfold SIZE_MAX in Hfit.
    assert (H2 : 2 ^ (max_size_shift t + 1) < 2 ^ word_bits).
    { rewrite Z.pow_add_r by lia. nia. }
    apply (Z.pow_lt_mono_r_iff 2) in H2; lia. }
  set (s' := max_size_shift t + amt).
  assert (Hs' : 4 <= s' < word_bits) by (subst s'; lia).
  assert (Hshift : to_uint8 s' = s').
  { apply to_uint8_small. subst s'. lia. }
  assert (Hpow : 0 < 2 ^ s' < 2 ^ word_bits).
  { split; [apply Z.pow_pos_nonneg; lia|apply Z.pow_lt_mono_r; lia]. }
  assert (Hsize : (if amt >=? 0 then to_size_t (Z.shiftl (max_size t) amt)
                   else Z.shiftr (max_size t) (-1 * amt)) = 2 ^ s').
  { rewrite (inv_size _ Hinv). subst s'. destruct Hamt as [->|(-> & Hgt)]; cbn [Z.geb Z.compare].
    - rewrite Z.shiftl_mul_pow2 by lia.
      rewrite <- (Z.pow_add_r 2 (max_size_shift t) 1) by lia.
      apply to_size_t_small. unfold SIZE_MAX. lia.
    - change (-1 * -1) with 1. rewrite Z.shiftr_div_pow2 by lia.
      replace (max_size_shift t) with (max_size_shift t + -1 + 1) at 1 by lia.
      rewrite Z.pow_add_r by lia. apply Z.div_mul. lia. }
  assert (Hn : to_size_t (2 ^ s' + s') = 2 ^ s' + s').
  { apply to_size_t_small. unfold SIZE_MAX.
    pose proof (pow2_double_le s' word_bits). pose proof (pow2_gt s'). lia. }
  assert (Hblen : buckets_len (max_size t) (max_size_shift t) = length (buckets t)).
  { unfold buckets_len. rewrite (inv_size _ Hinv), to_size_t_small; [lia|].
    unfold SIZE_MAX. pose proof (pow2_gt (max_size_shift t)).
    pose proof (pow2_double_le (max_size_shift t) word_bits).
    assert (0 < 2 ^ max_size_shift t) by (apply Z.pow_pos_nonneg; lia). lia. }
  split; [exact Hs'|].
  rewrite Hshift, Hsize.
  unfold hash_table_buckets_alloc, hash_table_rehash. cbn [max_size max_size_shift].
  rewrite Hn, Hblen.
  destruct (calloc sizeof_ptr (2 ^ s' + s') m) as [[|] m1]; split; reflexivity.
Qed.

Lemma grown_alloc (m : env) (t : hash_table) :
  table_inv t ->
  hash_table_buckets_alloc (grown t) m
  = (match calloc sizeof_ptr (2 ^ (max_size_shift t + 1) + (max_size_shift t + 1)) m with
     | (true, m1) =>
         (Some (replicate (Z.to_nat (2 ^ (max_size_shift t + 1) + (max_size_shift t + 1)))
                  None), m1)
     | (false, m1) => (None, m1)
     end).
Proof.
  intros Hinv.
  exact (proj1 (proj2 (resize_unfold (fun _ _ _ => None) m t 1 Hinv (or_introl eq_refl)))).
Qed.

Lemma shrunk_alloc (m : env) (t : hash_table) :
  table_inv t -> 4 < max_size_shift t ->
  hash_table_buckets_alloc (shrunk t) m
  = (match calloc sizeof_ptr (2 ^ (max_size_shift t + -1) + (max_size_shift t + -1)) m with
     | (true, m1) =>
         (Some (replicate (Z.to_nat (2 ^ (max_size_shift t + -1) + (max_size_shift t + -1)))
                  None), m1)
     | (false, m1) => (None, m1)
     end).
Proof.
  intros Hinv Hs.
  exact (proj1 (proj2 (resize_unfold (fun _ _ _ => None) m t (-1) Hinv
                         (or_intror (conj eq_refl Hs))))).
Qed.

(** ** [hash_table_insert] when the walk runs out of probes *)

Lemma insert_unfold_exhausted (fuel : nat) (m : env) (t : hash_table)
    (X R : hash_table_entry) (b : bucket_array) (p : nat) (pc : Z) :
  table_inv t -> entry_ok X -> ptr_fresh (buckets t) (ptr X) ->
  key_absent (buckets t) (key X) ->
  insert_loop (buckets t) (key X) (Z.to_nat (max_size_shift t)) X
    (Z.to_nat (fibonacci_hash (hash X) (max_size_shift t))) 0 = Some (b, R, p, pc) ->
  hash_table_is_next_found t pc = false ->
  (exists d, hash_table_unwind_insertion_changes (set_buckets t b) X R (p - 1)
             = Some (t, set_dist X d)) /\
  hash_table_insert (S fuel) m t X
  = match hash_table_resize (hash_table_insert fuel) m t HASH_TABLE_RESIZE_INCREMENT with
    | None => None
    | Some (false, t3, m') => Some (false, t3, m')
    | Some (true, t3, m') => hash_table_insert fuel m' t3 X
    end.
Proof.
  intros Hinv Hok Hfresh Habs Hloop Hnf.
  pose proof (inv_shift_range t Hinv) as Hs.
  unfold hash_table_is_next_found in Hnf. zb.
  change (Z.to_nat (fibonacci_hash (hash X) (max_size_shift t)))
    with (home (max_size_shift t) X) in Hloop.
  pose proof (walk_inv_start t X Hinv Hok Hfresh Habs) as Hw.
  destruct (insert_loop_fresh _ _ _ _ _ _ _ _ Hw)
    as (bf & Rf & pf & pcf & nf & Hloop' & Hwf & Hend & Hlen & Hcnt & Hst & Hpos).
  rewrite Hloop in Hloop'. injection Hloop' as <- <- <- <-.
  pose proof (w_rem _ _ _ _ _ _ _ _ Hwf) as Hrem.
  destruct (Z.to_nat (max_size_shift t)) as [|n0] eqn:Hn0; [lia|].
  destruct (unwind_loop_insert_loop _ _ _ n0 _ _ _ _ _ _ _ _ Hw Hloop ltac:(lia))
    as (Hun & _).
  destruct (Hun eq_refl) as (d & Hun').
  assert (Hunwind : hash_table_unwind_insertion_changes (set_buckets t b) X R (p - 1)
                    = Some (t, set_dist X d)).
  { unfold hash_table_unwind_insertion_changes. cbn [buckets set_buckets]. rewrite Hun'.
    change (set_buckets _ (buckets t)) with (set_buckets t (buckets t)).
    rewrite set_buckets_id. reflexivity. }
  split; [exists d; exact Hunwind|].
  cbn [hash_table_insert].
  change (Z.to_nat (fibonacci_hash (hash X) (max_size_shift t)))
    with (home (max_size_shift t) X).
  rewrite Hn0, Hloop. unfold hash_table_is_next_found. cbn [set_buckets max_size_shift].
  rewrite (proj2 (Z.ltb_ge _ _) Hnf).
  destruct p as [|start]; [lia|]. replace (S start - 1)%nat with start in Hunwind by lia.
  rewrite Hunwind. change (ptr (set_dist X d)) with (ptr X). rewrite Z.eqb_refl.
  change (set_dist (set_dist X d) 0) with (set_dist X 0).
  assert (HX : set_dist X 0 = X).
  { destruct Hok as (Hd & _). rewrite <- Hd. apply set_dist_id. }
  rewrite HX. reflexivity.
Qed.

(** ** The number of entries after a rehash *)

Lemma rehash_more (f : nat) (ins : inserter) (old : bucket_array) :
  inserter_ok f ins -> inserter_more f ins -> keys_distinct old -> ptrs_distinct old ->
  (forall j e, old !! j = Some (Some e) -> hash e = djb2_hash (key e)) ->
  forall (n i : nat) (m : env) (t t' : hash_table) (m' : env) (extra : Z),
    length old = (i + n)%nat -> (length (allocs m) < f)%nat -> table_inv t ->
    (forall c, stored (buckets t) c ->
       exists j e, (j < i)%nat /\ old !! j = Some (Some e) /\ core e = c) ->
    rehash_loop ins old n i m t = Some (t', m') -> 0 <= extra ->
    max_size_shift t <= Z.of_nat (count_occupied (buckets t))
                        + Z.of_nat (count_occupied (drop i old)) + extra ->
    max_size_shift t' <= Z.of_nat (count_occupied (buckets t')) + extra.
Proof.
  intros Hins Hmore Hkeys Hptrs Hhash.
  induction n as [|n IH]; intros i m t t' m' extra Hlen Hf Hinv Hsub Hloop Hex Hfill;
    cbn [rehash_loop] in Hloop.
  - injection Hloop as <- <-. rewrite drop_ge in Hfill by lia. cbn in Hfill. lia.
  - destruct (old !! i) as [[e|]|] eqn:Hi; [| |discriminate].
    + assert (Habs : key_absent (buckets t) (key e)).
      { intros i' e' He' Hk. destruct (Hsub (core e')) as (j & ej & Hj & Hej & Hc);
          [exists i', e'; auto|].
        assert (j = i); [|lia]. apply (Hkeys _ _ _ _ Hej Hi).
        replace (key ej) with (key (core ej)) by reflexivity. rewrite Hc. exact Hk. }
      assert (Hfresh : ptr_fresh (buckets t) (ptr e)).
      { intros i' e' He' Hp. destruct (Hsub (core e')) as (j & ej & Hj & Hej & Hc);
          [exists i', e'; auto|].
        assert (j = i); [|lia]. apply (Hptrs _ _ _ _ Hej Hi).
        replace (ptr ej) with (ptr (core ej)) by reflexivity. rewrite Hc. exact Hp. }
      assert (Hok : entry_ok (set_dist e 0))
        by (split; [reflexivity|exact (Hhash _ _ Hi)]).
      destruct (Hins m t (set_dist e 0) Hf Hinv Hok Hfresh)
        as (r & t1 & m1 & Hcall & Hpost).
      pose proof (Hmore m t (set_dist e 0) r t1 m1 Hf Hinv Hok Hfresh Habs Hcall) as Hm.
      rewrite Hcall in Hloop.
      destruct Hpost as [Hinv1 Hsh1 Henv1 Hsub1 Hin1 Hfail1 Hfreed1 Hexact1].
      change (core (set_dist e 0)) with (core e) in *.
      rewrite (count_occupied_drop old i _ Hi) in Hfill.
      apply (IH (S i) m1 t1 t' m' extra); auto; try lia.
      * destruct Henv1; lia.
      * intros c Hc. destruct (Hsub1 c Hc) as [(_ & ->)|(Hc' & _)].
        -- exists i, e. split_and!; auto.
        -- destruct (Hsub c Hc') as (j & ej & Hj & Hej & Hcj). exists j, ej. split_and!; auto.
      * destruct (im_size _ _ _ _ _ _ Hm) as [(_ & Hs1 & Hc1)|Hfull]; lia.
    + rewrite (count_occupied_drop old i _ Hi) in Hfill.
      apply (IH (S i) m t t' m' extra); auto; try lia.
      intros c Hc. destruct (Hsub c Hc) as (j & ej & Hj & Hej & Hcj).
      exists j, ej. split_and!; auto.
Qed.

Lemma resize_more (f : nat) (ins : inserter) (m : env) (t : hash_table) (amt : Z)
    (t' : hash_table) (m' : env) (extra : Z) :
  inserter_ok f ins -> inserter_more f ins -> table_inv t ->
  (length (allocs m) <= f)%nat ->
  amt = 1 \/ (amt = -1 /\ 4 < max_size_shift t) ->
  hash_table_resize ins m t amt = Some (true, t', m') -> 0 <= extra ->
  max_size_shift t + amt <= Z.of_nat (count_occupied (buckets t)) + extra ->
  max_size_shift t' <= Z.of_nat (count_occupied (buckets t')) + extra.
Proof.
  intros Hins Hmore Hinv Hf Hamt Hres Hex Hfill.
  destruct (resize_unfold ins m t amt Hinv Hamt) as (Hs' & _ & Hun).
  rewrite Hun in Hres.
  destruct (calloc sizeof_ptr _ m) as [[|] m1] eqn:Hcalloc; [|discriminate].
  destruct (calloc_spec _ _ _ _ _ Hcalloc) as (_ & _ & _ & (Hlt & _ & Hfit)).
  destruct (rehash_loop _ _ _ _ _ _) as [[t3 m3]|] eqn:Hre; [|discriminate].
  injection Hres as <- <-.
  pose proof Hinv as [_ _ _ _ Hwf Hord Hkeys Hptrs _].
  refine (rehash_more f ins (buckets t) Hins Hmore Hkeys Hptrs
            (fun j e He => proj2 (proj2 (Hwf j e He)))
            (length (buckets t)) O m1 _ t3 m3 extra _ _ _ _ Hre Hex _).
  - reflexivity.
  - lia.
  - apply table_inv_empty; [lia|exact Hfit].
  - intros c Hc. exfalso. exact (stored_replicate _ _ Hc).
  - cbn [max_size_shift buckets]. rewrite count_occupied_replicate, drop_0. lia.
Qed.

(** ** [hash_table_insert] of a new key *)

Lemma insert_more_ok (fuel : nat) : inserter_more fuel (hash_table_insert fuel).
Proof.
  induction fuel as [|fuel IH]; intros m t X r t' m' Hf Hinv Hok Hfresh Habs Hcall; [lia|].
  pose proof (inv_shift_range t Hinv) as Hs.
  pose proof (walk_inv_start t X Hinv Hok Hfresh Habs) as Hw.
  destruct (insert_loop_fresh _ _ _ _ _ _ _ _ Hw)
    as (bf & Rf & pf & pcf & nf & Hloop & Hwf & Hend & Hlen & Hcnt & Hst & Hpos).
  pose proof (w_rem _ _ _ _ _ _ _ _ Hwf) as Hrem.
  change (home (max_size_shift t) X)
    with (Z.to_nat (fibonacci_hash (hash X) (max_size_shift t))) in Hloop.
  destruct nf as [|nf].
  - (* the probe window is exhausted *)
    assert (Hnfound : hash_table_is_next_found t pcf = false).
    { unfold hash_table_is_next_found. apply Z.ltb_ge. lia. }
    assert (Hfull : max_size_shift t <= Z.of_nat (count_occupied (buckets t))).
    { destruct (insert_loop_occupied _ _ _ _ _ _ _ _ _ _ Hloop) as (Hle & Hpc & Hocc).
      pose proof (count_occupied_segment (buckets t)
                    (pf - Z.to_nat (fibonacci_hash (hash X) (max_size_shift t)))
                    (Z.to_nat (fibonacci_hash (hash X) (max_size_shift t)))) as Hseg.
      pose proof (count_occupied_drop_le (buckets t)
                    (Z.to_nat (fibonacci_hash (hash X) (max_size_shift t)))) as Hdrop.
      assert (pf - Z.to_nat (fibonacci_hash (hash X) (max_size_shift t))
              <= count_occupied (drop (Z.to_nat (fibonacci_hash (hash X) (max_size_shift t)))
                                   (buckets t)))%nat.
      { apply Hseg. intros j Hj. apply Hocc. lia. }
      lia. }
    destruct (insert_unfold_exhausted fuel m t X Rf bf pf pcf Hinv Hok Hfresh Habs Hloop
                Hnfound) as ((d & Hun) & Hunf).
    rewrite Hunf in Hcall. unfold HASH_TABLE_RESIZE_INCREMENT in Hcall.
    destruct (resize_ok fuel (hash_table_insert fuel) m t 1 (insert_ok fuel) Hinv
                ltac:(lia) (or_introl eq_refl))
      as (r3 & t3 & m3 & Hres & [Hinv3 Hfail3 Hsh3 Hused3 Henv3 Hfr3 Hsub3 Hexact3]).
    rewrite Hres in Hcall. destruct r3.
    + (* the table has grown *)
      pose proof (resize_more fuel (hash_table_insert fuel) m t 1 t3 m3 1 (insert_ok fuel) IH
                    Hinv ltac:(lia) (or_introl eq_refl) Hres ltac:(lia) ltac:(lia)) as Hfill3.
      assert (Habs3 : key_absent (buckets t3) (key X)).
      { apply key_absent_stored. intros c Hc.
        apply (proj1 (key_absent_stored _ _) Habs). auto. }
      assert (Hfresh3 : ptr_fresh (buckets t3) (ptr X)).
      { apply ptr_fresh_stored. intros c Hc.
        apply (proj1 (ptr_fresh_stored _ _) Hfresh). auto. }
      pose proof (IH m3 t3 X r t' m' ltac:(specialize (Hused3 eq_refl); lia)
                    Hinv3 Hok Hfresh3 Habs3 Hcall) as [Hsize' Hfail'].
      destruct Henv3 as (_ & Hf3 & _).
      split.
      * right. destruct Hsize' as [(_ & Hs' & Hc')|Hfull']; lia.
      * intros Hr. destruct (Hfail' Hr)
          as (mf & b & R & p & pc & d' & Hl' & Hn' & Hu' & Ha' & Hle' & HS' & Hex').
        exists mf, b, R, p, pc, d'. split_and!; auto; [lia|].
        intros Hnf. destruct (Hexact3 ltac:(lia)) as (_ & Hkeep3 & Hcnt3).
        destruct (Hex' ltac:(lia)) as (Hst' & Hcnt'). split; [|lia].
        intros c. rewrite <- Hst'. split; auto.
    + (* no memory *)
      destruct (Hfail3 eq_refl) as (-> & Hnf3). injection Hcall as <- <- <-.
      split; [right; exact Hfull|]. intros _.
      exists m, bf, Rf, pf, pcf, d. split_and!; auto.
      * rewrite (grown_alloc m t Hinv).
        destruct (resize_unfold (hash_table_insert fuel) m t 1 Hinv (or_introl eq_refl))
          as (_ & _ & Hres').
        rewrite Hres' in Hres.
        destruct (calloc sizeof_ptr _ m) as [[|] m1] eqn:Hcalloc.
        -- destruct (rehash_loop _ _ _ _ _ _) as [[? ?]|]; discriminate.
        -- injection Hres as <-. reflexivity.
      * destruct (resize_unfold (hash_table_insert fuel) m t 1 Hinv (or_introl eq_refl))
          as (_ & _ & Hres').
        rewrite Hres' in Hres.
        destruct (calloc sizeof_ptr _ m) as [[|] m1] eqn:Hcalloc.
        -- destruct (rehash_loop _ _ _ _ _ _) as [[? ?]|]; discriminate.
        -- injection Hres as <-. destruct (calloc_spec _ _ _ _ _ Hcalloc) as (_ & _ & _ & H).
           exact H.
  - (* an empty bucket *)
    cbn [hash_table_insert] in Hcall. rewrite Hloop in Hcall.
    unfold hash_table_is_next_found in Hcall. cbn [set_buckets max_size_shift] in Hcall.
    rewrite (proj2 (Z.ltb_lt _ _)) in Hcall by lia.
    destruct Hend as [Hend|Hend]; [discriminate|]. rewrite Hend in Hcall.
    injection Hcall as <- <- <-. cbn [max_size_shift buckets].
    split; [|discriminate]. left. split; [reflexivity|split; [reflexivity|]].
    cbn [buckets]. rewrite (count_occupied_insert_new _ _ Rf Hend), Hcnt. reflexivity.
Qed.

(** * The claims on the public operations *)

(** ** The home index of a key *)

Lemma c_string_id (char_signed : bool) (bytes : list Z) :
  char_signed = false \/ Forall (fun b => b < 128) bytes ->
  c_string char_signed bytes = bytes.
Proof.
  intros H. unfold c_string. induction bytes as [|b l IH]; [reflexivity|].
  cbn [map]. rewrite IH.
  - f_equal. unfold char_of_byte. destruct H as [->|H]; [reflexivity|].
    apply Forall_cons in H. destruct H as (Hb & _).
    destruct (128 <=? b) eqn:E; zb; [lia|]. rewrite andb_false_r. reflexivity.
  - destruct H as [H|H]; [left; exact H|right].
    apply Forall_cons in H. tauto.
Qed.

(** C6, as amended: [djb2_hash] adds, for each byte of the key before the
    zero sentinel, the value of the byte read as a plain [char]: the home
    index is the digest (from 5381, [h * 33 + c] modulo the word, [c] being
    that value) times the Fibonacci constant of the word width (2654435769
    for 32 bits, 11400714819323198485 for 64 bits), with wrap-around,
    shifted right by [word_bits - max_size_shift]; it lies in
    [0, 2 ^ max_size_shift).  When plain [char] is unsigned, or every byte
    of the key is below 0x80, [c] is the byte and the home index is the one
    of the formula over the bytes.  The entry that
    [hash_table_entry_create] builds for the key has the same home index. *)
Theorem C6_home_index (char_signed : bool) (t : hash_table) (bytes : list Z) :
  word_bits = 32 \/ word_bits = 64 ->
  0 <= max_size_shift t <= word_bits ->
  hash_table_get_position t (c_string char_signed bytes)
    = home_index_spec (c_string char_signed bytes) (max_size_shift t) /\
  0 <= hash_table_get_position t (c_string char_signed bytes) < 2 ^ max_size_shift t /\
  (char_signed = false \/ Forall (fun b => b < 128) bytes ->
     hash_table_get_position t (c_string char_signed bytes)
       = home_index_spec bytes (max_size_shift t)) /\
  (forall d m X m',
     hash_table_entry_create (c_string char_signed bytes) d m = (Some X, m') ->
     fibonacci_hash (hash X) (max_size_shift t)
       = hash_table_get_position t (c_string char_signed bytes)) /\
  (word_bits = 32 -> fibonacci_constant_spec = 2654435769) /\
  (word_bits = 64 -> fibonacci_constant_spec = 11400714819323198485).
Proof.
  intros Hw Hs.
  assert (Hpos : 0 < 2 ^ word_bits) by (apply Z.pow_pos_nonneg; lia).
  assert (Heq : forall k, hash_table_get_position t k = home_index_spec k (max_size_shift t)).
  { intros k. unfold hash_table_get_position, fibonacci_hash, home_index_spec, djb2_hash,
      djb2_spec, to_size_t.
    cbv zeta. rewrite (djb2_loop_spec k 5381 Hpos), (fibonacci_multiplier_spec Hw).
    reflexivity. }
  split; [|split; [|split; [|split; [|split]]]].
  - apply Heq.
  - apply fibonacci_hash_range. exact Hs.
  - intros H. rewrite (c_string_id _ _ H). apply Heq.
  - intros d m X m'. unfold hash_table_entry_create.
    destruct (alloc m) as [[|] m1]; [|discriminate]. unfold fresh_ptr.
    destruct (alloc _) as [[|] m3]; [|discriminate].
    intros H. injection H as <- _. reflexivity.
  - intros H. unfold fibonacci_constant_spec. rewrite H. reflexivity.
  - intros H. unfold fibonacci_constant_spec. rewrite H. reflexivity.
Qed.

(** ** Adding a key that is present, and the empty key *)

(** C4, as amended: in every reachable state, adding a key that is present
    returns; when no allocation fails during the call it returns true, the
    size is unchanged, the entry that held the key is freed and is no more
    in the table, the table holds the new entry with the new payload, and
    [hash_table_get] of the key returns the new payload. *)
Theorem C4_replace_present (m : env) (t : hash_table) (k : list Z) (d0 d : Z) :
  reachable m t -> maps_to t k d0 ->
  (exists r t' m', hash_table_add m t k d = Some (r, t', m')) /\
  forall r t' m',
    hash_table_add m t k d = Some (r, t', m') ->
    alloc_failures m' = alloc_failures m ->
    r = true /\
    hash_table_get_size t' = hash_table_get_size t /\
    (exists i e, buckets t !! i = Some (Some e) /\ strcmp (key e) k = 0 /\
                 data e = d0 /\ freed m' = ptr e :: freed m /\
                 forall j e', buckets t' !! j = Some (Some e') -> ptr e' <> ptr e) /\
    (exists j e', buckets t' !! j = Some (Some e') /\ strcmp (key e') k = 0 /\
                  data e' = d /\ ptr e' = next_ptr m) /\
    hash_table_get t' k = Some d.
Proof.
  intros Hr Hmaps. pose proof (reachable_inv m t Hr) as Hst.
  split.
  { destruct (hash_table_add_ok m t k d Hst) as (r & t' & m' & Hadd & _). eauto. }
  intros r t' m' Hadd Hnf.
  pose proof (add_post_of _ _ _ _ _ _ _ Hr Hadd) as Hpost.
  destruct (ap_exact _ _ _ _ _ _ _ Hpost Hnf) as (-> & _ & _ & Hrep).
  pose proof (ap_in _ _ _ _ _ _ _ Hpost eq_refl) as Hin.
  destruct (ap_inv _ _ _ _ _ _ _ Hpost) as (Hinv' & _).
  destruct (hash_table_add_owner _ _ _ _ _ _ _ Hst Hadd) as (_ & Htrue & _).
  destruct (Htrue eq_refl) as (_ & _ & Hsub & _).
  destruct Hst as (Hinv & Hptr).
  destruct Hmaps as (i & e & He & Hk & Hd0).
  destruct (Hrep (core e) (stored_core _ _ _ He) Hk) as (Hsz & Hfr).
  split; [reflexivity|]. split; [exact Hsz|]. split; [|split].
  - exists i, e. split_and!; auto. intros j e' He' Hp.
    destruct (Hsub (core e') (stored_core _ _ _ He')) as [Hnew|(Hold & Hne)].
    + specialize (Hptr (core e) (stored_core _ _ _ He)).
      change (ptr (core e')) with (ptr e') in Hnew. change (ptr (core e)) with (ptr e) in Hptr.
      lia.
    + apply Hne.
      rewrite (stored_same_ptr _ _ _ (inv_ptrs t Hinv) Hold (stored_core _ _ _ He) Hp).
      exact Hk.
  - destruct Hin as (j & e' & He' & Hk' & Hd'). exists j, e'. split_and!; auto.
    destruct (Hsub (core e') (stored_core _ _ _ He')) as [Hnew|(_ & Hne)];
      [exact Hnew|contradiction].
  - apply maps_to_get; assumption.
Qed.

(** C10: [hash_table_add] takes the empty string as a key.  When its two
    allocations succeed, [hash_table_entry_create] builds an entry whose
    key is the terminator alone, with the digest 5381.  In every reachable
    state the call of [hash_table_add] returns; when no allocation fails
    during the call it returns true, the new entry is in the table with
    the empty key and the payload [p], and [hash_table_get] of the empty
    string returns [p]. *)
Theorem C10_add_empty_key (m : env) (t : hash_table) (p : Z) :
  reachable m t ->
  (forall rest, allocs m = true :: true :: rest ->
     hash_table_entry_create [] p m
     = (Some (Entry (next_ptr m) [0] 5381 p 0),
        Env rest (alloc_failures m) (next_ptr m + 1) (freed m))) /\
  (exists r t' m', hash_table_add m t [] p = Some (r, t', m')) /\
  forall r t' m',
    hash_table_add m t [] p = Some (r, t', m') ->
    alloc_failures m' = alloc_failures m ->
    r = true /\
    (exists i e, buckets t' !! i = Some (Some e) /\ ptr e = next_ptr m /\
                 strlen (key e) = O /\ data e = p) /\
    hash_table_get t' [] = Some p.
Proof.
  intros Hr. pose proof (reachable_inv m t Hr) as Hst. split_and!.
  - intros rest Hallocs. unfold hash_table_entry_create, alloc, fresh_ptr.
    rewrite Hallocs. cbn [allocs alloc_failures next_ptr freed]. reflexivity.
  - destruct (hash_table_add_ok m t [] p Hst) as (r & t' & m' & Hadd & _). eauto.
  - intros r t' m' Hadd Hnf.
    pose proof (add_post_of _ _ _ _ _ _ _ Hr Hadd) as Hpost.
    destruct (ap_exact _ _ _ _ _ _ _ Hpost Hnf) as (-> & _).
    pose proof (ap_in _ _ _ _ _ _ _ Hpost eq_refl) as Hin.
    destruct (ap_inv _ _ _ _ _ _ _ Hpost) as (Hinv' & _).
    destruct (hash_table_add_owner _ _ _ _ _ _ _ Hst Hadd) as (_ & Htrue & _).
    destruct (Htrue eq_refl) as (_ & _ & Hsub & _).
    split; [reflexivity|]. split; [|apply maps_to_get; assumption].
    destruct Hin as (i & e & He & Hk & Hd). exists i, e. split_and!; auto.
    + destruct (Hsub (core e) (stored_core _ _ _ He)) as [Hnew|(_ & Hne)];
        [exact Hnew|contradiction].
    + apply strcmp_nil_strlen. exact Hk.
Qed.

(** ** The round trip *)

Lemma run_reachable (f0 : nat) (m : env) (t : hash_table) (s : list (list Z * Z)) :
  run f0 m t s -> reachable m t.
Proof.
  induction 1; [eapply reach_create|eapply reach_add|eapply reach_remove]; eassumption.
Qed.

Lemma add_all_mono (l : list (list Z * Z)) :
  forall (m : env) (t t' : hash_table) (m' : env),
  reachable m t -> add_all m t l = Some (t', m') ->
  (alloc_failures m <= alloc_failures m')%nat.
Proof.
  induction l as [|[k d] l IH]; intros m t t' m' Hr Hall; cbn [add_all] in Hall.
  - injection Hall as <- <-. lia.
  - destruct (hash_table_add m t k d) as [[[r t1] m1]|] eqn:Hadd; [|discriminate].
    pose proof (ap_mono _ _ _ _ _ _ _ (add_post_of _ _ _ _ _ _ _ Hr Hadd)).
    pose proof (IH m1 t1 t' m' (reach_add _ _ _ _ _ _ _ Hr Hadd) Hall). lia.
Qed.

Lemma remove_all_mono (l : list (list Z)) :
  forall (m : env) (t : hash_table) (rs : list bool) (t' : hash_table) (m' : env),
  reachable m t -> remove_all m t l = Some (rs, t', m') ->
  (alloc_failures m <= alloc_failures m')%nat.
Proof.
  induction l as [|k l IH]; intros m t rs t' m' Hr Hall; cbn [remove_all] in Hall.
  - injection Hall as <- <- <-. lia.
  - destruct (hash_table_remove m t k) as [[[r t1] m1]|] eqn:Hrm; [|discriminate].
    destruct (remove_all m1 t1 l) as [[[rs1 t2] m2]|] eqn:Hrest; [|discriminate].
    injection Hall as <- <- <-.
    pose proof (rm_mono _ _ _ _ _ _ (remove_post_of _ _ _ _ _ _ Hr Hrm)).
    pose proof (IH m1 t1 rs1 t2 m2 (reach_remove _ _ _ _ _ _ Hr Hrm) Hrest). lia.
Qed.

(** Without a failed allocation every addition returns true. *)
Lemma add_all_run (f0 : nat) (l : list (list Z * Z)) :
  forall (m : env) (t : hash_table) (s : list (list Z * Z)) (t' : hash_table) (m' : env),
  run f0 m t s -> add_all m t l = Some (t', m') -> alloc_failures m' = f0 ->
  run f0 m' t' (map_add_all s l).
Proof.
  induction l as [|[k d] l IH]; intros m t s t' m' Hrun Hall Hnf; cbn [add_all] in Hall.
  - injection Hall as <- <-. exact Hrun.
  - destruct (hash_table_add m t k d) as [[[r t1] m1]|] eqn:Hadd; [|discriminate].
    pose proof (run_reachable _ _ _ _ Hrun) as Hr.
    pose proof (add_post_of _ _ _ _ _ _ _ Hr Hadd) as Hpost.
    pose proof (ap_mono _ _ _ _ _ _ _ Hpost) as Hmono.
    pose proof (add_all_mono l m1 t1 t' m' (reach_add _ _ _ _ _ _ _ Hr Hadd) Hall) as Hmono'.
    destruct (run_inv _ _ _ _ Hrun) as (_ & Hf0).
    destruct (ap_exact _ _ _ _ _ _ _ Hpost ltac:(lia)) as (-> & _).
    exact (IH m1 t1 _ t' m' (run_add f0 _ _ _ _ _ _ _ _ Hrun Hadd) Hall Hnf).
Qed.

(** Without a failed allocation a removal returns true exactly when the
    key is in the map. *)
Lemma remove_all_run (f0 : nat) (l : list (list Z)) :
  forall (m : env) (t : hash_table) (s : list (list Z * Z))
         (rs : list bool) (t' : hash_table) (m' : env),
  run f0 m t s -> remove_all m t l = Some (rs, t', m') -> alloc_failures m' = f0 ->
  run f0 m' t' (map_remove_all s l) /\ rs = map_results s l.
Proof.
  induction l as [|k l IH]; intros m t s rs t' m' Hrun Hall Hnf; cbn [remove_all] in Hall.
  - injection Hall as <- <- <-. split; [exact Hrun|reflexivity].
  - destruct (hash_table_remove m t k) as [[[r t1] m1]|] eqn:Hrm; [|discriminate].
    destruct (remove_all m1 t1 l) as [[[rs1 t2] m2]|] eqn:Hrest; [|discriminate].
    injection Hall as <- <- <-.
    pose proof (run_reachable _ _ _ _ Hrun) as Hr.
    pose proof (remove_post_of _ _ _ _ _ _ Hr Hrm) as Hpost.
    pose proof (rm_mono _ _ _ _ _ _ Hpost) as Hmono.
    pose proof (remove_all_mono l m1 t1 rs1 t2 m2 (reach_remove _ _ _ _ _ _ Hr Hrm) Hrest)
      as Hmono'.
    destruct (run_inv _ _ _ _ Hrun) as (_ & Hf0).
    pose proof (run_holds _ _ _ _ Hrun ltac:(lia)) as Hholds.
    destruct (rm_exact _ _ _ _ _ _ Hpost ltac:(lia)) as (_ & Habs & Hpres).
    pose proof (run_remove f0 _ _ _ _ _ _ _ Hrun Hrm) as Hrun1.
    assert (Hres : r = match map_lookup s k with Some _ => true | None => false end /\
                   (if r then map_remove s k else s) = map_remove s k).
    { destruct (map_lookup s k) as [d|] eqn:Hl.
      - destruct Hpres as (-> & _); [|auto].
        intros Ha. apply (holds_absent t s k Hholds) in Ha. congruence.
      - destruct (Habs (proj2 (holds_absent t s k Hholds) Hl)) as (-> & _).
        split; [reflexivity|]. symmetry. apply map_remove_absent. exact Hl. }
    destruct Hres as (Hr1 & Hs1). rewrite Hs1 in Hrun1.
    destruct (IH m1 t1 _ rs1 t2 m2 Hrun1 Hrest Hnf) as (Hrun2 & ->).
    split; [exact Hrun2|]. cbn [map_results]. rewrite Hr1. reflexivity.
Qed.

Lemma map_lookup_add (s : list (list Z * Z)) (k k' : list Z) (d : Z) :
  map_lookup (map_add s k d) k' =
  if strcmp k k' =? 0 then Some d else map_lookup s k'.
Proof.
  unfold map_add. cbn [map_lookup]. destruct (strcmp k k' =? 0) eqn:E; zb; [reflexivity|].
  apply map_lookup_remove_other. exact E.
Qed.

Lemma map_lookup_remove (s : list (list Z * Z)) (k k' : list Z) :
  map_lookup (map_remove s k) k' =
  if strcmp k k' =? 0 then None else map_lookup s k'.
Proof.
  destruct (strcmp k k' =? 0) eqn:E; zb.
  - apply map_lookup_remove_same. exact E.
  - apply map_lookup_remove_other. exact E.
Qed.

Lemma map_add_all_lookup (l : list (list Z * Z)) :
  forall (s : list (list Z * Z)) (k : list Z),
  map_lookup (map_add_all s l) k <> None <->
  map_lookup s k <> None \/ exists k' d, (k', d) ∈ l /\ strcmp k' k = 0.
Proof.
  induction l as [|[k1 d1] l IH]; intros s k; cbn [map_add_all fold_left].
  - split; [auto|]. intros [H|(k' & d & Hin & _)]; [exact H|]. apply elem_of_nil in Hin. tauto.
  - change (fold_left _ l ?x) with (map_add_all x l). rewrite IH. cbn [fst snd].
    rewrite map_lookup_add. split.
    + intros [H|(k' & d & Hin & Hk)].
      * destruct (strcmp k1 k =? 0) eqn:E; zb; [right|left; exact H].
        exists k1, d1. split; [apply list_elem_of_here|exact E].
      * right. exists k', d. split; [apply list_elem_of_further; exact Hin|exact Hk].
    + intros [H|(k' & d & Hin & Hk)].
      * left. destruct (strcmp k1 k =? 0); [discriminate|exact H].
      * apply elem_of_cons in Hin. destruct Hin as [Heq|Hin].
        -- injection Heq as -> ->. left. rewrite (proj2 (Z.eqb_eq _ _) Hk). discriminate.
        -- right. exists k', d. auto.
Qed.

Lemma map_remove_all_lookup (l : list (list Z)) :
  forall (s : list (list Z * Z)) (k : list Z),
  map_lookup (map_remove_all s l) k <> None <->
  map_lookup s k <> None /\ forall k', k' ∈ l -> strcmp k' k <> 0.
Proof.
  induction l as [|k1 l IH]; intros s k; cbn [map_remove_all fold_left].
  - split; [intros H; split; [exact H|]|tauto]. intros k' Hin. apply elem_of_nil in Hin. tauto.
  - change (fold_left _ l ?x) with (map_remove_all x l). rewrite IH, map_lookup_remove. split.
    + intros (H & Hl). destruct (strcmp k1 k =? 0) eqn:E; zb; [congruence|].
      split; [exact H|]. intros k' Hin. apply elem_of_cons in Hin.
      destruct Hin as [->|Hin]; [exact E|auto].
    + intros (H & Hl). assert (E : strcmp k1 k <> 0) by (apply Hl; apply list_elem_of_here).
      rewrite (proj2 (Z.eqb_neq _ _) E). split; [exact H|].
      intros k' Hin. apply Hl. apply list_elem_of_further. exact Hin.
Qed.

Lemma map_lookup_none_nil (s : list (list Z * Z)) :
  (forall k, map_lookup s k = None) -> s = [].
Proof.
  destruct s as [|[k d] s]; [reflexivity|]. intros H. specialize (H k).
  cbn [map_lookup] in H. rewrite strcmp_refl in H. discriminate.
Qed.

Lemma map_add_all_length (l : list (list Z * Z)) :
  forall s : list (list Z * Z),
  keys_differ (l.*1) -> (forall k, k ∈ l.*1 -> map_lookup s k = None) ->
  length (map_add_all s l) = (length s + length l)%nat.
Proof.
  induction l as [|[k d] l IH]; intros s Hd Hnew; cbn [map_add_all fold_left length].
  - lia.
  - change (fold_left _ l ?x) with (map_add_all x l). cbn [fmap list_fmap fst keys_differ] in Hd.
    destruct Hd as (Hk & Hd). cbn [fst snd].
    assert (Hks : map_lookup s k = None) by (apply Hnew; apply list_elem_of_here).
    rewrite IH; [| exact Hd |].
    + unfold map_add. cbn [length]. rewrite (map_remove_absent s k Hks). lia.
    + intros k' Hin. rewrite map_lookup_add.
      rewrite Forall_forall in Hk. rewrite (proj2 (Z.eqb_neq _ _) (Hk k' Hin)).
      apply Hnew. apply list_elem_of_further. exact Hin.
Qed.

Lemma map_results_true (l : list (list Z)) :
  forall s : list (list Z * Z),
  keys_differ l -> (forall k, k ∈ l -> map_lookup s k <> None) ->
  Forall (eq true) (map_results s l) /\ length (map_results s l) = length l.
Proof.
  induction l as [|k l IH]; intros s Hd Hin; cbn [map_results keys_differ length] in *.
  - split; [constructor|reflexivity].
  - destruct Hd as (Hk & Hd).
    destruct (IH (map_remove s k) Hd) as (Hall & Hlen).
    { intros k' Hk'. rewrite map_lookup_remove. rewrite Forall_forall in Hk.
      rewrite (proj2 (Z.eqb_neq _ _) (Hk k' Hk')). apply Hin.
      apply list_elem_of_further. exact Hk'. }
    split; [|lia]. constructor; [|exact Hall].
    specialize (Hin k (list_elem_of_here _ _)).
    destruct (map_lookup s k); [reflexivity|congruence].
Qed.

(** C5, as amended: the additions of keys that are pairwise different to
    a fresh table, followed by the removals of the same keys, each once,
    in any order, return.  When no allocation has failed since the call of
    [hash_table_create], the size after the additions is the number of
    keys, every removal returns true, the size is then 0, [hash_table_get]
    returns NULL for every key, and [max_size_shift] is at least 4. *)
Theorem C5_round_trip (m0 m1 : env) (t0 : hash_table)
    (adds : list (list Z * Z)) (rems : list (list Z)) :
  hash_table_create m0 = (Some t0, m1) ->
  keys_differ (adds.*1) -> keys_differ rems -> same_keys (adds.*1) rems ->
  (exists t1 m2 rs t2 m3,
     add_all m1 t0 adds = Some (t1, m2) /\
     remove_all m2 t1 rems = Some (rs, t2, m3)) /\
  forall t1 m2 rs t2 m3,
    add_all m1 t0 adds = Some (t1, m2) ->
    remove_all m2 t1 rems = Some (rs, t2, m3) ->
    alloc_failures m3 = alloc_failures m0 ->
    hash_table_get_size t1 = Z.of_nat (length adds) /\
    Forall (eq true) rs /\ length rs = length rems /\
    hash_table_get_size t2 = 0 /\
    (forall k, hash_table_get t2 k = Some NULL) /\
    HASH_TABLE_INITIAL_SHIFT <= max_size_shift t2.
Proof.
  intros Hcreate Hda Hdr (Hcov & Hcov').
  pose proof (hash_table_create_ok m0) as Hc. rewrite Hcreate in Hc.
  destruct Hc as (Hst0 & _ & _ & _ & _ & Hnf0).
  split.
  { destruct (add_all_ok adds m1 t0 Hst0) as (t1 & m2 & Hadds & Hst1 & _).
    destruct (remove_all_ok rems m2 t1 Hst1) as (rs & t2 & m3 & Hrems & _).
    exists t1, m2, rs, t2, m3. auto. }
  intros t1 m2 rs t2 m3 Hadds Hrems Hnf.
  assert (Hrun0 : run (alloc_failures m0) m1 t0 [])
    by (eapply run_create; [reflexivity|exact Hcreate]).
  pose proof (run_reachable _ _ _ _ Hrun0) as Hr0.
  pose proof (add_all_mono _ _ _ _ _ Hr0 Hadds) as Hm1.
  assert (Hr1 : reachable m2 t1).
  { clear -Hr0 Hadds. revert m1 t0 Hr0 Hadds.
    induction adds as [|[k d] l IH]; intros m1 t0 Hr0 Hadds; cbn [add_all] in Hadds.
    - injection Hadds as <- <-. exact Hr0.
    - destruct (hash_table_add m1 t0 k d) as [[[r t'] m']|] eqn:Hadd; [|discriminate].
      exact (IH _ _ (reach_add _ _ _ _ _ _ _ Hr0 Hadd) Hadds). }
  pose proof (remove_all_mono _ _ _ _ _ _ Hr1 Hrems) as Hm2.
  pose proof (add_all_run _ _ _ _ _ _ _ Hrun0 Hadds ltac:(lia)) as Hrun1.
  destruct (remove_all_run _ _ _ _ _ _ _ _ Hrun1 Hrems Hnf) as (Hrun2 & ->).
  pose proof (run_holds _ _ _ _ Hrun1 ltac:(lia)) as (_ & Hsz1 & _).
  pose proof (run_holds _ _ _ _ Hrun2 Hnf) as Hh2.
  destruct (run_inv _ _ _ _ Hrun2) as ((Hinv2 & _) & _).
  assert (Hin1 : forall k, k ∈ rems -> map_lookup (map_add_all [] adds) k <> None).
  { intros k Hk. apply map_add_all_lookup. right.
    destruct (Hcov' k Hk) as (k' & Hk' & Hkk). apply list_elem_of_fmap in Hk'.
    destruct Hk' as ([k0 d0] & -> & Hin). exists k0, d0. split; [exact Hin|].
    apply strcmp_sym. exact Hkk. }
  assert (Hnil : map_remove_all (map_add_all [] adds) rems = []).
  { apply map_lookup_none_nil. intros k.
    destruct (map_lookup (map_remove_all (map_add_all [] adds) rems) k) eqn:Hl; [|reflexivity].
    exfalso.
    assert (Hne : map_lookup (map_remove_all (map_add_all [] adds) rems) k <> None)
      by congruence.
    apply map_remove_all_lookup in Hne. destruct Hne as (Hne & Hall).
    apply map_add_all_lookup in Hne. destruct Hne as [Hne|(k' & d & Hin & Hk)];
      [apply Hne; reflexivity|].
    destruct (Hcov k') as (k'' & Hin'' & Hkk).
    { apply list_elem_of_fmap. exists (k', d). auto. }
    apply (Hall k'' Hin''). apply strcmp_trans with k'; [apply strcmp_sym; exact Hkk|exact Hk]. }
  destruct (map_results_true rems (map_add_all [] adds) Hdr Hin1) as (Hall & Hlen).
  rewrite Hnil in Hh2. destruct Hh2 as (Hmap & Hsz2 & _).
  split_and!; auto.
  - unfold hash_table_get_size. rewrite Hsz1.
    rewrite (map_add_all_length adds [] Hda); [reflexivity|]. reflexivity.
  - intros k. apply hash_table_get_absent; [exact Hinv2|].
    intros i e He Hk. assert (Hm : maps_to t2 k (data e)) by (exists i, e; auto).
    apply Hmap in Hm. discriminate.
  - exact (inv_shift t2 Hinv2).
Qed.

(** * The requests for a resize *)

(** ** The load factors for less than [2 ^ 24] entries *)

Lemma shrink_threshold_all (x s : Z) :
  0 <= x < 2 ^ 24 -> 0 <= s ->
  (x * 2 ^ 27 < 13421773 * 2 ^ s <-> 10 * x < 2 ^ s).
Proof.
  intros Hx Hs. destruct (Z_le_gt_dec s 26) as [Hle|Hgt].
  - apply shrink_threshold; lia.
  - assert (Hp : 2 ^ 27 <= 2 ^ s) by (apply Z.pow_le_mono_r; lia).
    destruct (decide (s = 27)) as [->|Hne].
    + change (2 ^ 27) with 134217728. change (2 ^ 24) with 16777216 in Hx. lia.
    + assert (Hp' : 2 ^ 28 <= 2 ^ s) by (apply Z.pow_le_mono_r; lia).
      change (2 ^ 27) with 134217728 in *. change (2 ^ 28) with 268435456 in Hp'.
      change (2 ^ 24) with 16777216 in Hx. split; intros _; lia.
Qed.

Lemma up_factor_all (t : hash_table) :
  32 <= word_bits ->
  0 <= max_size_shift t -> max_size t = 2 ^ max_size_shift t ->
  0 <= curr_size t -> curr_size t + 1 < 2 ^ 24 ->
  (hash_table_should_resize_up_factor t = true <->
     4 * (curr_size t + 1) > 3 * max_size t).
Proof.
  intros Hw Hs Hsz Hc0 Hc.
  assert (Hmax : 2 ^ 24 <= SIZE_MAX).
  { unfold SIZE_MAX. assert (2 ^ 32 <= 2 ^ word_bits) by (apply Z.pow_le_mono_r; lia). lia. }
  pose proof (float_round_exact 1 (max_size_shift t) ltac:(lia) ltac:(lia)) as H1.
  rewrite Z.mul_1_l in H1.
  unfold hash_table_should_resize_up_factor, float_gt, float_mul,
    HASH_TABLE_LOAD_FACTOR_INCREASE. cbn [fst snd]. rewrite Hsz, H1.
  rewrite (Z.mul_comm (2 ^ max_size_shift t) 3).
  rewrite (float_round_exact 3 (max_size_shift t)) by lia.
  rewrite to_size_t_small by lia. rewrite float_round_small by lia.
  change (2 ^ 2) with 4. rewrite Z.gtb_ltb, Z.ltb_lt. lia.
Qed.

Lemma down_factor_all (t : hash_table) :
  32 <= word_bits ->
  0 <= max_size_shift t -> max_size t = 2 ^ max_size_shift t ->
  1 <= curr_size t -> curr_size t + 1 < 2 ^ 24 ->
  (hash_table_should_resize_down_factor t = true <->
     4 < max_size_shift t /\ 10 * (curr_size t - 1) < max_size t).
Proof.
  intros Hw Hs Hsz Hc1 Hc.
  assert (Hmax : 2 ^ 24 <= SIZE_MAX).
  { unfold SIZE_MAX. assert (2 ^ 32 <= 2 ^ word_bits) by (apply Z.pow_le_mono_r; lia). lia. }
  pose proof (float_round_exact 1 (max_size_shift t) ltac:(lia) ltac:(lia)) as H1.
  rewrite Z.mul_1_l in H1.
  unfold hash_table_should_resize_down_factor, float_lt, float_mul,
    HASH_TABLE_LOAD_FACTOR_DECREASE, HASH_TABLE_INITIAL_SHIFT. cbn [fst snd].
  rewrite Hsz, H1. rewrite (Z.mul_comm (2 ^ max_size_shift t) 13421773).
  rewrite (float_round_exact 13421773 (max_size_shift t)) by lia.
  rewrite to_size_t_small by lia. rewrite float_round_small by lia.
  destruct (max_size_shift t <=? 4) eqn:Hle; zb.
  - split; [discriminate|lia].
  - rewrite Z.ltb_lt.
    rewrite (shrink_threshold_all (curr_size t - 1) (max_size_shift t)) by lia.
    split; [intros H; split; [lia|exact H]|tauto].
Qed.

Lemma pow2_linear (s : Z) : 4 <= s -> 4 * s <= 2 ^ s /\ (5 <= s -> 10 * (s - 2) < 2 ^ s).
Proof.
  intros Hs. replace s with (4 + (s - 4)) by lia.
  assert (H0 : 0 <= s - 4) by lia. revert H0. generalize (s - 4). clear s Hs.
  apply (natlike_ind (fun n => 4 * (4 + n) <= 2 ^ (4 + n) /\
                               (5 <= 4 + n -> 10 * (4 + n - 2) < 2 ^ (4 + n)))).
  - split; [vm_compute; discriminate|lia].
  - intros n Hn (IH1 & IH2).
    replace (4 + Z.succ n) with (Z.succ (4 + n)) by lia.
    rewrite Z.pow_succ_r by lia. split; [lia|]. intros _.
    destruct (decide (n = 0)) as [->|Hne]; [vm_compute; reflexivity|].
    specialize (IH2 ltac:(lia)). lia.
Qed.

(** ** Tables are as full as they are wide *)

Lemma up_true_filled (t : hash_table) :
  32 <= word_bits -> table_inv t ->
  hash_table_should_resize_up_factor t = true ->
  max_size_shift t + 1 <= Z.of_nat (count_occupied (buckets t)).
Proof.
  intros Hw Hinv Hup.
  pose proof (inv_shift_range t Hinv) as Hs.
  rewrite <- (inv_count t Hinv).
  assert (Hc0 : 0 <= curr_size t) by (rewrite (inv_count t Hinv); lia).
  destruct (Z_lt_ge_dec (curr_size t + 1) (2 ^ 24)) as [Hlt|Hge].
  - apply (up_factor_all t Hw ltac:(lia) (inv_size t Hinv) Hc0 Hlt) in Hup.
    rewrite (inv_size t Hinv) in Hup.
    destruct (pow2_linear (max_size_shift t) ltac:(lia)) as (Hlin & _). lia.
  - change (2 ^ 24) with 16777216 in Hge. lia.
Qed.

Lemma down_false_filled (t : hash_table) :
  32 <= word_bits -> table_inv t -> filled t ->
  hash_table_should_resize_down_factor t = false ->
  max_size_shift t = HASH_TABLE_INITIAL_SHIFT \/ max_size_shift t <= curr_size t.
Proof.
  intros Hw Hinv Hfill Hdown.
  pose proof (inv_shift_range t Hinv) as Hs. unfold HASH_TABLE_INITIAL_SHIFT in *.
  destruct Hfill as [Hfill|Hfill]; [left; exact Hfill|].
  destruct (decide (max_size_shift t = 4)) as [H4|H4]; [left; exact H4|right].
  destruct (Z_le_gt_dec (max_size_shift t) (curr_size t)) as [Hle|Hgt]; [exact Hle|].
  exfalso.
  assert (Hc : curr_size t = max_size_shift t - 1) by lia.
  assert (Htrue : hash_table_should_resize_down_factor t = true).
  { apply (down_factor_all t Hw ltac:(lia) (inv_size t Hinv) ltac:(lia)).
    - change (2 ^ 24) with 16777216. lia.
    - rewrite (inv_size t Hinv), Hc.
      destruct (pow2_linear (max_size_shift t) ltac:(lia)) as (_ & Hlin).
      specialize (Hlin ltac:(lia)). lia. }
  congruence.
Qed.

Lemma hash_table_add_filled (m : env) (t : hash_table) (k : list Z) (d : Z)
    (r : bool) (t' : hash_table) (m' : env) :
  32 <= word_bits -> state_inv m t -> filled t ->
  hash_table_add m t k d = Some (r, t', m') -> filled t'.
Proof.
  intros Hw (Hinv & Hptr) Hfill Hadd. unfold hash_table_add, add_precheck in Hadd.
  pose proof (entry_create_spec m k d) as Hcreate.
  destruct (hash_table_entry_create k d m) as [[X|] m1];
    [|injection Hadd as <- <- <-; exact Hfill].
  destruct Hcreate as (Hok & Hk & Hd & HpX & Hn1 & Hf1 & Hfr1).
  destruct (resize_before_ok (hash_table_should_resize_up_factor t) m1 t
              HASH_TABLE_RESIZE_INCREMENT Hinv ltac:(left; reflexivity))
    as (r1 & t1 & m2 & Hres & Hinv1 & Henv1 & Hfr2 & Hsh1 & Hsub1 & Hfail1 & Hexact1).
  assert (Hfill1 : r1 = true -> filled t1).
  { intros ->. destruct (hash_table_should_resize_up_factor t) eqn:Hup.
    - right. rewrite (inv_count t1 Hinv1).
      pose proof (resize_more (fuel_of m1) (hash_table_insert (fuel_of m1)) m1 t 1 t1 m2 0
                    (insert_ok _) (insert_more_ok _) Hinv ltac:(unfold fuel_of; lia)
                    (or_introl eq_refl) Hres ltac:(lia)) as Hm.
      pose proof (up_true_filled t Hw Hinv Hup). lia.
    - injection Hres as <- <-. exact Hfill. }
  rewrite Hres in Hadd. destruct r1.
  2:{ destruct (Hfail1 eq_refl) as (-> & _). injection Hadd as <- <- <-. exact Hfill. }
  specialize (Hfill1 eq_refl).
  assert (Hfresh1 : ptr_fresh (buckets t1) (ptr X)).
  { apply ptr_fresh_stored. intros c Hc. specialize (Hptr c (Hsub1 c Hc)). lia. }
  destruct (hash_table_insert (fuel_of m2) m2 t1 X) as [[[r2 t2] m3]|] eqn:Hcall;
    [|discriminate].
  assert (Hfill2 : filled t2).
  { destruct (key_absent_dec (buckets t1) (key X)) as [Habs|(iK & K & HK & HkK)].
    - destruct (insert_ok (fuel_of m2) m2 t1 X ltac:(unfold fuel_of; lia) Hinv1 Hok Hfresh1)
        as (r' & t2' & m3' & Hcall' & [Hinv2 _ _ _ _ _ _ _]).
      rewrite Hcall in Hcall'. injection Hcall' as <- <- <-.
      pose proof (insert_more_ok (fuel_of m2) m2 t1 X r2 t2 m3
                    ltac:(unfold fuel_of; lia) Hinv1 Hok Hfresh1 Habs Hcall) as [Hsize _].
      unfold filled in *. rewrite (inv_count t2 Hinv2).
      rewrite (inv_count t1 Hinv1) in Hfill1.
      destruct Hsize as [(_ & Hs2 & Hc2)|Hfull]; [|right; lia].
      rewrite Hs2, Hc2. destruct Hfill1; [left; assumption|right; lia].
    - unfold fuel_of in Hcall.
      rewrite (insert_present _ m2 t1 X K iK Hinv1 Hok HK HkK) in Hcall.
      injection Hcall as _ <- _. exact Hfill1. }
  destruct r2; injection Hadd as <- <- <-; exact Hfill2.
Qed.

Lemma remove_after_precheck (m m1 : env) (t t1 : hash_table) (k : list Z)
    (r : bool) (t' : hash_table) (m' : env) :
  table_inv t1 -> remove_precheck m t = Some (true, t1, m1) ->
  hash_table_remove m t k = Some (r, t', m') ->
  max_size_shift t' = max_size_shift t1 /\
  allocs m' = allocs m1 /\ alloc_failures m' = alloc_failures m1 /\
  (t' = t1 \/ curr_size t' = curr_size t1 - 1).
Proof.
  intros Hinv1 Hpre Hrem. unfold hash_table_remove in Hrem. rewrite Hpre in Hrem.
  cbv zeta in Hrem.
  destruct (iterate_to_next _ _ _ _ _) as [[p pc]|]; [|discriminate].
  destruct (negb _); [injection Hrem as <- <- <-; auto|].
  destruct (buckets t1 !! p) as [[e|]|] eqn:He;
    [|injection Hrem as <- <- <-; auto|discriminate].
  destruct (remove_from_position_ok t1 p e Hinv1 He) as (t2 & Hrp & _ & Hs2 & Hc2 & _).
  rewrite Hrp in Hrem. injection Hrem as <- <- <-. auto.
Qed.

Lemma down_true_shift (t : hash_table) :
  hash_table_should_resize_down_factor t = true -> 4 < max_size_shift t.
Proof.
  unfold hash_table_should_resize_down_factor, HASH_TABLE_INITIAL_SHIFT.
  destruct (max_size_shift t <=? 4) eqn:Hle; zb; [discriminate|lia].
Qed.

Lemma hash_table_remove_filled (m : env) (t : hash_table) (k : list Z)
    (r : bool) (t' : hash_table) (m' : env) :
  32 <= word_bits -> state_inv m t -> filled t ->
  hash_table_remove m t k = Some (r, t', m') -> filled t'.
Proof.
  intros Hw (Hinv & Hptr) Hfill Hrem.
  pose proof (inv_shift_range t Hinv) as Hs.
  destruct (resize_before_ok (hash_table_should_resize_down_factor t) m t (-1) Hinv)
    as (r1 & t1 & m1 & Hres & Hinv1 & Henv1 & Hfr1 & _ & Hsub1 & Hfail1 & Hexact1).
  { right. split; [reflexivity|]. apply down_true_shift. }
  assert (Hpre : remove_precheck m t = Some (r1, t1, m1)) by exact Hres.
  destruct r1.
  2:{ destruct (Hfail1 eq_refl) as (-> & _). unfold hash_table_remove in Hrem.
      rewrite Hpre in Hrem. injection Hrem as <- <- <-. exact Hfill. }
  destruct (remove_after_precheck m m1 t t1 k r t' m' Hinv1 Hpre Hrem)
    as (Hs' & _ & _ & Hc').
  assert (Hfill1 : max_size_shift t1 = HASH_TABLE_INITIAL_SHIFT \/
                   max_size_shift t1 <= curr_size t1).
  { destruct (hash_table_should_resize_down_factor t) eqn:Hdown.
    - right. rewrite (inv_count t1 Hinv1).
      pose proof (down_true_shift t Hdown) as Hgt.
      pose proof (resize_more (fuel_of m) (hash_table_insert (fuel_of m)) m t (-1) t1 m1 0
                    (insert_ok _) (insert_more_ok _) Hinv ltac:(unfold fuel_of; lia)
                    (or_intror (conj eq_refl Hgt)) Hres ltac:(lia)) as Hm.
      rewrite <- (inv_count t Hinv) in Hm.
      destruct Hfill as [Hfill|Hfill]; unfold HASH_TABLE_INITIAL_SHIFT in *; lia.
    - injection Hres as <- <-. apply down_false_filled; assumption. }
  unfold filled. rewrite Hs'.
  destruct Hc' as [->|Hc']; [|rewrite Hc']; destruct Hfill1; [left|right|left|right];
    auto; lia.
Qed.

Lemma reachable_filled (m : env) (t : hash_table) :
  32 <= word_bits -> reachable m t -> filled t.
Proof.
  intros Hw Hr. induction Hr as [m t m' Hcreate|m t k d r t' m' Hr IH Hadd
                                 |m t k r t' m' Hr IH Hrem].
  - pose proof (hash_table_create_ok m) as Hok. rewrite Hcreate in Hok.
    destruct Hok as (_ & _ & Hs & _). left. exact Hs.
  - exact (hash_table_add_filled m t k d r t' m' Hw (reachable_inv m t Hr) IH Hadd).
  - exact (hash_table_remove_filled m t k r t' m' Hw (reachable_inv m t Hr) IH Hrem).
Qed.

(** ** When the allocator is called *)

Lemma window_present (t : hash_table) (X K : hash_table_entry) (iK : nat) :
  table_inv t -> entry_ok X ->
  buckets t !! iK = Some (Some K) -> strcmp (key K) (key X) = 0 ->
  window_exhausted t X = false.
Proof.
  intros Hinv (Hd & Hh) HK Hk.
  pose proof (inv_shift_range t Hinv) as Hs.
  pose proof (inv_length_Z t Hinv) as Hlen.
  pose proof (inv_home_lt t Hinv (hash X)) as Hhome.
  destruct Hinv as [_ _ _ _ Hwf Hord Hkeys Hptrs _].
  destruct (Hwf _ _ HK) as (HhK & HdK & HhashK).
  assert (Hhm : home (max_size_shift t) X = home (max_size_shift t) K).
  { unfold home. rewrite Hh, HhashK. f_equal. f_equal.
    apply djb2_hash_strcmp. apply strcmp_sym. exact Hk. }
  unfold window_exhausted.
  change (Z.to_nat (fibonacci_hash (hash X) (max_size_shift t)))
    with (home (max_size_shift t) X).
  rewrite (insert_loop_present (max_size_shift t) (buckets t) (key X) K iK
             Hwf Hord Hkeys ltac:(lia) HK Hk
             (iK - home (max_size_shift t) X) _ _ 0 X eq_refl); try lia.
  unfold hash_table_is_next_found. cbn [set_buckets max_size_shift buckets].
  destruct (_ <? _) eqn:Hlt; zb; [reflexivity|lia].
Qed.

Lemma insert_found (fuel : nat) (m : env) (t : hash_table) (X : hash_table_entry)
    (r : bool) (t' : hash_table) (m' : env) :
  window_exhausted t X = false ->
  hash_table_insert (S fuel) m t X = Some (r, t', m') ->
  r = true /\ max_size_shift t' = max_size_shift t /\
  allocs m' = allocs m /\ alloc_failures m' = alloc_failures m.
Proof.
  intros Hwx Hcall. unfold window_exhausted in Hwx. cbn [hash_table_insert] in Hcall.
  destruct (insert_loop _ _ _ _ _ _) as [[[[b R] p] pc]|]; [|discriminate].
  destruct (hash_table_is_next_found (set_buckets t b) pc); [|discriminate].
  destruct (b !! p) as [[cur|]|]; [| |discriminate]; injection Hcall as <- <- <-; auto.
Qed.

Lemma resize_asked (f : nat) (ins : inserter) (m : env) (t : hash_table) (amt : Z)
    (r : bool) (t' : hash_table) (m' : env) :
  inserter_ok f ins -> table_inv t -> (length (allocs m) <= f)%nat ->
  amt = 1 \/ (amt = -1 /\ 4 < max_size_shift t) ->
  hash_table_resize ins m t amt = Some (r, t', m') ->
  resize_post m t amt r t' m' /\ asked m m' /\
  (forall m2, calloc sizeof_ptr (2 ^ (max_size_shift t + amt) + (max_size_shift t + amt)) m
              = (false, m2) -> r = false /\ t' = t /\ m' = m2) /\
  (forall m2, calloc sizeof_ptr (2 ^ (max_size_shift t + amt) + (max_size_shift t + amt)) m
              = (true, m2) -> r = true).
Proof.
  intros Hins Hinv Hf Hamt Hres.
  destruct (resize_ok f ins m t amt Hins Hinv Hf Hamt) as (r0 & t0 & m0 & Hres0 & Hpost).
  rewrite Hres in Hres0. injection Hres0 as <- <- <-.
  split; [exact Hpost|]. split.
  - destruct r; [left; exact (rp_used _ _ _ _ _ _ Hpost eq_refl)|].
    right. exact (proj2 (rp_fail _ _ _ _ _ _ Hpost eq_refl)).
  - destruct (resize_unfold ins m t amt Hinv Hamt) as (_ & _ & Hun).
    rewrite Hun in Hres. split; intros m2 Hc; rewrite Hc in Hres.
    + injection Hres as <- <- <-. auto.
    + destruct (rehash_loop _ _ _ _ _ _) as [[? ?]|]; [|discriminate].
      injection Hres as <- _ _. reflexivity.
Qed.

Lemma grown_alloc_cases (m : env) (t : hash_table) :
  table_inv t ->
  (forall m2, hash_table_buckets_alloc (grown t) m = (None, m2) ->
     calloc sizeof_ptr (2 ^ (max_size_shift t + 1) + (max_size_shift t + 1)) m = (false, m2)) /\
  (forall b m2, hash_table_buckets_alloc (grown t) m = (Some b, m2) ->
     calloc sizeof_ptr (2 ^ (max_size_shift t + 1) + (max_size_shift t + 1)) m = (true, m2)).
Proof.
  intros Hinv. rewrite (grown_alloc m t Hinv).
  destruct (calloc _ _ m) as [[|] mc]; split; intros; congruence.
Qed.

Lemma shrunk_alloc_cases (m : env) (t : hash_table) :
  table_inv t -> 4 < max_size_shift t ->
  (forall m2, hash_table_buckets_alloc (shrunk t) m = (None, m2) ->
     calloc sizeof_ptr (2 ^ (max_size_shift t + -1) + (max_size_shift t + -1)) m
     = (false, m2)) /\
  (forall b m2, hash_table_buckets_alloc (shrunk t) m = (Some b, m2) ->
     calloc sizeof_ptr (2 ^ (max_size_shift t + -1) + (max_size_shift t + -1)) m
     = (true, m2)).
Proof.
  intros Hinv Hs. rewrite (shrunk_alloc m t Hinv Hs).
  destruct (calloc _ _ m) as [[|] mc]; split; intros; congruence.
Qed.

Lemma insert_exhausted_asked (fuel : nat) (m : env) (t : hash_table)
    (X : hash_table_entry) (r : bool) (t' : hash_table) (m' : env) :
  table_inv t -> entry_ok X -> ptr_fresh (buckets t) (ptr X) ->
  (length (allocs m) < S fuel)%nat -> window_exhausted t X = true ->
  hash_table_insert (S fuel) m t X = Some (r, t', m') ->
  asked m m' /\
  (forall m2, hash_table_buckets_alloc (grown t) m = (None, m2) ->
     r = false /\ t' = t /\ m' = m2) /\
  (forall b m2, hash_table_buckets_alloc (grown t) m = (Some b, m2) ->
     max_size_shift t + 1 <= max_size_shift t').
Proof.
  intros Hinv Hok Hfresh Hf Hwx Hcall.
  assert (Habs : key_absent (buckets t) (key X)).
  { destruct (key_absent_dec (buckets t) (key X)) as [Habs|(iK & K & HK & Hk)];
      [exact Habs|].
    rewrite (window_present t X K iK Hinv Hok HK Hk) in Hwx. discriminate. }
  unfold window_exhausted in Hwx.
  destruct (insert_loop _ _ _ _ _ _) as [[[[b R] p] pc]|] eqn:Hloop; [|discriminate].
  assert (Hnf : hash_table_is_next_found t pc = false).
  { change (hash_table_is_next_found (set_buckets t b) pc)
      with (hash_table_is_next_found t pc) in Hwx.
    destruct (hash_table_is_next_found t pc); [discriminate|reflexivity]. }
  destruct (insert_unfold_exhausted fuel m t X R b p pc Hinv Hok Hfresh Habs Hloop Hnf)
    as (_ & Hunf).
  rewrite Hunf in Hcall. unfold HASH_TABLE_RESIZE_INCREMENT in Hcall.
  destruct (hash_table_resize (hash_table_insert fuel) m t 1) as [[[r3 t3] m3]|] eqn:Hres;
    [|discriminate].
  destruct (resize_asked fuel (hash_table_insert fuel) m t 1 r3 t3 m3 (insert_ok fuel) Hinv
              ltac:(lia) (or_introl eq_refl) Hres)
    as ([Hinv3 Hfail3 Hsh3 Hused3 Henv3 Hfr3 Hsub3 _] & Hasked & Hno & Hyes).
  destruct (grown_alloc_cases m t Hinv) as (Hnone & Hsome).
  destruct r3.
  - assert (Hfresh3 : ptr_fresh (buckets t3) (ptr X)).
    { apply ptr_fresh_stored. intros c Hc.
      apply (proj1 (ptr_fresh_stored _ _) Hfresh). auto. }
    destruct (insert_ok fuel m3 t3 X ltac:(specialize (Hused3 eq_refl); lia)
                Hinv3 Hok Hfresh3)
      as (r' & t0 & m0 & Hcall' & [_ Hsh' (Hl' & Hfm' & _) _ _ _ _ _]).
    rewrite Hcall in Hcall'. injection Hcall' as <- <- <-.
    specialize (Hused3 eq_refl). specialize (Hsh3 eq_refl).
    split; [left; lia|]. split.
    + intros m2 Hm2. specialize (Hno m2 (Hnone m2 Hm2)). destruct Hno; discriminate.
    + intros _ _ _. lia.
  - injection Hcall as <- <- <-. split; [exact Hasked|]. split.
    + intros m2 Hm2. destruct (Hno m2 (Hnone m2 Hm2)) as (_ & -> & ->). auto.
    + intros b0 m2 Hm2. specialize (Hyes m2 (Hsome b0 m2 Hm2)). discriminate.
Qed.

Lemma hash_table_add_request (m m1 : env) (t : hash_table) (k : list Z) (d : Z)
    (X : hash_table_entry) (r : bool) (t' : hash_table) (m' : env) :
  state_inv m t ->
  hash_table_entry_create k d m = (Some X, m1) ->
  hash_table_add m t k d = Some (r, t', m') ->
  (asked m1 m' <->
     hash_table_should_resize_up_factor t = true \/ window_exhausted t X = true) /\
  (~ asked m1 m' -> max_size_shift t' = max_size_shift t) /\
  (asked m1 m' ->
     (forall m2, hash_table_buckets_alloc (grown t) m1 = (None, m2) ->
        r = false /\ t' = t /\ m' = hash_table_entry_free X m2) /\
     (forall b m2, hash_table_buckets_alloc (grown t) m1 = (Some b, m2) ->
        max_size_shift t + 1 <= max_size_shift t')).
Proof.
  intros (Hinv & Hptr) Hcreate Hadd.
  pose proof (entry_create_spec m k d) as Hc. rewrite Hcreate in Hc.
  destruct Hc as (Hok & Hk & Hd & HpX & Hn1 & Hf1 & Hfr1).
  assert (Hfresh : ptr_fresh (buckets t) (ptr X)).
  { apply ptr_fresh_stored. intros c Hc. specialize (Hptr c Hc). lia. }
  unfold hash_table_add in Hadd. rewrite Hcreate in Hadd. unfold add_precheck in Hadd.
  destruct (grown_alloc_cases m1 t Hinv) as (Hnone & Hsome).
  destruct (hash_table_should_resize_up_factor t) eqn:Hup.
  - (* the check of the load factor asks for a grow *)
    unfold HASH_TABLE_RESIZE_INCREMENT in Hadd.
    destruct (hash_table_resize (hash_table_insert (fuel_of m1)) m1 t 1)
      as [[[r1 t1] m2]|] eqn:Hres; [|discriminate].
    destruct (resize_asked (fuel_of m1) (hash_table_insert (fuel_of m1)) m1 t 1 r1 t1 m2
                (insert_ok _) Hinv ltac:(unfold fuel_of; lia) (or_introl eq_refl) Hres)
      as ([Hinv1 Hfail1 Hsh1 Hused1 Henv1 Hfr1' Hsub1 _] & Hasked & Hno & Hyes).
    destruct r1.
    + assert (Hfresh1 : ptr_fresh (buckets t1) (ptr X)).
      { apply ptr_fresh_stored. intros c Hc.
        apply (proj1 (ptr_fresh_stored _ _) Hfresh). auto. }
      destruct (insert_ok (fuel_of m2) m2 t1 X ltac:(unfold fuel_of; lia)
                  Hinv1 Hok Hfresh1)
        as (r2 & t2 & m3 & Hcall & [_ Hsh2 (Hl2 & Hfm2 & _) _ _ _ _ _]).
      rewrite Hcall in Hadd. specialize (Hused1 eq_refl). specialize (Hsh1 eq_refl).
      assert (Hask : asked m1 m').
      { left. destruct r2; injection Hadd as _ _ <-;
          cbn [hash_table_entry_free allocs]; lia. }
      assert (Ht' : t' = t2) by (destruct r2; injection Hadd as _ <- _; reflexivity).
      subst t'. split; [split; [auto|intros _; exact Hask]|].
      split; [intros Hn; destruct (Hn Hask)|]. intros _. split.
      * intros m0 Hm0. specialize (Hno m0 (Hnone m0 Hm0)). destruct Hno; discriminate.
      * intros _ _ _. lia.
    + destruct (Hfail1 eq_refl) as (-> & Hf2). injection Hadd as <- <- <-.
      assert (Hask : asked m1 (hash_table_entry_free X m2)).
      { right. cbn [hash_table_entry_free alloc_failures]. exact Hf2. }
      split; [split; [auto|intros _; exact Hask]|].
      split; [intros Hn; destruct (Hn Hask)|]. intros _. split.
      * intros m0 Hm0. destruct (Hno m0 (Hnone m0 Hm0)) as (_ & _ & ->). auto.
      * intros b0 m0 Hm0. specialize (Hyes m0 (Hsome b0 m0 Hm0)). discriminate.
  - destruct (hash_table_insert (fuel_of m1) m1 t X) as [[[r2 t2] m3]|] eqn:Hcall;
      [|discriminate].
    destruct (window_exhausted t X) eqn:Hwx.
    + (* the walk runs out of probes *)
      unfold fuel_of in Hcall.
      destruct (insert_exhausted_asked (S (length (allocs m1))) m1 t X r2 t2 m3
                  Hinv Hok Hfresh ltac:(lia) Hwx Hcall) as (Hasked & Hno & Hyes).
      assert (Hask : asked m1 m').
      { destruct Hasked as [Ha|Ha]; [left|right]; destruct r2; injection Hadd as _ _ <-;
          cbn [hash_table_entry_free allocs alloc_failures]; exact Ha. }
      assert (Ht' : t' = t2) by (destruct r2; injection Hadd as _ <- _; reflexivity).
      subst t'. split; [split; [auto|intros _; exact Hask]|].
      split; [intros Hn; destruct (Hn Hask)|]. intros _. split.
      * intros m0 Hm0. destruct (Hno m0 Hm0) as (-> & -> & ->).
        injection Hadd as <- <-. auto.
      * exact Hyes.
    + (* a bucket is found *)
      unfold fuel_of in Hcall.
      destruct (insert_found _ m1 t X r2 t2 m3 Hwx Hcall) as (-> & Hs2 & Ha2 & Hf2).
      injection Hadd as <- <- <-.
      assert (Hnot : ~ asked m1 m3).
      { unfold asked. rewrite Ha2, Hf2. lia. }
      split; [split; [intros Ha; destruct (Hnot Ha)|intros [Hc|Hc]; discriminate]|].
      split; [intros _; exact Hs2|]. intros Ha. destruct (Hnot Ha).
Qed.

Lemma hash_table_remove_request (m : env) (t : hash_table) (k : list Z)
    (r : bool) (t' : hash_table) (m' : env) :
  state_inv m t ->
  hash_table_remove m t k = Some (r, t', m') ->
  (asked m m' <-> hash_table_should_resize_down_factor t = true) /\
  (~ asked m m' -> max_size_shift t' = max_size_shift t) /\
  (asked m m' ->
     (forall m2, hash_table_buckets_alloc (shrunk t) m = (None, m2) ->
        r = false /\ t' = t /\ m' = m2) /\
     (forall b m2, hash_table_buckets_alloc (shrunk t) m = (Some b, m2) ->
        max_size_shift t - 1 <= max_size_shift t')).
Proof.
  intros (Hinv & Hptr) Hrem.
  destruct (remove_precheck m t) as [[[r1 t1] m1]|] eqn:Hpre;
    [|unfold hash_table_remove in Hrem; rewrite Hpre in Hrem; discriminate].
  pose proof Hpre as Hpre'. unfold remove_precheck in Hpre'.
  change (- HASH_TABLE_RESIZE_INCREMENT) with (-1) in Hpre'.
  destruct (hash_table_should_resize_down_factor t) eqn:Hdown.
  - (* the check of the load factor asks for a shrink *)
    pose proof (down_true_shift t Hdown) as Hgt.
    destruct (resize_asked (fuel_of m) (hash_table_insert (fuel_of m)) m t (-1) r1 t1 m1
                (insert_ok _) Hinv ltac:(unfold fuel_of; lia)
                (or_intror (conj eq_refl Hgt)) Hpre')
      as ([Hinv1 Hfail1 Hsh1 Hused1 Henv1 Hfr1' Hsub1 _] & Hasked & Hno & Hyes).
    destruct (shrunk_alloc_cases m t Hinv Hgt) as (Hnone & Hsome).
    destruct r1.
    + destruct (remove_after_precheck m m1 t t1 k r t' m' Hinv1 Hpre Hrem)
        as (Hs' & Ha' & Hf' & _).
      specialize (Hused1 eq_refl). specialize (Hsh1 eq_refl).
      assert (Hask : asked m m') by (left; rewrite Ha'; exact Hused1).
      split; [split; [auto|intros _; exact Hask]|].
      split; [intros Hn; destruct (Hn Hask)|]. intros _. split.
      * intros m0 Hm0. specialize (Hno m0 (Hnone m0 Hm0)). destruct Hno; discriminate.
      * intros _ _ _. lia.
    + destruct (Hfail1 eq_refl) as (-> & Hf2).
      unfold hash_table_remove in Hrem. rewrite Hpre in Hrem. injection Hrem as <- <- <-.
      assert (Hask : asked m m1) by (right; exact Hf2).
      split; [split; [auto|intros _; exact Hask]|].
      split; [intros Hn; destruct (Hn Hask)|]. intros _. split.
      * intros m0 Hm0. destruct (Hno m0 (Hnone m0 Hm0)) as (_ & _ & ->). auto.
      * intros b0 m0 Hm0. specialize (Hyes m0 (Hsome b0 m0 Hm0)). discriminate.
  - injection Hpre' as <- <- <-.
    destruct (remove_after_precheck m m t t k r t' m' Hinv Hpre Hrem)
      as (Hs' & Ha' & Hf' & _).
    assert (Hnot : ~ asked m m').
    { unfold asked. rewrite Ha', Hf'. lia. }
    split; [split; [intros Ha; destruct (Hnot Ha)|discriminate]|].
    split; [intros _; exact Hs'|]. intros Ha. destruct (Hnot Ha).
Qed.

(** C7, as amended: for a reachable table with less than [2 ^ 24 - 1]
    entries.  The check of the load factor of [hash_table_add] holds
    exactly when [curr_size + 1] exceeds 0.75 times [max_size]; the check
    of [hash_table_remove] holds exactly when [max_size_shift] is above 4
    and [curr_size - 1] is below 0.10 times [max_size], and never while
    [max_size_shift] is at most 4.  Once [hash_table_add] has built its
    entry [X], it asks the allocator for the array of a one-step grow
    exactly when its check holds or the walk of the insertion of [X] runs
    out of probes; [hash_table_remove] asks for the array of a one-step
    shrink exactly when its check holds.  Without a request the table keeps
    its [max_size_shift]; when the request is refused the operation returns
    false and the table is as before; when it is granted the table has
    grown by one step at least, or shrunk by one step at most. *)
Theorem C7_load_factor_checks (m : env) (t : hash_table) :
  32 <= word_bits -> reachable m t -> curr_size t + 1 < 2 ^ 24 ->
  (hash_table_should_resize_up_factor t = true <->
     4 * (curr_size t + 1) > 3 * max_size t) /\
  (hash_table_should_resize_down_factor t = true <->
     HASH_TABLE_INITIAL_SHIFT < max_size_shift t /\
     10 * (curr_size t - 1) < max_size t) /\
  (max_size_shift t <= HASH_TABLE_INITIAL_SHIFT ->
     hash_table_should_resize_down_factor t = false) /\
  (forall k d X m1 r t' m',
     hash_table_entry_create k d m = (Some X, m1) ->
     hash_table_add m t k d = Some (r, t', m') ->
     (asked m1 m' <->
        4 * (curr_size t + 1) > 3 * max_size t \/ window_exhausted t X = true) /\
     (~ asked m1 m' -> max_size_shift t' = max_size_shift t) /\
     (asked m1 m' ->
        (forall m2, hash_table_buckets_alloc (grown t) m1 = (None, m2) ->
           r = false /\ t' = t /\ m' = hash_table_entry_free X m2) /\
        (forall b m2, hash_table_buckets_alloc (grown t) m1 = (Some b, m2) ->
           max_size_shift t + 1 <= max_size_shift t'))) /\
  (forall k r t' m',
     hash_table_remove m t k = Some (r, t', m') ->
     (asked m m' <->
        HASH_TABLE_INITIAL_SHIFT < max_size_shift t /\
        10 * (curr_size t - 1) < max_size t) /\
     (~ asked m m' -> max_size_shift t' = max_size_shift t) /\
     (asked m m' ->
        (forall m2, hash_table_buckets_alloc (shrunk t) m = (None, m2) ->
           r = false /\ t' = t /\ m' = m2) /\
        (forall b m2, hash_table_buckets_alloc (shrunk t) m = (Some b, m2) ->
           max_size_shift t - 1 <= max_size_shift t'))).
Proof.
  intros Hw Hr Hc.
  pose proof (reachable_inv m t Hr) as Hst. pose proof Hst as (Hinv & _).
  pose proof (reachable_filled m t Hw Hr) as Hfill.
  pose proof (inv_shift_range t Hinv) as Hs.
  assert (Hc0 : 0 <= curr_size t) by (rewrite (inv_count t Hinv); lia).
  pose proof (up_factor_all t Hw ltac:(lia) (inv_size t Hinv) Hc0 Hc) as Hup.
  assert (Hdown : hash_table_should_resize_down_factor t = true <->
                  HASH_TABLE_INITIAL_SHIFT < max_size_shift t /\
                  10 * (curr_size t - 1) < max_size t).
  { unfold filled, HASH_TABLE_INITIAL_SHIFT in *.
    destruct (decide (curr_size t = 0)) as [H0|H0].
    - assert (H4 : max_size_shift t = 4) by (destruct Hfill; lia).
      unfold hash_table_should_resize_down_factor, HASH_TABLE_INITIAL_SHIFT.
      rewrite H4. cbn [Z.leb Z.compare]. split; [discriminate|lia].
    - apply (down_factor_all t Hw ltac:(lia) (inv_size t Hinv) ltac:(lia) Hc). }
  split; [exact Hup|]. split; [exact Hdown|]. split; [|split].
  - intros Hle. unfold hash_table_should_resize_down_factor.
    rewrite (proj2 (Z.leb_le _ _) Hle). reflexivity.
  - intros k d X m1 r t' m' Hcreate Hadd.
    destruct (hash_table_add_request m m1 t k d X r t' m' Hst Hcreate Hadd)
      as (Hiff & Hno & Hyes).
    split; [|split; assumption]. rewrite Hiff, Hup. reflexivity.
  - intros k r t' m' Hrem.
    destruct (hash_table_remove_request m t k r t' m' Hst Hrem) as (Hiff & Hno & Hyes).
    split; [|split; assumption]. rewrite Hiff, Hdown. reflexivity.
Qed.


End Rash.

(** * Runs on a machine with words of 64 bits *)

Lemma word64_range : 16 <= 64 <= 128.
Proof. lia. Qed.

(** An allocator that grants [n] requests and then has no memory left. *)
Definition grants (n : nat) : env := Env (repeat true n) 0 1000 [].

(** The state after [hash_table_create], and after one more call of
    [hash_table_add] or of [hash_table_remove]. *)
Definition after_create (m : env) : hash_table * env :=
  match hash_table_create 64 m with
  | (Some t, m') => (t, m')
  | (None, m') => (Table 0 0 0 [], m')
  end.

Definition after_add (st : hash_table * env) (k : list Z) (d : Z) : hash_table * env :=
  match hash_table_add 64 (snd st) (fst st) k d with
  | Some (_, t', m') => (t', m')
  | None => st
  end.

Definition after_remove (st : hash_table * env) (k : list Z) : hash_table * env :=
  match hash_table_remove 64 (snd st) (fst st) k with
  | Some (_, t', m') => (t', m')
  | None => st
  end.

(** The strings ["key1"] and ["zzz"], and six strings with the same DJB2
    digest: ["ab"] and ["bA"] have the same digest, hence so have the
    strings made of three of these blocks. *)
Definition key1 : list Z := [107; 101; 121; 49].
Definition zzz : list Z := [122; 122; 122].
Definition ab : list Z := [97; 98].
Definition bA : list Z := [98; 65].
Definition same1 : list Z := ab ++ ab ++ ab.
Definition same2 : list Z := ab ++ ab ++ bA.
Definition same3 : list Z := ab ++ bA ++ ab.
Definition same4 : list Z := ab ++ bA ++ bA.
Definition same5 : list Z := bA ++ ab ++ ab.
Definition same6 : list Z := bA ++ ab ++ bA.

(** A table that holds ["key1"], with an allocator without memory. *)
Definition one_key : hash_table * env :=
  Eval vm_compute in after_add (after_create (grants 4)) key1 20.

(** A table whose probe window is full at the home index of the strings
    with the same digest, with an allocator that grants two requests. *)
Definition full_window : hash_table * env :=
  Eval vm_compute in
    after_add (after_add (after_add (after_add (after_create (grants 12))
      same1 11) same2 12) same3 13) same4 14.

(** Six strings with the same digest in a table of 64 buckets, with an
    allocator that grants one more request. *)
Definition six_same : hash_table * env :=
  Eval vm_compute in
    after_add (after_add (after_add (after_add (after_add (after_add
      (after_create (grants 17))
      same1 11) same2 12) same3 13) same4 14) same5 15) same6 16.

Definition six_same_removed : hash_table * env :=
  Eval vm_compute in after_remove six_same zzz.

Lemma one_key_reachable : reachable 64 (snd one_key) (fst one_key).
Proof.
  apply (reach_add 64 (snd (after_create (grants 4))) (fst (after_create (grants 4)))
           key1 20 true).
  - apply (reach_create 64 (grants 4)). vm_compute. reflexivity.
  - vm_compute. reflexivity.
Qed.

Lemma full_window_reachable : reachable 64 (snd full_window) (fst full_window).
Proof.
  set (s0 := after_create (grants 12)).
  set (s1 := after_add s0 same1 11). set (s2 := after_add s1 same2 12).
  set (s3 := after_add s2 same3 13).
  apply (reach_add 64 (snd s3) (fst s3) same4 14 true); [|vm_compute; reflexivity].
  apply (reach_add 64 (snd s2) (fst s2) same3 13 true); [|vm_compute; reflexivity].
  apply (reach_add 64 (snd s1) (fst s1) same2 12 true); [|vm_compute; reflexivity].
  apply (reach_add 64 (snd s0) (fst s0) same1 11 true); [|vm_compute; reflexivity].
  apply (reach_create 64 (grants 12)). vm_compute. reflexivity.
Qed.

Lemma six_same_reachable : reachable 64 (snd six_same) (fst six_same).
Proof.
  set (s0 := after_create (grants 17)).
  set (s1 := after_add s0 same1 11). set (s2 := after_add s1 same2 12).
  set (s3 := after_add s2 same3 13). set (s4 := after_add s3 same4 14).
  set (s5 := after_add s4 same5 15).
  apply (reach_add 64 (snd s5) (fst s5) same6 16 true); [|vm_compute; reflexivity].
  apply (reach_add 64 (snd s4) (fst s4) same5 15 true); [|vm_compute; reflexivity].
  apply (reach_add 64 (snd s3) (fst s3) same4 14 true); [|vm_compute; reflexivity].
  apply (reach_add 64 (snd s2) (fst s2) same3 13 true); [|vm_compute; reflexivity].
  apply (reach_add 64 (snd s1) (fst s1) same2 12 true); [|vm_compute; reflexivity].
  apply (reach_add 64 (snd s0) (fst s0) same1 11 true); [|vm_compute; reflexivity].
  apply (reach_create 64 (grants 17)). vm_compute. reflexivity.
Qed.

(** C1: the code loses an entry.  Six keys with the same digest are added
    to a fresh table; every call returns true and [hash_table_get] returns
    the payload 16 of the sixth key.  Then ["zzz"], which is not in the
    table, is removed while the allocator grants one request and refuses
    the next: the shrink gets its array, the rehash into it runs out of
    probes at the sixth key, the grow inside of the rehash fails and
    [hash_table_rehash] drops the result.  The state is reachable, the sixth
    key was added and never removed, and [hash_table_get] returns NULL for
    it. *)
Theorem C1_entry_lost_in_rehash :
  reachable 64 (snd six_same) (fst six_same) /\
  hash_table_get_size (fst six_same) = 6 /\
  hash_table_get 64 (fst six_same) same6 = Some 16 /\
  allocs (snd six_same) = [true] /\
  hash_table_remove 64 (snd six_same) (fst six_same) zzz
    = Some (false, fst six_same_removed, snd six_same_removed) /\
  reachable 64 (snd six_same_removed) (fst six_same_removed) /\
  hash_table_get 64 (fst six_same_removed) same6 = Some NULL /\
  hash_table_get_size (fst six_same_removed) = 5.
Proof.
  split; [exact six_same_reachable|].
  split; [vm_compute; reflexivity|]. split; [vm_compute; reflexivity|].
  split; [vm_compute; reflexivity|].
  assert (Hrm : hash_table_remove 64 (snd six_same) (fst six_same) zzz
                = Some (false, fst six_same_removed, snd six_same_removed))
    by (vm_compute; reflexivity).
  split; [exact Hrm|]. split; [|split; vm_compute; reflexivity].
  exact (reach_remove 64 _ _ _ _ _ _ six_same_reachable Hrm).
Qed.

(** ** The theorems at concrete inputs *)

Definition one_key_entry : hash_table_entry :=
  Entry 1000 [107; 101; 121; 49; 0] 6385400191 20 0.

(** The table that holds ["key1"], with an allocator that has memory. *)
Definition one_key_more : hash_table * env :=
  Eval vm_compute in after_add (after_create (grants 12)) key1 20.

Lemma one_key_more_reachable : reachable 64 (snd one_key_more) (fst one_key_more).
Proof.
  apply (reach_add 64 (snd (after_create (grants 12))) (fst (after_create (grants 12)))
           key1 20 true).
  - apply (reach_create 64 (grants 12)). vm_compute. reflexivity.
  - vm_compute. reflexivity.
Qed.

Lemma C3_witness :
  buckets (fst one_key) !! 12%nat = Some (Some one_key_entry) /\
  fibonacci_hash 64 (hash one_key_entry) (max_size_shift (fst one_key))
    + dist_from_des one_key_entry = Z.of_nat 12 /\
  0 <= dist_from_des one_key_entry < max_size_shift (fst one_key).
Proof.
  split; [reflexivity|].
  exact (C3_home_plus_displacement 64 word64_range (snd one_key) (fst one_key) 12
           one_key_entry one_key_reachable eq_refl).
Defined.

Lemma one_key_maps : maps_to (fst one_key_more) key1 20.
Proof. exists 12%nat, one_key_entry. repeat split; reflexivity. Qed.

(** C4, as stated, fails: the key ["key1"] is present with the payload 20;
    the allocator has no memory, so [hash_table_add] returns false and the
    payload is not replaced. *)
Lemma C4_counterexample :
  reachable 64 (snd one_key) (fst one_key) /\
  maps_to (fst one_key) key1 20 /\
  hash_table_add 64 (snd one_key) (fst one_key) key1 30
    = Some (false, fst one_key, Env [] 1 1001 []) /\
  hash_table_get 64 (fst one_key) key1 = Some 20.
Proof.
  split; [exact one_key_reachable|]. split.
  - exists 12%nat, one_key_entry. repeat split; reflexivity.
  - split; vm_compute; reflexivity.
Qed.

Lemma C8_witness :
  (exists p pc,
     iterate_to_next (buckets (fst one_key)) key1 4 12 0 = Some (p, pc) /\
     Z.of_nat p = 12 + pc /\ 0 <= pc <= 4 /\
     (pc < 4 -> Z.of_nat p < 16 + 4 /\ is_Some (buckets (fst one_key) !! p))) /\
  (forall position, (position < 20)%nat ->
     exists t', hash_table_remove_from_position 64 (fst one_key) position
                = Some (true, t') /\
                length (buckets t') = 20%nat).
Proof.
  destruct (C8_probes_in_bounds 64 (fst one_key) key1 12) as (Hwalk & _ & Hback);
    try (vm_compute; congruence); try reflexivity.
  split; [exact Hwalk|exact Hback].
Defined.

(** A table that maps ["key1"] to NULL. *)
Definition null_key : hash_table * env :=
  Eval vm_compute in after_add (after_create (grants 12)) key1 NULL.

Lemma null_key_reachable : reachable 64 (snd null_key) (fst null_key).
Proof.
  apply (reach_add 64 (snd (after_create (grants 12))) (fst (after_create (grants 12)))
           key1 NULL true).
  - apply (reach_create 64 (grants 12)). vm_compute. reflexivity.
  - vm_compute. reflexivity.
Qed.

Lemma null_key_inv : table_inv 64 (fst null_key).
Proof. exact (proj1 (reachable_inv 64 word64_range _ _ null_key_reachable)). Qed.

Lemma null_key_absent : absent (fst null_key) zzz.
Proof.
  intros i e He.
  do 20 (destruct i as [|i]; [try discriminate He; injection He as <-; vm_compute; discriminate|]).
  discriminate He.
Qed.

Lemma null_key_maps : maps_to (fst null_key) key1 NULL.
Proof.
  exists 12%nat, (Entry 1000 [107; 101; 121; 49; 0] 6385400191 0 0).
  repeat split; reflexivity.
Qed.

Lemma C9_witness :
  absent (fst null_key) zzz /\ maps_to (fst null_key) key1 NULL /\
  hash_table_get 64 (fst null_key) zzz = Some NULL /\
  hash_table_get 64 (fst null_key) key1 = Some NULL.
Proof.
  split; [exact null_key_absent|]. split; [exact null_key_maps|]. split.
  - exact (proj1 (C9_get_null_ambiguous 64 word64_range (fst null_key) zzz null_key_inv)
             null_key_absent).
  - exact (proj2 (C9_get_null_ambiguous 64 word64_range (fst null_key) key1 null_key_inv)
             null_key_maps).
Defined.

(** * Further runs on a machine with words of 64 bits *)

(** The table that holds ["key1"] and ["zzz"], the table after the removal
    of ["key1"] from it, and the table after the removal of ["zzz"] from
    it. *)
Definition two_keys : hash_table * env :=
  Eval vm_compute in after_add one_key_more zzz 30.

Definition two_keys_less : hash_table * env :=
  Eval vm_compute in after_remove two_keys key1.

Definition two_keys_back : hash_table * env :=
  Eval vm_compute in after_remove two_keys zzz.

Definition zzz_entry : hash_table_entry :=
  Entry 1001 [122; 122; 122; 0] 193514003 30 0.

(** The fourth of the entries with the same digest, three buckets after
    its home. *)
Definition fourth_entry : hash_table_entry :=
  Entry 1003 [97; 98; 98; 65; 98; 65; 0] 6953305090478 14 3.

Lemma created_from : reachable_from 64 (grants 12)
  (snd (after_create (grants 12))) (fst (after_create (grants 12))).
Proof. apply from_create. vm_compute. reflexivity. Qed.

Lemma one_key_more_add :
  hash_table_add 64 (snd (after_create (grants 12))) (fst (after_create (grants 12)))
    key1 20 = Some (true, fst one_key_more, snd one_key_more).
Proof. vm_compute. reflexivity. Qed.

Lemma two_keys_add :
  hash_table_add 64 (snd one_key_more) (fst one_key_more) zzz 30
  = Some (true, fst two_keys, snd two_keys).
Proof. vm_compute. reflexivity. Qed.

Lemma two_keys_remove :
  hash_table_remove 64 (snd two_keys) (fst two_keys) key1
  = Some (true, fst two_keys_less, snd two_keys_less).
Proof. vm_compute. reflexivity. Qed.

Lemma two_keys_remove_again :
  hash_table_remove 64 (snd two_keys_less) (fst two_keys_less) key1
  = Some (false, fst two_keys_less, snd two_keys_less).
Proof. vm_compute. reflexivity. Qed.

Lemma two_keys_remove_zzz :
  hash_table_remove 64 (snd two_keys) (fst two_keys) zzz
  = Some (true, fst two_keys_back, snd two_keys_back).
Proof. vm_compute. reflexivity. Qed.

Lemma one_key_more_remove_zzz :
  hash_table_remove 64 (snd one_key_more) (fst one_key_more) zzz
  = Some (false, fst one_key_more, snd one_key_more).
Proof. vm_compute. reflexivity. Qed.

Lemma one_key_add_fails :
  hash_table_add 64 (snd one_key) (fst one_key) key1 30
  = Some (false, fst one_key, Env [] 1 1001 []).
Proof. vm_compute. reflexivity. Qed.

Lemma one_key_more_from :
  reachable_from 64 (grants 12) (snd one_key_more) (fst one_key_more).
Proof. exact (from_add 64 _ _ _ _ _ _ _ _ created_from one_key_more_add). Qed.

Lemma two_keys_from : reachable_from 64 (grants 12) (snd two_keys) (fst two_keys).
Proof. exact (from_add 64 _ _ _ _ _ _ _ _ one_key_more_from two_keys_add). Qed.

Lemma two_keys_less_from :
  reachable_from 64 (grants 12) (snd two_keys_less) (fst two_keys_less).
Proof. exact (from_remove 64 _ _ _ _ _ _ _ two_keys_from two_keys_remove). Qed.

Lemma two_keys_reachable : reachable 64 (snd two_keys) (fst two_keys).
Proof. exact (reachable_from_reachable 64 _ _ _ two_keys_from). Qed.

Lemma one_key_more_absent : absent (fst one_key_more) zzz.
Proof.
  intros i e He.
  do 20 (destruct i as [|i]; [try discriminate He; injection He as <-; vm_compute; discriminate|]).
  discriminate He.
Qed.

Lemma two_keys_maps : maps_to (fst two_keys) key1 20.
Proof. exists 12%nat, one_key_entry. repeat split; reflexivity. Qed.

Lemma no_freed (p : Z) : p ∈ freed (grants 12) -> p < next_ptr (grants 12).
Proof. intros Hp. apply elem_of_nil in Hp. destruct Hp. Qed.

Lemma two_keys_run :
  run 64 0 (snd two_keys) (fst two_keys) [(zzz, 30); (key1, 20)].
Proof.
  assert (H0 : run 64 0 (snd (after_create (grants 12))) (fst (after_create (grants 12))) []).
  { apply (run_create 64 0 (grants 12)); vm_compute; reflexivity. }
  pose proof (run_add 64 0 _ _ _ _ _ _ _ _ H0 one_key_more_add) as H1.
  exact (run_add 64 0 _ _ _ _ _ _ _ _ H1 two_keys_add).
Qed.

Lemma hash_table_create_empty_witness :
  exists t m', hash_table_create 64 (grants 4) = (Some t, m') /\
    hash_table_get_size t = 0 /\ forall k, hash_table_get 64 t k = Some NULL.
Proof.
  pose proof (hash_table_create_empty 64 word64_range (grants 4)) as H.
  destruct (hash_table_create 64 (grants 4)) as [[t|] m'] eqn:E;
    [|vm_compute in E; discriminate E].
  exists t, m'. split; [reflexivity|]. destruct H as (_ & _ & _ & _ & Hsz & Hget). auto.
Defined.

Lemma hash_table_add_true_get_witness :
  hash_table_get 64 (fst two_keys) zzz = Some 30.
Proof.
  exact (hash_table_add_true_get 64 word64_range _ _ _ _ _ _
           one_key_more_reachable two_keys_add).
Defined.

Lemma hash_table_add_frame_witness :
  true = true /\
  (forall k', strcmp zzz k' <> 0 ->
     hash_table_get 64 (fst two_keys) k' = hash_table_get 64 (fst one_key_more) k') /\
  (absent (fst one_key_more) zzz ->
     hash_table_get_size (fst two_keys) = hash_table_get_size (fst one_key_more) + 1 /\
     freed (snd two_keys) = freed (snd one_key_more)).
Proof.
  exact (hash_table_add_frame 64 word64_range _ _ _ _ _ _ _
           one_key_more_reachable two_keys_add eq_refl).
Defined.

Lemma hash_table_add_false_witness :
  (alloc_failures (snd one_key) < 1)%nat /\
  (forall k', hash_table_get 64 (fst one_key) k' = hash_table_get 64 (fst one_key) k' \/
              hash_table_get 64 (fst one_key) k' = Some NULL) /\
  max_size_shift (fst one_key) <= max_size_shift (fst one_key).
Proof.
  exact (hash_table_add_false 64 word64_range _ _ _ _ _ _
           one_key_reachable one_key_add_fails).
Defined.

Lemma hash_table_remove_true_witness :
  (exists i e, buckets (fst two_keys) !! i = Some (Some e) /\ strcmp (key e) key1 = 0 /\
               freed (snd two_keys_less) = ptr e :: freed (snd two_keys)) /\
  hash_table_get 64 (fst two_keys_less) key1 = Some NULL.
Proof.
  exact (hash_table_remove_true 64 word64_range _ _ _ _ _
           two_keys_reachable two_keys_remove).
Defined.

Lemma hash_table_remove_absent_witness :
  exists t' m',
    hash_table_remove 64 (snd one_key_more) (fst one_key_more) zzz = Some (false, t', m') /\
    (alloc_failures m' = alloc_failures (snd one_key_more) ->
       hash_table_get_size t' = hash_table_get_size (fst one_key_more) /\
       forall k', hash_table_get 64 t' k' = hash_table_get 64 (fst one_key_more) k').
Proof.
  exact (hash_table_remove_absent 64 word64_range _ _ _
           one_key_more_reachable one_key_more_absent).
Defined.

Lemma hash_table_remove_frame_witness :
  true = true /\
  hash_table_get_size (fst two_keys_less) = hash_table_get_size (fst two_keys) - 1 /\
  (forall k', strcmp key1 k' <> 0 ->
     hash_table_get 64 (fst two_keys_less) k' = hash_table_get 64 (fst two_keys) k').
Proof.
  exact (hash_table_remove_frame 64 word64_range _ _ _ _ _ _ _
           two_keys_reachable two_keys_maps two_keys_remove eq_refl).
Defined.

Lemma hash_table_remove_false_witness :
  (absent (fst one_key_more) zzz \/
   (alloc_failures (snd one_key_more) < alloc_failures (snd one_key_more))%nat) /\
  (forall k', hash_table_get 64 (fst one_key_more) k' = hash_table_get 64 (fst one_key_more) k' \/
              hash_table_get 64 (fst one_key_more) k' = Some NULL).
Proof.
  exact (hash_table_remove_false 64 word64_range _ _ _ _ _
           one_key_more_reachable one_key_more_remove_zzz).
Defined.

Lemma hash_table_remove_twice_witness :
  hash_table_remove 64 (snd two_keys) (fst two_keys) key1
    = Some (true, fst two_keys_less, snd two_keys_less) /\
  false = false.
Proof.
  split; [exact two_keys_remove|].
  exact (hash_table_remove_twice 64 word64_range _ _ _ _ _ _ _ _
           two_keys_reachable two_keys_remove two_keys_remove_again).
Defined.

Lemma hash_table_add_remove_witness :
  true = true /\ true = true /\
  hash_table_get_size (fst two_keys_back) = hash_table_get_size (fst one_key_more) /\
  forall k', hash_table_get 64 (fst two_keys_back) k'
             = hash_table_get 64 (fst one_key_more) k'.
Proof.
  exact (hash_table_add_remove 64 word64_range _ _ _ _ _ _ _ _ _ _
           one_key_more_reachable one_key_more_absent two_keys_add two_keys_remove_zzz
           eq_refl).
Defined.

Lemma reachable_capacity_witness :
  4 <= max_size_shift (fst six_same) < 64 /\
  max_size (fst six_same) = 2 ^ max_size_shift (fst six_same) /\
  Z.of_nat (length (buckets (fst six_same)))
    = max_size (fst six_same) + max_size_shift (fst six_same) /\
  sizeof_ptr 64 * (max_size (fst six_same) + max_size_shift (fst six_same)) <= SIZE_MAX 64.
Proof. exact (reachable_capacity 64 word64_range _ _ six_same_reachable). Defined.

Lemma reachable_size_witness :
  hash_table_get_size (fst six_same)
    = Z.of_nat (length (entries (buckets (fst six_same)))) /\
  0 <= hash_table_get_size (fst six_same)
    <= max_size (fst six_same) + max_size_shift (fst six_same) /\
  hash_table_get_size (fst six_same) <= SIZE_MAX 64.
Proof. exact (reachable_size 64 word64_range _ _ six_same_reachable). Defined.

Lemma reachable_keys_unique_witness :
  (forall i j ei ej,
     buckets (fst six_same) !! i = Some (Some ei) ->
     buckets (fst six_same) !! j = Some (Some ej) ->
     strcmp (key ei) (key ej) = 0 \/ ptr ei = ptr ej -> i = j) /\
  (forall k d1 d2, maps_to (fst six_same) k d1 -> maps_to (fst six_same) k d2 -> d1 = d2).
Proof. exact (reachable_keys_unique 64 word64_range _ _ six_same_reachable). Defined.

Lemma reachable_no_gap_witness :
  buckets (fst full_window) !! 4%nat = Some (Some fourth_entry) /\
  exists e', buckets (fst full_window) !! 2%nat = Some (Some e') /\
             dist_from_des fourth_entry - Z.of_nat (4 - 2) <= dist_from_des e'.
Proof.
  split; [reflexivity|].
  apply (reachable_no_gap 64 word64_range _ _ 4 2 fourth_entry full_window_reachable eq_refl).
  assert (H : Z.to_nat (fibonacci_hash 64 (hash fourth_entry)
                          (max_size_shift (fst full_window))) = 1%nat)
    by (vm_compute; reflexivity).
  rewrite H. lia.
Defined.

Lemma lookup_up_to_terminator_witness :
  hash_table_get 64 (fst one_key) key1 = hash_table_get 64 (fst one_key) (key1 ++ [0; 65]) /\
  hash_table_remove 64 (snd one_key) (fst one_key) key1
    = hash_table_remove 64 (snd one_key) (fst one_key) (key1 ++ [0; 65]).
Proof.
  exact (lookup_up_to_terminator 64 word64_range (snd one_key) (fst one_key)
           key1 (key1 ++ [0; 65]) eq_refl).
Defined.

Lemma hash_table_entry_create_copy_witness :
  exists X m', hash_table_entry_create 64 key1 20 (grants 4) = (Some X, m') /\
    key X = key1 ++ [0] /\ strlen (key X) = 4%nat /\ data X = 20 /\ dist_from_des X = 0.
Proof.
  pose proof (hash_table_entry_create_copy 64 word64_range (grants 4) key1 20) as H.
  destruct (hash_table_entry_create 64 key1 20 (grants 4)) as [[X|] m'] eqn:E;
    [|vm_compute in E; discriminate E].
  exists X, m'. split; [reflexivity|].
  destruct H as (_ & Hk & Hl & _ & Hd & Hdist). auto.
Defined.

Lemma hash_table_free_callback_calls_witness :
  exists a' m',
    hash_table_free_callback 64 (Some (fun d l => d :: l)) [] (snd two_keys) (fst two_keys)
      = Some (a', m') /\
    a' = fold_left (fun a0 e => data e :: a0) (entries (buckets (fst two_keys))) [] /\
    freed m' = reverse (map ptr (entries (buckets (fst two_keys)))) ++ freed (snd two_keys) /\
    NoDup (map ptr (entries (buckets (fst two_keys)))) /\
    Z.of_nat (length (entries (buckets (fst two_keys)))) = hash_table_get_size (fst two_keys).
Proof.
  exact (hash_table_free_callback_calls 64 word64_range (Some (fun d l => d :: l)) []
           _ _ two_keys_reachable).
Defined.

Lemma reachable_operations_return_witness :
  (forall k d, exists r t' m',
     hash_table_add 64 (snd one_key) (fst one_key) k d = Some (r, t', m')) /\
  (forall k, exists r t' m',
     hash_table_remove 64 (snd one_key) (fst one_key) k = Some (r, t', m')) /\
  (forall k, exists v, hash_table_get 64 (fst one_key) k = Some v) /\
  (exists m', hash_table_free 64 (snd one_key) (fst one_key) = Some m').
Proof. exact (reachable_operations_return 64 word64_range _ _ one_key_reachable). Defined.

Lemma no_double_free_witness :
  owned (snd two_keys_less) (fst two_keys_less) /\
  exists m', hash_table_free 64 (snd two_keys_less) (fst two_keys_less) = Some m' /\
             NoDup (freed m').
Proof.
  exact (no_double_free 64 word64_range (grants 12) _ _ two_keys_less_from
           (NoDup_nil_2 : NoDup (freed (grants 12))) no_freed).
Defined.

Lemma no_leak_witness :
  exists m', hash_table_free 64 (snd two_keys_less) (fst two_keys_less) = Some m' /\
    forall p, next_ptr (grants 12) <= p < next_ptr m' -> p ∈ freed m'.
Proof.
  exact (no_leak 64 word64_range (grants 12) _ _ two_keys_less_from eq_refl).
Defined.

Lemma run_without_failure_witness :
  (forall k, hash_table_get 64 (fst two_keys) k
             = Some (match map_lookup [(zzz, 30); (key1, 20)] k with
                     | Some d => d
                     | None => NULL
                     end)) /\
  hash_table_get_size (fst two_keys) = Z.of_nat (length [(zzz, 30); (key1, 20)]).
Proof.
  exact (run_without_failure 64 word64_range 0 _ _ _ two_keys_run eq_refl).
Defined.

Lemma one_key_more_inv : table_inv 64 (fst one_key_more).
Proof. exact (proj1 (reachable_inv 64 word64_range _ _ one_key_more_reachable)). Qed.


Lemma load_factor_hysteresis_witness :
  (hash_table_should_resize_up_factor 64 (Table 4 16 12 []) = true ->
   hash_table_should_resize_down_factor 64 (Table (4 + 1) (2 * 16) (12 + 1) []) = false) /\
  (hash_table_should_resize_down_factor 64 (Table 5 32 3 []) = true ->
   hash_table_should_resize_up_factor 64 (Table (5 - 1) (32 / 2) (3 - 1) []) = false).
Proof.
  split.
  - apply (load_factor_hysteresis 64 word64_range (Table 4 16 12 []) []);
      cbn [max_size_shift max_size curr_size]; lia.
  - apply (load_factor_hysteresis 64 word64_range (Table 5 32 3 []) []);
      cbn [max_size_shift max_size curr_size]; lia.
Defined.

Lemma hash_table_insert_window_witness :
  exists t' m',
    hash_table_insert 64 1 (snd one_key_more) (fst one_key_more) zzz_entry
      = Some (true, t', m') /\
    max_size_shift t' = max_size_shift (fst one_key_more) /\
    max_size t' = max_size (fst one_key_more) /\
    length (buckets t') = length (buckets (fst one_key_more)) /\
    (Z.to_nat (fibonacci_hash 64 (hash zzz_entry) (max_size_shift (fst one_key_more)))
       <= 2)%nat /\
    Z.of_nat 2 < fibonacci_hash 64 (hash zzz_entry) (max_size_shift (fst one_key_more))
                 + max_size_shift (fst one_key_more) /\
    forall j,
      (j < Z.to_nat (fibonacci_hash 64 (hash zzz_entry) (max_size_shift (fst one_key_more)))
       \/ 2 < j)%nat ->
      buckets t' !! j = buckets (fst one_key_more) !! j.
Proof.
  apply (hash_table_insert_window 64 word64_range 0 (snd one_key_more) (fst one_key_more)
           zzz_entry zzz_entry (buckets (fst one_key_more)) 2 0 one_key_more_inv);
    vm_compute; reflexivity.
Defined.

Lemma hash_table_remove_from_position_local_witness :
  exists t', hash_table_remove_from_position 64 (fst one_key_more) 12 = Some (true, t') /\
    table_inv 64 t' /\ max_size_shift t' = max_size_shift (fst one_key_more) /\
    curr_size t' = curr_size (fst one_key_more) - 1 /\
    (forall j, (j < 12)%nat -> buckets t' !! j = buckets (fst one_key_more) !! j) /\
    (forall k, strcmp (key one_key_entry) k = 0 -> hash_table_get 64 t' k = Some NULL).
Proof.
  exact (hash_table_remove_from_position_local 64 word64_range (fst one_key_more) 12
           one_key_entry one_key_more_inv eq_refl).
Defined.

(** * The claims on the public operations, on a machine with words of 64 bits *)

(** ** A failed grow *)










(** ** A key that is present, and the empty key *)

(** The table after ["key1"] is added again, with the payload 30. *)
Definition replaced : hash_table * env :=
  Eval vm_compute in after_add one_key_more key1 30.

Lemma C4_witness :
  hash_table_add 64 (snd one_key_more) (fst one_key_more) key1 30
    = Some (true, fst replaced, snd replaced) /\
  alloc_failures (snd replaced) = alloc_failures (snd one_key_more) /\
  hash_table_get_size (fst replaced) = hash_table_get_size (fst one_key_more) /\
  (exists i e, buckets (fst one_key_more) !! i = Some (Some e) /\
               strcmp (key e) key1 = 0 /\ data e = 20 /\
               freed (snd replaced) = ptr e :: freed (snd one_key_more) /\
               forall j e', buckets (fst replaced) !! j = Some (Some e') ->
                            ptr e' <> ptr e) /\
  (exists j e', buckets (fst replaced) !! j = Some (Some e') /\
                strcmp (key e') key1 = 0 /\ data e' = 30 /\
                ptr e' = next_ptr (snd one_key_more)) /\
  hash_table_get 64 (fst replaced) key1 = Some 30.
Proof.
  assert (Hadd : hash_table_add 64 (snd one_key_more) (fst one_key_more) key1 30
                 = Some (true, fst replaced, snd replaced)) by (vm_compute; reflexivity).
  destruct (C4_replace_present 64 word64_range (snd one_key_more) (fst one_key_more)
              key1 20 30 one_key_more_reachable one_key_maps) as (_ & Hall).
  destruct (Hall true (fst replaced) (snd replaced) Hadd eq_refl)
    as (_ & Hsize & Hold & Hnew & Hget).
  split; [exact Hadd|]. split; [reflexivity|]. split; [exact Hsize|].
  split; [exact Hold|]. split; [exact Hnew|exact Hget].
Defined.

(** The table after the empty string is added with the payload 7. *)
Definition empty_key_added : hash_table * env :=
  Eval vm_compute in after_add one_key_more [] 7.

Lemma C10_witness :
  hash_table_entry_create 64 [] 7 (snd one_key_more)
    = (Some (Entry 1001 [0] 5381 7 0), Env (repeat true 6) 0 1002 []) /\
  hash_table_add 64 (snd one_key_more) (fst one_key_more) [] 7
    = Some (true, fst empty_key_added, snd empty_key_added) /\
  alloc_failures (snd empty_key_added) = alloc_failures (snd one_key_more) /\
  (exists i e, buckets (fst empty_key_added) !! i = Some (Some e) /\
               ptr e = 1001 /\ strlen (key e) = O /\ data e = 7) /\
  hash_table_get 64 (fst empty_key_added) [] = Some 7.
Proof.
  assert (Hadd : hash_table_add 64 (snd one_key_more) (fst one_key_more) [] 7
                 = Some (true, fst empty_key_added, snd empty_key_added))
    by (vm_compute; reflexivity).
  destruct (C10_add_empty_key 64 word64_range (snd one_key_more) (fst one_key_more) 7
              one_key_more_reachable) as (Hcreate & _ & Hall).
  destruct (Hall true (fst empty_key_added) (snd empty_key_added) Hadd eq_refl)
    as (_ & Hin & Hget).
  split; [exact (Hcreate (repeat true 6) eq_refl)|]. split; [exact Hadd|].
  split; [reflexivity|]. split; [exact Hin|exact Hget].
Defined.

(** ** Round trips *)

(** The table from which ["zzz"] and then ["key1"] are removed. *)
Definition two_keys_none : hash_table * env :=
  Eval vm_compute in after_remove two_keys_back key1.

Lemma C5_witness :
  add_all 64 (snd (after_create (grants 12))) (fst (after_create (grants 12)))
    [(key1, 20); (zzz, 30)] = Some two_keys /\
  remove_all 64 (snd two_keys) (fst two_keys) [zzz; key1]
    = Some ([true; true], fst two_keys_none, snd two_keys_none) /\
  hash_table_get_size (fst two_keys) = 2 /\
  hash_table_get_size (fst two_keys_none) = 0 /\
  (forall k, hash_table_get 64 (fst two_keys_none) k = Some NULL) /\
  HASH_TABLE_INITIAL_SHIFT <= max_size_shift (fst two_keys_none).
Proof.
  assert (Hadd : add_all 64 (snd (after_create (grants 12)))
                   (fst (after_create (grants 12))) [(key1, 20); (zzz, 30)]
                 = Some (fst two_keys, snd two_keys)) by (vm_compute; reflexivity).
  assert (Hrem : remove_all 64 (snd two_keys) (fst two_keys) [zzz; key1]
                 = Some ([true; true], fst two_keys_none, snd two_keys_none))
    by (vm_compute; reflexivity).
  destruct (C5_round_trip 64 word64_range (grants 12) (snd (after_create (grants 12)))
              (fst (after_create (grants 12))) [(key1, 20); (zzz, 30)] [zzz; key1])
    as (_ & Hall).
  - vm_compute. reflexivity.
  - split; [|split; [constructor|exact I]].
    constructor; [|constructor]. intros H. vm_compute in H. discriminate H.
  - split; [|split; [constructor|exact I]].
    constructor; [|constructor]. intros H. vm_compute in H. discriminate H.
  - split.
    + intros k Hk. inversion Hk as [|? ? ? Hk']; subst.
      * exists key1. split; [apply list_elem_of_further, list_elem_of_here|reflexivity].
      * inversion Hk' as [|? ? ? Hk'']; subst; [|inversion Hk''].
        exists zzz. split; [apply list_elem_of_here|reflexivity].
    + intros k Hk. inversion Hk as [|? ? ? Hk']; subst.
      * exists zzz. split; [apply list_elem_of_further, list_elem_of_here|reflexivity].
      * inversion Hk' as [|? ? ? Hk'']; subst; [|inversion Hk''].
        exists key1. split; [apply list_elem_of_here|reflexivity].
  - destruct (Hall (fst two_keys) (snd two_keys) [true; true] (fst two_keys_none)
                (snd two_keys_none) Hadd Hrem eq_refl)
      as (Hsize & _ & _ & Hzero & Hget & Hshift).
    split; [exact Hadd|]. split; [exact Hrem|]. split; [exact Hsize|].
    split; [exact Hzero|]. split; [exact Hget|exact Hshift].
Defined.

(** Thirteen strings of one letter, from ["a"] on, with the payloads 1 to
    13. *)
Definition letters : list (list Z * Z) :=
  map (fun i => ([96 + i], i)) [1; 2; 3; 4; 5; 6; 7; 8; 9; 10; 11; 12; 13].

(** The table after the thirteen additions to a fresh table, with an
    allocator that has no memory left, and the results of the thirteen
    removals with the table after them. *)
Definition letters_added : hash_table * env :=
  Eval vm_compute in
    match add_all 64 (snd (after_create (grants 29))) (fst (after_create (grants 29)))
            letters with
    | Some st => st
    | None => after_create (grants 29)
    end.

Definition letters_removed : list bool * hash_table * env :=
  Eval vm_compute in
    match remove_all 64 (snd letters_added) (fst letters_added) (letters.*1) with
    | Some r => r
    | None => ([], fst letters_added, snd letters_added)
    end.

(** C5, as stated, fails.  Thirteen different keys are added to a fresh
    table, which grows to 32 buckets, and the allocator has no memory left.
    The keys are removed in the order of their addition: nine removals
    return true; from the tenth on the check of the load factor asks for a
    shrink, the allocation is refused, and [hash_table_remove] returns
    false without removing the key.  The size is 4 at the end and
    [hash_table_get] of ["m"] returns its payload. *)
Lemma C5_counterexample :
  hash_table_create 64 (grants 29)
    = (Some (fst (after_create (grants 29))), snd (after_create (grants 29))) /\
  keys_differ (letters.*1) /\
  add_all 64 (snd (after_create (grants 29))) (fst (after_create (grants 29))) letters
    = Some letters_added /\
  hash_table_get_size (fst letters_added) = 13 /\
  remove_all 64 (snd letters_added) (fst letters_added) (letters.*1)
    = Some letters_removed /\
  letters_removed.1.1 = replicate 9 true ++ replicate 4 false /\
  hash_table_get_size letters_removed.1.2 = 4 /\
  hash_table_get 64 letters_removed.1.2 [109] = Some 13 /\
  alloc_failures (snd letters_added) = O /\
  alloc_failures letters_removed.2 = 4%nat.
Proof.
  split; [vm_compute; reflexivity|]. split.
  - repeat (first [split | constructor]); intros H; vm_compute in H; discriminate H.
  - repeat split; vm_compute; reflexivity.
Qed.

(** ** The home index of a key with a byte from 0x80 on *)

Lemma C6_witness :
  hash_table_get_position 64 (fst one_key) (c_string true key1)
    = home_index_spec 64 (c_string true key1) (max_size_shift (fst one_key)) /\
  0 <= hash_table_get_position 64 (fst one_key) (c_string true key1)
    < 2 ^ max_size_shift (fst one_key) /\
  hash_table_get_position 64 (fst one_key) (c_string true key1)
    = home_index_spec 64 key1 (max_size_shift (fst one_key)) /\
  home_index_spec 64 key1 (max_size_shift (fst one_key)) = 12.
Proof.
  destruct (C6_home_index 64 word64_range true (fst one_key) key1) as (H1 & H2 & H3 & _).
  - right. reflexivity.
  - cbn. lia.
  - split; [exact H1|]. split; [exact H2|]. split; [|vm_compute; reflexivity].
    apply H3. right. repeat constructor.
Defined.

(** C6, as stated, fails where plain [char] is signed, as it is on x86-64:
    for the key of the one byte 0xC8, [djb2_hash] adds -56 and the digest is
    177517, where the formula over the byte gives 177773; in a table of 16
    buckets the home index is 8, and 12 by the formula. *)
Lemma C6_counterexample :
  c_string true [200] = [-56] /\
  djb2_hash 64 (c_string true [200]) = 177517 /\
  djb2_spec 64 [200] = 177773 /\
  max_size_shift (fst one_key) = 4 /\
  hash_table_get_position 64 (fst one_key) (c_string true [200]) = 8 /\
  home_index_spec 64 [200] (max_size_shift (fst one_key)) = 12.
Proof. repeat split; vm_compute; reflexivity. Qed.

(** ** The requests for a resize *)

(** The table whose probe window is full at the home index of the strings
    with the same digest, with an allocator that grants four requests; the
    entry that [hash_table_add] builds for the fifth of these strings and
    the allocator after that; the table after this addition, after the
    removal of the fifth string, and after the removal of the fourth. *)
Definition full_window_more : hash_table * env :=
  Eval vm_compute in
    after_add (after_add (after_add (after_add (after_create (grants 14))
      same1 11) same2 12) same3 13) same4 14.

Definition same5_entry : hash_table_entry :=
  Entry 1004 [98; 65; 97; 98; 97; 98; 0] 6953305090478 15 0.

Definition same5_env : env := Env [true; true] 0 1005 [].

Definition grown_window : hash_table * env :=
  Eval vm_compute in after_add full_window_more same5 15.

Definition sparse : hash_table * env :=
  Eval vm_compute in after_remove grown_window same5.

Definition sparse_less : hash_table * env :=
  Eval vm_compute in after_remove sparse same4.

Lemma full_window_more_reachable :
  reachable 64 (snd full_window_more) (fst full_window_more).
Proof.
  set (s0 := after_create (grants 14)).
  set (s1 := after_add s0 same1 11). set (s2 := after_add s1 same2 12).
  set (s3 := after_add s2 same3 13).
  apply (reach_add 64 (snd s3) (fst s3) same4 14 true); [|vm_compute; reflexivity].
  apply (reach_add 64 (snd s2) (fst s2) same3 13 true); [|vm_compute; reflexivity].
  apply (reach_add 64 (snd s1) (fst s1) same2 12 true); [|vm_compute; reflexivity].
  apply (reach_add 64 (snd s0) (fst s0) same1 11 true); [|vm_compute; reflexivity].
  apply (reach_create 64 (grants 14)). vm_compute. reflexivity.
Qed.

Lemma grown_window_add :
  hash_table_add 64 (snd full_window_more) (fst full_window_more) same5 15
  = Some (true, fst grown_window, snd grown_window).
Proof. vm_compute. reflexivity. Qed.

Lemma sparse_reachable : reachable 64 (snd sparse) (fst sparse).
Proof.
  apply (reach_remove 64 (snd grown_window) (fst grown_window) same5 true);
    [|vm_compute; reflexivity].
  exact (reach_add 64 _ _ _ _ _ _ _ full_window_more_reachable grown_window_add).
Qed.

Lemma C7_witness :
  (hash_table_should_resize_up_factor 64 (fst full_window_more) = true <->
     4 * (curr_size (fst full_window_more) + 1) > 3 * max_size (fst full_window_more)) /\
  (asked same5_env (snd grown_window) <->
     4 * (curr_size (fst full_window_more) + 1) > 3 * max_size (fst full_window_more) \/
     window_exhausted 64 (fst full_window_more) same5_entry = true) /\
  asked same5_env (snd grown_window) /\
  max_size_shift (fst full_window_more) + 1 <= max_size_shift (fst grown_window) /\
  (asked (snd full_window_more) (snd (after_remove full_window_more same1)) <->
     HASH_TABLE_INITIAL_SHIFT < max_size_shift (fst full_window_more) /\
     10 * (curr_size (fst full_window_more) - 1) < max_size (fst full_window_more)) /\
  max_size_shift (fst (after_remove full_window_more same1))
    = max_size_shift (fst full_window_more) /\
  (asked (snd sparse) (snd sparse_less) <->
     HASH_TABLE_INITIAL_SHIFT < max_size_shift (fst sparse) /\
     10 * (curr_size (fst sparse) - 1) < max_size (fst sparse)) /\
  asked (snd sparse) (snd sparse_less) /\
  max_size_shift (fst sparse) - 1 <= max_size_shift (fst sparse_less).
Proof.
  destruct (C7_load_factor_checks 64 word64_range (snd full_window_more)
              (fst full_window_more) ltac:(lia) full_window_more_reachable
              ltac:(vm_compute; reflexivity)) as (Hup & _ & _ & Hadd & Hrem).
  destruct (Hadd same5 15 same5_entry same5_env true (fst grown_window)
              (snd grown_window) ltac:(vm_compute; reflexivity) grown_window_add)
    as (Hiff & _ & Hyes).
  assert (Hask : asked same5_env (snd grown_window)) by (left; vm_compute; lia).
  destruct (Hrem same1 true (fst (after_remove full_window_more same1))
              (snd (after_remove full_window_more same1)) ltac:(vm_compute; reflexivity))
    as (Hiff1 & Hno1 & _).
  destruct (C7_load_factor_checks 64 word64_range (snd sparse) (fst sparse) ltac:(lia)
              sparse_reachable ltac:(vm_compute; reflexivity)) as (_ & _ & _ & _ & Hrem2).
  destruct (Hrem2 same4 true (fst sparse_less) (snd sparse_less)
              ltac:(vm_compute; reflexivity)) as (Hiff2 & _ & Hyes2).
  assert (Hask2 : asked (snd sparse) (snd sparse_less)) by (left; vm_compute; lia).
  split; [exact Hup|]. split; [exact Hiff|]. split; [exact Hask|]. split.
  { refine (proj2 (Hyes Hask)
              (replicate 37 None) (Env [true] 0 1005 []) _). vm_compute. reflexivity. }
  split; [exact Hiff1|]. split.
  { apply Hno1. intros [H|H]; vm_compute in H; lia. }
  split; [exact Hiff2|]. split; [exact Hask2|].
  refine (proj2 (Hyes2 Hask2) (replicate 20 None) (Env [] 0 1005 [1004]) _).
  vm_compute. reflexivity.
Defined.

(** Twelve strings of one letter in a table of 16 buckets, with an
    allocator that has no memory left. *)
Definition twelve_letters : hash_table * env :=
  Eval vm_compute in
    match add_all 64 (snd (after_create (grants 26))) (fst (after_create (grants 26)))
            (take 12 letters) with
    | Some st => st
    | None => after_create (grants 26)
    end.

(** C7, as stated, fails.  Four strings with the same digest fill the
    probe window at their home index in a table of 16 buckets: for the
    fifth, [curr_size + 1] is 5, which does not exceed 12, and the check of
    the load factor does not hold; yet the walk of the insertion runs out
    of probes, [hash_table_add] asks for the array of the grown table and
    the table has 32 buckets after the call.  With twelve entries in a
    table of 16 buckets, [curr_size + 1] exceeds 12; yet, when the
    allocation of the entry fails, [hash_table_add] returns before its
    check and asks for no array.  And for a table of [2 ^ 26] buckets with
    [3 * 2 ^ 24] entries, [curr_size + 1] is rounded to [3 * 2 ^ 24] when
    it is converted to [float]: the check of the load factor does not
    hold, though [curr_size + 1] exceeds 0.75 times [max_size]. *)
Lemma C7_counterexample :
  (reachable 64 (snd full_window_more) (fst full_window_more) /\
   max_size (fst full_window_more) = 16 /\ curr_size (fst full_window_more) = 4 /\
   hash_table_should_resize_up_factor 64 (fst full_window_more) = false /\
   hash_table_entry_create 64 same5 15 (snd full_window_more)
     = (Some same5_entry, same5_env) /\
   hash_table_buckets_alloc 64 (grown 64 (fst full_window_more)) same5_env
     = (Some (replicate 37 None), snd grown_window) /\
   hash_table_add 64 (snd full_window_more) (fst full_window_more) same5 15
     = Some (true, fst grown_window, snd grown_window) /\
   max_size (fst grown_window) = 32) /\
  (add_all 64 (snd (after_create (grants 26))) (fst (after_create (grants 26)))
     (take 12 letters) = Some twelve_letters /\
   max_size (fst twelve_letters) = 16 /\ curr_size (fst twelve_letters) = 12 /\
   hash_table_should_resize_up_factor 64 (fst twelve_letters) = true /\
   hash_table_entry_create 64 [109] 13 (snd twelve_letters) = (None, Env [] 1 1012 []) /\
   hash_table_add 64 (snd twelve_letters) (fst twelve_letters) [109] 13
     = Some (false, fst twelve_letters, Env [] 1 1012 [])) /\
  (hash_table_should_resize_up_factor 64 (Table 26 (2 ^ 26) (3 * 2 ^ 24) []) = false /\
   4 * (3 * 2 ^ 24 + 1) > 3 * 2 ^ 26).
Proof.
  split; [|split].
  - split; [exact full_window_more_reachable|]. repeat split; vm_compute; reflexivity.
  - repeat split; vm_compute; reflexivity.
  - split; vm_compute; reflexivity.
Qed.
